(** * Weighted MaxSAT theory plugin (src/opt/weighted_maxsat.cpp)

    A shallow embedding of [smt::theory_weighted_maxsat] and of the entry
    point [opt::weighted_maxsat], together with the properties of the cost
    ledger, the blocking-clause generator and the result extractor. *)

From stdpp Require Import base option list gmap sorting.
From Stdlib Require Import QArith Lqa Permutation Sorted.

Close Scope Q_scope.

(** ** Numbers, identifiers, terms *)

(** [rational]: arbitrary precision rationals, compared with [<] and [>]. *)
Abbreviation rational := Q (only parsing).

(** [operator<] on rationals, as a test. *)
Definition Qlt_bool (x y : Q) : bool :=
  (Qnum x * QDen y <? Qnum y * QDen x)%Z.

(** [theory_var] and [bool_var] are indices handed out by the host ([int]
    in the source, never negative). *)
Abbreviation theory_var := nat (only parsing).
Abbreviation bool_var := nat (only parsing).

(** [app]: a constant of the term manager, named by its identifier. *)
Abbreviation app := nat (only parsing).

(** [expr]: the formulas this file builds or stores.  Soft constraints
    are opaque to the plugin; only constants and [mk_or] are constructed. *)
Inductive expr : Type :=
  | e_user (n : nat)
  | e_const (a : app)
  | e_or (a b : expr).

(** [literal(v)] is the positive literal of [v]; [~] flips the sign. *)
Record literal : Type := mk_literal { lit_var : bool_var; lit_sign : bool }.

Definition to_literal (v : bool_var) : literal := mk_literal v false.
Definition lit_neg (l : literal) : literal :=
  mk_literal (lit_var l) (negb (lit_sign l)).

Inductive lbool : Type := l_false | l_undef | l_true.
Inductive final_check_status : Type := FC_DONE | FC_CONTINUE | FC_GIVEUP.

(** ** The plugin's fields *)

Record theory_weighted_maxsat : Type := mk_theory {
  m_vars      : list app;                   (* relaxation constants *)
  m_fmls      : list expr;                  (* soft constraints *)
  m_weights   : list rational;              (* weights of theory variables *)
  m_costs     : list theory_var;            (* asserted theory variables *)
  m_cost_save : list theory_var;            (* saved asserted theory variables *)
  m_cost      : rational;                   (* current sum of asserted costs *)
  m_min_cost  : rational;                   (* current minimal cost assignment *)
  m_bool2var  : gmap bool_var theory_var;   (* bool_var -> theory_var *)
  m_var2bool  : gmap theory_var bool_var;   (* theory_var -> bool_var *)
  m_var2enode : list app                    (* inherited from smt::theory *)
}.

(** The constructor [theory_weighted_maxsat(ast_manager& m)]. *)
Definition alloc_theory : theory_weighted_maxsat :=
  mk_theory [] [] [] [] [] 0%Q 0%Q ∅ ∅ [].

Definition set_m_vars (x : list app) (t : theory_weighted_maxsat) :=
  mk_theory x (m_fmls t) (m_weights t) (m_costs t) (m_cost_save t)
            (m_cost t) (m_min_cost t) (m_bool2var t) (m_var2bool t) (m_var2enode t).
Definition set_m_fmls (x : list expr) (t : theory_weighted_maxsat) :=
  mk_theory (m_vars t) x (m_weights t) (m_costs t) (m_cost_save t)
            (m_cost t) (m_min_cost t) (m_bool2var t) (m_var2bool t) (m_var2enode t).
Definition set_m_weights (x : list rational) (t : theory_weighted_maxsat) :=
  mk_theory (m_vars t) (m_fmls t) x (m_costs t) (m_cost_save t)
            (m_cost t) (m_min_cost t) (m_bool2var t) (m_var2bool t) (m_var2enode t).
Definition set_m_costs (x : list theory_var) (t : theory_weighted_maxsat) :=
  mk_theory (m_vars t) (m_fmls t) (m_weights t) x (m_cost_save t)
            (m_cost t) (m_min_cost t) (m_bool2var t) (m_var2bool t) (m_var2enode t).
Definition set_m_cost_save (x : list theory_var) (t : theory_weighted_maxsat) :=
  mk_theory (m_vars t) (m_fmls t) (m_weights t) (m_costs t) x
            (m_cost t) (m_min_cost t) (m_bool2var t) (m_var2bool t) (m_var2enode t).
Definition set_m_cost (x : rational) (t : theory_weighted_maxsat) :=
  mk_theory (m_vars t) (m_fmls t) (m_weights t) (m_costs t) (m_cost_save t)
            x (m_min_cost t) (m_bool2var t) (m_var2bool t) (m_var2enode t).
Definition set_m_min_cost (x : rational) (t : theory_weighted_maxsat) :=
  mk_theory (m_vars t) (m_fmls t) (m_weights t) (m_costs t) (m_cost_save t)
            (m_cost t) x (m_bool2var t) (m_var2bool t) (m_var2enode t).
Definition set_m_bool2var (x : gmap bool_var theory_var) (t : theory_weighted_maxsat) :=
  mk_theory (m_vars t) (m_fmls t) (m_weights t) (m_costs t) (m_cost_save t)
            (m_cost t) (m_min_cost t) x (m_var2bool t) (m_var2enode t).
Definition set_m_var2bool (x : gmap theory_var bool_var) (t : theory_weighted_maxsat) :=
  mk_theory (m_vars t) (m_fmls t) (m_weights t) (m_costs t) (m_cost_save t)
            (m_cost t) (m_min_cost t) (m_bool2var t) x (m_var2enode t).
Definition set_m_var2enode (x : list app) (t : theory_weighted_maxsat) :=
  mk_theory (m_vars t) (m_fmls t) (m_weights t) (m_costs t) (m_cost_save t)
            (m_cost t) (m_min_cost t) (m_bool2var t) (m_var2bool t) x.

(** ** The host search ([smt::context])

    The plugin only sees the host through the calls it makes; the host's
    own code (smt_context.h, smt_theory.h, trail.h) is not part of this
    file and is modelled as far as those calls need. *)

(** Modelled from the spec: the trail objects of trail.h ("an inverse
    operation that will restore running_cost and truncate asserted_ids back
    to its prior length"): [value_trail<context, rational>(m_cost)] remembers
    the value [m_cost] has when it is pushed, and
    [push_back_vector<context, svector<theory_var>>(m_costs)] stands for one
    [push_back] on [m_costs]. *)
Inductive trail : Type :=
  | value_trail (m_old_value : rational)
  | push_back_vector.

(** Modelled from the spec: the part of [smt::context] the plugin reaches:
    the trail stack and its scopes, the theory lemmas and assertions it is
    given, and the tables of internalized atoms. *)
Record context : Type := mk_context {
  m_trail_stack     : list trail;            (* most recent first *)
  m_scopes          : list nat;              (* trail sizes, innermost first *)
  m_th_axioms       : list (list literal);   (* theory lemmas, most recent first *)
  m_asserted        : list expr;             (* asserted formulas, most recent first *)
  m_fresh           : nat;                   (* next fresh constant *)
  m_e_internalized  : gset app;              (* constants that have an enode *)
  m_expr2bool_var   : gmap app bool_var;     (* constants that have a bool_var *)
  m_num_bool_vars   : nat;                   (* next bool_var *)
  m_var_theory      : gset bool_var;         (* bool_vars owned by the plugin *)
  m_th_var          : gmap app theory_var    (* theory variable attached to an enode *)
}.

Definition empty_context : context :=
  mk_context [] [] [] [] 0 ∅ ∅ 0 ∅ ∅.

Definition set_trail_stack (x : list trail) (c : context) :=
  mk_context x (m_scopes c) (m_th_axioms c) (m_asserted c) (m_fresh c)
             (m_e_internalized c) (m_expr2bool_var c) (m_num_bool_vars c)
             (m_var_theory c) (m_th_var c).
Definition set_scopes (x : list nat) (c : context) :=
  mk_context (m_trail_stack c) x (m_th_axioms c) (m_asserted c) (m_fresh c)
             (m_e_internalized c) (m_expr2bool_var c) (m_num_bool_vars c)
             (m_var_theory c) (m_th_var c).

(** Modelled from the spec: [context::push_trail] ("record on the host's
    backtracking trail an inverse operation"); the host's trail stack is
    declared in smt_context.h. *)
Definition push_trail (t : trail) (c : context) : context :=
  set_trail_stack (t :: m_trail_stack c) c.

(** Modelled from the spec: [context::mk_th_axiom] ("submit this clause as
    a learned fact to the host search"); the clause is recorded. *)
Definition mk_th_axiom (lits : list literal) (c : context) : context :=
  mk_context (m_trail_stack c) (m_scopes c) (lits :: m_th_axioms c)
             (m_asserted c) (m_fresh c) (m_e_internalized c)
             (m_expr2bool_var c) (m_num_bool_vars c) (m_var_theory c) (m_th_var c).

(** Modelled from the spec: [context::assert_expr] ("asserts the hard
    clause into the host search's constraint store"). *)
Definition assert_expr (e : expr) (c : context) : context :=
  mk_context (m_trail_stack c) (m_scopes c) (m_th_axioms c)
             (e :: m_asserted c) (m_fresh c) (m_e_internalized c)
             (m_expr2bool_var c) (m_num_bool_vars c) (m_var_theory c) (m_th_var c).

(** Modelled from the spec: [ast_manager::mk_fresh_const] ("creates a fresh
    boolean relaxation atom"): the next unused constant. *)
Definition mk_fresh_const (c : context) : app * context :=
  (m_fresh c,
   mk_context (m_trail_stack c) (m_scopes c) (m_th_axioms c)
              (m_asserted c) (S (m_fresh c)) (m_e_internalized c)
              (m_expr2bool_var c) (m_num_bool_vars c) (m_var_theory c) (m_th_var c)).

(** Modelled from the spec: [context::e_internalized], [mk_enode] and
    [get_enode] ("ensure its relaxation atom has a term-level
    representative, creating it if absent"); an enode is named by its
    constant. *)
Definition e_internalized (a : app) (c : context) : bool :=
  bool_decide (a ∈ m_e_internalized c).
Definition mk_enode (a : app) (c : context) : app * context :=
  (a,
   mk_context (m_trail_stack c) (m_scopes c) (m_th_axioms c)
              (m_asserted c) (m_fresh c) ({[a]} ∪ m_e_internalized c)
              (m_expr2bool_var c) (m_num_bool_vars c) (m_var_theory c) (m_th_var c)).
Definition get_enode (a : app) (c : context) : app := a.

(** Modelled from the spec: [context::b_internalized], [get_bool_var] and
    [mk_bool_var] ("a boolean-decision id in the host search, creating it
    if absent"): a new decision gets the next unused index. *)
Definition b_internalized (a : app) (c : context) : bool :=
  bool_decide (is_Some (m_expr2bool_var c !! a)).
Definition get_bool_var (a : app) (c : context) : option bool_var :=
  m_expr2bool_var c !! a.
Definition mk_bool_var (a : app) (c : context) : bool_var * context :=
  (m_num_bool_vars c,
   mk_context (m_trail_stack c) (m_scopes c) (m_th_axioms c)
              (m_asserted c) (m_fresh c) (m_e_internalized c)
              (<[a := m_num_bool_vars c]> (m_expr2bool_var c))
              (S (m_num_bool_vars c)) (m_var_theory c) (m_th_var c)).

(** Modelled from the spec: [context::set_var_theory] with [set_enode_flag]
    ("mark this module as the owner of that boolean-decision"). *)
Definition set_var_theory (bv : bool_var) (c : context) : context :=
  mk_context (m_trail_stack c) (m_scopes c) (m_th_axioms c)
             (m_asserted c) (m_fresh c) (m_e_internalized c)
             (m_expr2bool_var c) (m_num_bool_vars c)
             ({[bv]} ∪ m_var_theory c) (m_th_var c).

(** Modelled from the spec: [context::attach_th_var]; the enode's theory
    variable for this plugin is set (replacing an earlier one). *)
Definition attach_th_var (x : app) (v : theory_var) (c : context) : context :=
  mk_context (m_trail_stack c) (m_scopes c) (m_th_axioms c)
             (m_asserted c) (m_fresh c) (m_e_internalized c)
             (m_expr2bool_var c) (m_num_bool_vars c)
             (m_var_theory c) (<[x := v]> (m_th_var c)).

(** Modelled from the spec: [theory::mk_var] of the base class
    (smt_theory.h): the new theory variable is the number of variables the
    theory has made so far, so that the first binding gives each soft
    constraint its sequence index as identity ("identity = sequence index"). *)
Definition mk_var (x : app) (t : theory_weighted_maxsat) : theory_var * theory_weighted_maxsat :=
  (length (m_var2enode t), set_m_var2enode (m_var2enode t ++ [x]) t).

(** The pair the callbacks run on. *)
Record smt_state : Type := mk_state { st_ctx : context; st_th : theory_weighted_maxsat }.

(** ** Sorting: the contract of [std::sort]

    [std::sort(first, last, comp)] leaves a permutation of the range in
    which no element is [comp]-before one that precedes it, provided
    [comp] is a strict weak ordering; the order of equivalent elements is
    not specified. *)
Class StdSort : Type := {
  std_sort : forall {A : Type}, (A -> A -> bool) -> list A -> list A;
  std_sort_perm : forall A (comp : A -> A -> bool) (l : list A),
    Permutation (std_sort comp l) l;
  std_sort_sorted : forall A (comp : A -> A -> bool) (l : list A),
    (forall x, comp x x = false) ->
    (forall x y z, comp x y = true -> comp y z = true -> comp x z = true) ->
    (forall x y z, comp x y = false -> comp y z = false -> comp x z = false) ->
    StronglySorted (fun x y => comp y x = false) (std_sort comp l)
}.

(** ** The plugin's methods *)

Section Plugin.
Context `{!StdSort}.

(** Reading [m_weights[v]] inside the comparator; an index outside the
    vector is undefined in the source and reads as [0] here (the loop of
    [block] reports it). *)
Definition weight_of (t : theory_weighted_maxsat) (v : theory_var) : rational :=
  default 0%Q (m_weights t !! v).

(** [compare_cost::operator()]: [m_weights[v] > m_weights[w]]. *)
Definition compare_cost (t : theory_weighted_maxsat) (v w : theory_var) : bool :=
  Qlt_bool (weight_of t w) (weight_of t v).

(** The loop of [block]: [i] runs over [costs] while [weight < m_min_cost]. *)
Fixpoint block_loop (t : theory_weighted_maxsat) (costs : list theory_var)
    (weight : rational) (lits : list literal) : option (rational * list literal) :=
  match costs with
  | [] => Some (weight, lits)
  | v :: rest =>
      if Qlt_bool weight (m_min_cost t) then
        w ← m_weights t !! v;
        bv ← m_var2bool t !! v;
        block_loop t rest (weight + w)%Q (lits ++ [lit_neg (to_literal bv)])
      else Some (weight, lits)
  end.

Definition block (s : smt_state) : option (bool * smt_state) :=
  let t := st_th s in
  let costs := std_sort (compare_cost t) (m_costs t) in
  '(weight, lits) ← block_loop t costs 0%Q [];
  let c := mk_th_axiom lits (st_ctx s) in
  let t' :=
    if Qlt_bool (m_cost t) (m_min_cost t)
    then set_m_cost_save ([] ++ m_costs t) (set_m_min_cost weight t)
    else t in
  Some (negb (bool_decide (lits = [])), mk_state c t').

(** The loop of [get_assignment]; [n] counts the iterations left. *)
Fixpoint get_assignment_loop (t : theory_weighted_maxsat) (n i j : nat)
    (result : list expr) : option (list expr) :=
  match n with
  | 0 => Some result
  | S n' =>
      if bool_decide (m_cost_save t !! j = Some i)
      then get_assignment_loop t n' (S i) (S j) result
      else f ← m_fmls t !! i; get_assignment_loop t n' (S i) j (result ++ [f])
  end.

Definition get_assignment (t : theory_weighted_maxsat)
    : option (list expr * theory_weighted_maxsat) :=
  let t' := set_m_cost_save (std_sort Nat.ltb (m_cost_save t)) t in
  result ← get_assignment_loop t' (length (m_vars t')) 0 0 [];
  Some (result, t').

(** One iteration of the loop of [init_search_eh]. *)
Definition init_search_step (s : smt_state) (var : app) : smt_state :=
  let c := st_ctx s in
  let '(x, c1) :=
    if e_internalized var c then (get_enode var c, c) else mk_enode var c in
  let '(bv, c2) :=
    if b_internalized var c1
    then (default 0 (get_bool_var var c1), c1)
    else mk_bool_var var c1 in
  let c3 := set_var_theory bv c2 in
  let '(v, t1) := mk_var x (st_th s) in
  let c4 := attach_th_var x v c3 in
  let t2 := set_m_bool2var (<[bv := v]> (m_bool2var t1)) t1 in
  let t3 := set_m_var2bool (<[v := bv]> (m_var2bool t2)) t2 in
  mk_state c4 t3.

Definition init_search_eh (s : smt_state) : smt_state :=
  foldl init_search_step s (m_vars (st_th s)).

Definition assert_weighted (fml : expr) (w : rational) (s : smt_state) : smt_state :=
  let '(var, c1) := mk_fresh_const (st_ctx s) in
  let wfml := e_or (e_const var) fml in
  let c2 := assert_expr wfml c1 in
  let t := st_th s in
  let t1 := set_m_weights (m_weights t ++ [w]) t in
  let t2 := set_m_vars (m_vars t1 ++ [var]) t1 in
  let t3 := set_m_fmls (m_fmls t2 ++ [fml]) t2 in
  let t4 := set_m_min_cost (m_min_cost t3 + w)%Q t3 in
  mk_state c2 t4.

Definition assign_eh (v : bool_var) (is_true : bool) (s : smt_state) : option smt_state :=
  if is_true then
    let t := st_th s in
    tv ← m_bool2var t !! v;
    w ← m_weights t !! tv;
    let c1 := push_trail (value_trail (m_cost t)) (st_ctx s) in
    let c2 := push_trail push_back_vector c1 in
    let t1 := set_m_cost (m_cost t + w)%Q t in
    let t2 := set_m_costs (m_costs t1 ++ [tv]) t1 in
    if Qlt_bool (m_min_cost t2) (m_cost t2)
    then '(_, s') ← block (mk_state c2 t2); Some s'
    else Some (mk_state c2 t2)
  else Some s.

Definition final_check_eh (s : smt_state) : option (final_check_status * smt_state) :=
  '(blocked, s') ← block s;
  Some (if blocked : bool then FC_CONTINUE else FC_DONE, s').

(** Modelled from the spec: [theory::reset_eh] of the base class
    (smt_theory.h), which forgets the theory variables made so far. *)
Definition theory_reset_eh (t : theory_weighted_maxsat) : theory_weighted_maxsat :=
  set_m_var2enode [] t.

Definition reset_eh (t : theory_weighted_maxsat) : theory_weighted_maxsat :=
  let t0 := theory_reset_eh t in
  let t1 := set_m_vars [] t0 in
  let t2 := set_m_weights [] t1 in
  let t3 := set_m_costs [] t2 in
  let t4 := set_m_cost 0%Q t3 in
  let t5 := set_m_min_cost 0%Q t4 in
  set_m_cost_save [] t5.

(** ** Backtracking in the host *)

(** Modelled from the spec: [trail::undo] of the two trail objects
    ("restore running_cost and truncate asserted_ids"): the remembered value
    goes back into [m_cost], and [m_costs] loses its last element. *)
Definition undo (e : trail) (t : theory_weighted_maxsat) : theory_weighted_maxsat :=
  match e with
  | value_trail m_old_value => set_m_cost m_old_value t
  | push_back_vector => set_m_costs (removelast (m_costs t)) t
  end.

(** Modelled from the spec: [context::undo_trail_stack] ("backtracking to
    level k must fully reverse every effect recorded at levels above k"):
    trail objects are popped and undone until [old_size] remain. *)
Fixpoint undo_trail_stack (tr : list trail) (old_size : nat)
    (t : theory_weighted_maxsat) : list trail * theory_weighted_maxsat :=
  match tr with
  | [] => ([], t)
  | e :: rest =>
      if old_size <? length tr
      then undo_trail_stack rest old_size (undo e t)
      else (tr, t)
  end.

(** Modelled from the spec: [context::push_scope] and [context::pop_scope];
    a scope remembers the size of the trail stack. *)
Definition push_scope (s : smt_state) : smt_state :=
  let c := st_ctx s in
  mk_state (set_scopes (length (m_trail_stack c) :: m_scopes c) c) (st_th s).

Definition pop_scope (num_scopes : nat) (s : smt_state) : option smt_state :=
  match num_scopes with
  | 0 => Some s
  | S k =>
      let c := st_ctx s in
      lim ← m_scopes c !! k;
      let '(tr, t) := undo_trail_stack (m_trail_stack c) lim (st_th s) in
      Some (mk_state (set_scopes (drop (S k) (m_scopes c)) (set_trail_stack tr c)) t)
  end.

(** What the host does to the plugin during one search. *)
Inductive event : Type :=
  | Assign (v : bool_var) (is_true : bool)
  | PushScope
  | PopScope (num_scopes : nat)
  | FinalCheck.

Definition step (s : smt_state) (e : event) : option smt_state :=
  match e with
  | Assign v is_true => assign_eh v is_true s
  | PushScope => Some (push_scope s)
  | PopScope n => pop_scope n s
  | FinalCheck => '(_, s') ← final_check_eh s; Some s'
  end.

Fixpoint run (evs : list event) (s : smt_state) : option smt_state :=
  match evs with
  | [] => Some s
  | e :: evs' => s' ← step s e; run evs' s'
  end.

(** ** The entry point [opt::weighted_maxsat] *)

(** The loop calling [assert_weighted(soft_constraints[i], weights[i])]. *)
Fixpoint assert_all (soft : list expr) (weights : list rational) (i : nat)
    (s : smt_state) : option smt_state :=
  match soft with
  | [] => Some s
  | fml :: rest =>
      w ← weights !! i;
      assert_all rest weights (S i) (assert_weighted fml w s)
  end.

Definition weighted_maxsat (check_sat_core : smt_state -> lbool * smt_state)
    (c : context) (th : option theory_weighted_maxsat)
    (soft_constraints : list expr) (weights : list rational)
    : option (lbool * list expr * smt_state) :=
  let wth := match th with Some t => t | None => alloc_theory end in
  s1 ← assert_all soft_constraints weights 0 (mk_state c wth);
  let '(result, s2) := check_sat_core s1 in
  '(soft_constraints', wth') ← get_assignment (st_th s2);
  let result' :=
    match soft_constraints', result with
    | _ :: _, l_false => l_true
    | _, _ => result
    end in
  Some (result', soft_constraints', mk_state (st_ctx s2) wth').

End Plugin.

(** ** Two sorting routines that meet the contract *)

(** [x] goes in front of the first element it is [comp]-before, hence
    behind every element equivalent to it. *)
Fixpoint sorted_insert {A : Type} (comp : A -> A -> bool) (x : A) (l : list A) : list A :=
  match l with
  | [] => [x]
  | y :: l' => if comp x y then x :: y :: l' else y :: sorted_insert comp x l'
  end.

(** Elements are inserted from left to right: a stable sort. *)
Definition insertion_sort {A : Type} (comp : A -> A -> bool) (l : list A) : list A :=
  foldl (fun acc x => sorted_insert comp x acc) [] l.

(** The same after reversing the input: equivalent elements come out in
    the opposite order. *)
Definition reversed_insertion_sort {A : Type} (comp : A -> A -> bool) (l : list A) : list A :=
  insertion_sort comp (reverse l).

(** A stable [std::sort] (what an insertion sort of a short range does). *)
#[refine] Definition stable_std_sort : StdSort :=
  {| std_sort := fun A comp l => insertion_sort comp l |}.
Proof.
  - intros A comp l.
    assert (forall x l0, Permutation (sorted_insert comp x l0) (x :: l0)) as Hins.
    { intros x l0. induction l0 as [|y l0 IH]; simpl; [reflexivity|].
      destruct (comp x y); [reflexivity|]. rewrite IH. apply perm_swap. }
    enough (forall acc,
              Permutation (foldl (fun acc x => sorted_insert comp x acc) acc l) (acc ++ l))
      as Hacc by apply (Hacc []).
    induction l as [|x l IH]; intros acc; simpl.
    + rewrite app_nil_r. reflexivity.
    + rewrite IH, Hins. apply Permutation_middle.
  - intros A comp l Hirrefl Htrans _.
    assert (forall x l0, Permutation (sorted_insert comp x l0) (x :: l0)) as Hins.
    { intros x l0. induction l0 as [|y l0 IH]; simpl; [reflexivity|].
      destruct (comp x y); [reflexivity|]. rewrite IH. apply perm_swap. }
    assert (forall x l0,
              StronglySorted (fun a b => comp b a = false) l0 ->
              StronglySorted (fun a b => comp b a = false) (sorted_insert comp x l0))
      as Hsorted.
    { intros x l0. induction 1 as [|y l0 Hl IH Hy]; simpl.
      - repeat constructor.
      - destruct (comp x y) eqn:Hxy.
        + constructor; [constructor; assumption|].
          constructor.
          * destruct (comp y x) eqn:Hyx; [|reflexivity].
            rewrite <- (Hirrefl x). symmetry. eauto.
          * rewrite Forall_forall in Hy |- *. intros z Hz.
            destruct (comp z x) eqn:Hzx; [|reflexivity].
            rewrite <- (Hy z Hz). symmetry. eauto.
        + constructor; [assumption|].
          eapply Permutation_Forall; [symmetry; apply Hins|].
          constructor; assumption. }
    enough (forall acc,
              StronglySorted (fun a b => comp b a = false) acc ->
              StronglySorted (fun a b => comp b a = false)
                (foldl (fun acc x => sorted_insert comp x acc) acc l))
      as Hacc by (apply Hacc; constructor).
    induction l as [|x l IH]; intros acc Hacc; simpl; [assumption|].
    apply IH, Hsorted, Hacc.
Defined.

(** A [std::sort] that meets the contract and is not stable. *)
#[refine] Definition unstable_std_sort : StdSort :=
  {| std_sort := fun A comp l => reversed_insertion_sort comp l |}.
Proof.
  - intros A comp l. unfold reversed_insertion_sort.
    etransitivity; [apply (std_sort_perm (StdSort := stable_std_sort))|].
    apply reverse_Permutation.
  - intros A comp l Hirrefl Htrans Hneg. unfold reversed_insertion_sort.
    apply (std_sort_sorted (StdSort := stable_std_sort)); assumption.
Defined.

(** ** Vocabulary of the properties *)

(** Sum of the weights of a sequence of theory variables. *)
Definition sum_weights (t : theory_weighted_maxsat) (ids : list theory_var) : rational :=
  foldr (fun v acc => (weight_of t v + acc)%Q) 0%Q ids.

(** The value [weight] has after the loop of [block] went over [ids]. *)
Definition accumulate (t : theory_weighted_maxsat) (weight : rational)
    (ids : list theory_var) : rational :=
  foldl (fun acc v => (acc + weight_of t v)%Q) weight ids.

(** The ids taken from the head of [ids] while the sum accumulated so far
    (starting from [weight]) is below [m_min_cost]. *)
Fixpoint greedy_prefix (t : theory_weighted_maxsat) (ids : list theory_var)
    (weight : rational) : list theory_var :=
  match ids with
  | [] => []
  | v :: rest =>
      if Qlt_bool weight (m_min_cost t)
      then v :: greedy_prefix t rest (weight + weight_of t v)%Q
      else []
  end.

(** The literal [~literal(m_var2bool[v])]. *)
Definition relax_lit (t : theory_weighted_maxsat) (v : theory_var) : literal :=
  lit_neg (to_literal (default 0 (m_var2bool t !! v))).

(** Sum of the weights of the soft constraints whose relaxation literal
    occurs in a clause. *)
Definition clause_weight (t : theory_weighted_maxsat) (c : list literal) : rational :=
  foldr (fun l acc => (weight_of t (default 0%nat (m_bool2var t !! lit_var l)) + acc)%Q) 0%Q c.

(** Every id is an index of [m_weights] and a key of [m_var2bool]. *)
Definition ids_ok (t : theory_weighted_maxsat) (ids : list theory_var) : Prop :=
  Forall (fun v => is_Some (m_weights t !! v) /\ is_Some (m_var2bool t !! v)) ids.

(** The two maps are inverse to each other on the ids. *)
Definition ids_bound (t : theory_weighted_maxsat) (ids : list theory_var) : Prop :=
  Forall (fun v => exists bv,
            m_var2bool t !! v = Some bv /\ m_bool2var t !! bv = Some v) ids.

(** The last clause handed to [mk_th_axiom]. *)
Definition last_axiom (s : smt_state) : list literal :=
  default [] (head (m_th_axioms (st_ctx s))).

(** The complement that [get_assignment] is to return: the formulas at the
    indices of [m_vars] that do not occur in [m_cost_save], in order. *)
Definition complement_fmls (t : theory_weighted_maxsat) : list expr :=
  omap (fun i => if bool_decide (i ∈ m_cost_save t) then None else m_fmls t !! i)
       (seq 0 (length (m_vars t))).

(** What the claim of a stable, registration-ordered sort amounts to:
    weight descending, ties by ascending theory variable. *)
Definition spec_compare (t : theory_weighted_maxsat) (v w : theory_var) : bool :=
  Qlt_bool (weight_of t w) (weight_of t v)
  || (negb (Qlt_bool (weight_of t v) (weight_of t w)) && (v <? w)).

(** The clause of [block] as the spec words it: the snapshot sorted by
    [spec_compare], the greedy prefix of that, its literals negated. *)
Definition spec_block_clause (t : theory_weighted_maxsat) : list literal :=
  map (relax_lit t) (greedy_prefix t (insertion_sort (spec_compare t) (m_costs t)) 0%Q).

(** Fields no callback of the search writes. *)
Definition registry (t : theory_weighted_maxsat) :=
  (m_vars t, m_fmls t, m_weights t, m_bool2var t, m_var2bool t, m_var2enode t).

(** Host fields that registration and the callbacks of a search leave alone. *)
Definition host_tables (c : context) :=
  (m_e_internalized c, m_expr2bool_var c, m_num_bool_vars c).

(** What the invariants of a search read from the state. *)
Definition ledger_view (s : smt_state) :=
  (m_weights (st_th s), m_bool2var (st_th s), m_var2bool (st_th s),
   m_costs (st_th s), m_cost (st_th s),
   m_trail_stack (st_ctx s), m_scopes (st_ctx s)).

(** What [bound_inv] reads from the plugin. *)
Definition bound_view (t : theory_weighted_maxsat) :=
  (m_weights t, m_cost_save t, m_min_cost t).

(** The part of the state a search never changes outside the ledger. *)
Definition same_static (t t' : theory_weighted_maxsat) : Prop :=
  t' = set_m_cost (m_cost t') (set_m_costs (m_costs t') t).

(** The ledger proper: [m_cost] and [m_costs]. *)
Definition ledger_of (t : theory_weighted_maxsat) : rational * list theory_var :=
  (m_cost t, m_costs t).

(** ** One search session *)

(** Registration of the soft constraints, in order. *)
Definition register_all (soft : list (expr * rational)) (s : smt_state) : smt_state :=
  foldl (fun s fw => assert_weighted fw.1 fw.2 s) s soft.

(** A fresh plugin in host [c], the soft constraints registered, and the
    bindings made when the search starts. *)
Definition start_search (c : context) (soft : list (expr * rational)) : smt_state :=
  init_search_eh (register_all soft (mk_state c alloc_theory)).

(** The part of [assign_eh v true] that precedes the test
    [m_cost > m_min_cost]. *)
Definition assign_update (v : bool_var) (s : smt_state) : option smt_state :=
  let t := st_th s in
  tv ← m_bool2var t !! v;
  w ← m_weights t !! tv;
  let c2 := push_trail push_back_vector (push_trail (value_trail (m_cost t)) (st_ctx s)) in
  Some (mk_state c2 (set_m_costs (m_costs t ++ [tv]) (set_m_cost (m_cost t + w)%Q t))).

(** The ledgers saved for the open scopes, innermost first, after an event. *)
Definition saved_step (e : event) (s : smt_state)
    (saved : list (rational * list theory_var)) : list (rational * list theory_var) :=
  match e with
  | PushScope => ledger_of (st_th s) :: saved
  | PopScope n => drop n saved
  | _ => saved
  end.

Section SessionVocabulary.
Context `{!StdSort}.

(** The snapshot of [m_costs] after [std::sort]. *)
Definition sorted_costs (t : theory_weighted_maxsat) : list theory_var :=
  std_sort (compare_cost t) (m_costs t).

(** The accumulated prefix of [block]. *)
Definition block_prefix (t : theory_weighted_maxsat) : list theory_var :=
  greedy_prefix t (sorted_costs t) 0%Q.

(** The states on which a search started from host [c] with the soft
    constraints [soft] calls [block]: at a final check, and inside
    [assign_eh] when the updated cost exceeds the bound. *)
Inductive calls_block (c : context) (soft : list (expr * rational)) : smt_state -> Prop :=
  | calls_block_final evs s :
      run evs (start_search c soft) = Some s ->
      calls_block c soft s
  | calls_block_assign evs s0 v s :
      run evs (start_search c soft) = Some s0 ->
      assign_update v s0 = Some s ->
      (m_min_cost (st_th s) < m_cost (st_th s))%Q ->
      calls_block c soft s.

(** [run] together with the ledgers found at the scopes still open,
    innermost first. *)
Fixpoint run_saved (evs : list event) (s : smt_state)
    (saved : list (rational * list theory_var))
    : option (smt_state * list (rational * list theory_var)) :=
  match evs with
  | [] => Some (s, saved)
  | e :: evs' => s' ← step s e; run_saved evs' s' (saved_step e s saved)
  end.

(** The host's side of the contract: a boolean variable is assigned true
    only while its theory variable is not among the asserted ones, that is,
    a relaxation literal is assigned at most once on a branch. *)
Definition assigns_fresh (s : smt_state) (e : event) : bool :=
  match e with
  | Assign v true =>
      match m_bool2var (st_th s) !! v with
      | Some tv => bool_decide (tv ∉ m_costs (st_th s))
      | None => true
      end
  | _ => true
  end.

Fixpoint host_assigns_once (evs : list event) (s : smt_state) : bool :=
  match evs with
  | [] => true
  | e :: evs' =>
      assigns_fresh s e &&
      match step s e with
      | Some s' => host_assigns_once evs' s'
      | None => true
      end
  end.

End SessionVocabulary.

(** ** Invariants of a search *)

(** The ledger agrees with the weights, and what the trail would restore
    agrees with them as well: every entry pair on the trail is the inverse
    of one [assign_eh]. *)
Fixpoint ledger_consistent (t : theory_weighted_maxsat) (cost : rational)
    (costs : list theory_var) (tr : list trail) : Prop :=
  (cost == sum_weights t costs)%Q /\
  match tr with
  | [] => True
  | push_back_vector :: tr1 =>
      match tr1 with
      | value_trail old :: rest =>
          costs <> [] /\ ledger_consistent t old (removelast costs) rest
      | _ => False
      end
  | _ => False
  end.

(** Scopes are opened between two callbacks: every remembered trail size
    lies an even number of entries below the next one. *)
Fixpoint scopes_ok (size : nat) (scopes : list nat) : Prop :=
  match scopes with
  | [] => True
  | lim :: rest => lim <= size /\ Nat.Even (size - lim) /\ scopes_ok lim rest
  end.

Definition ledger_inv (s : smt_state) : Prop :=
  ledger_consistent (st_th s) (m_cost (st_th s)) (m_costs (st_th s))
    (m_trail_stack (st_ctx s)) /\
  scopes_ok (length (m_trail_stack (st_ctx s))) (m_scopes (st_ctx s)).

(** Every bound boolean variable maps to an index of [m_weights] that maps
    back to it. *)
Definition bindings_inv (t : theory_weighted_maxsat) : Prop :=
  forall bv tv, m_bool2var t !! bv = Some tv ->
    tv < length (m_weights t) /\ m_var2bool t !! tv = Some bv.

Definition costs_inv (t : theory_weighted_maxsat) : Prop :=
  ids_bound t (m_costs t) /\ Forall (fun v => v < length (m_weights t)) (m_costs t).

Definition search_inv (s : smt_state) : Prop :=
  bindings_inv (st_th s) /\ costs_inv (st_th s) /\ ledger_inv s.

(** No id is asserted twice, nor saved twice. *)
Definition nodup_inv (t : theory_weighted_maxsat) : Prop :=
  NoDup (m_costs t) /\ NoDup (m_cost_save t).

(** Weights are not negative, and the saved set weighs as much as the
    bound once one has been saved. *)
Definition bound_inv (t : theory_weighted_maxsat) : Prop :=
  Forall (fun w => (0 <= w)%Q) (m_weights t) /\
  ((sum_weights t (m_cost_save t) == m_min_cost t)%Q \/
   (m_cost_save t = [] /\ (0 <= m_min_cost t)%Q)).

(** The host's table of boolean variables is injective and below its counter. *)
Definition bool_vars_wf (c : context) : Prop :=
  (forall a bv, m_expr2bool_var c !! a = Some bv -> bv < m_num_bool_vars c) /\
  (forall a a' bv, m_expr2bool_var c !! a = Some bv ->
                   m_expr2bool_var c !! a' = Some bv -> a = a').

(** A host in which no search is under way. *)
Definition ctx_wf (c : context) : Prop :=
  m_trail_stack c = [] /\ m_scopes c = [] /\ bool_vars_wf c.

(** What a pass of [init_search_eh] over [vars] makes of state [s]. *)
Definition binding_result (s : smt_state) (vars : list app) (s' : smt_state) : Prop :=
  let base := length (m_var2enode (st_th s)) in
  bool_vars_wf (st_ctx s') /\
  length (m_var2enode (st_th s')) = base + length vars /\
  (forall a bv, m_expr2bool_var (st_ctx s) !! a = Some bv ->
                m_expr2bool_var (st_ctx s') !! a = Some bv) /\
  m_e_internalized (st_ctx s) ⊆ m_e_internalized (st_ctx s') /\
  (forall i a, vars !! i = Some a ->
     a ∈ m_e_internalized (st_ctx s') /\
     exists bv, m_expr2bool_var (st_ctx s') !! a = Some bv /\
                m_bool2var (st_th s') !! bv = Some (base + i) /\
                m_var2bool (st_th s') !! (base + i) = Some bv) /\
  (forall bv tv, m_bool2var (st_th s') !! bv = Some tv ->
     m_bool2var (st_th s) !! bv = Some tv \/
     exists i a, vars !! i = Some a /\ tv = base + i /\
                 m_expr2bool_var (st_ctx s') !! a = Some bv) /\
  (forall bv tv, m_bool2var (st_th s) !! bv = Some tv ->
     (forall a, a ∈ vars -> m_expr2bool_var (st_ctx s') !! a <> Some bv) ->
     m_bool2var (st_th s') !! bv = Some tv) /\
  (forall tv, tv < base -> m_var2bool (st_th s') !! tv = m_var2bool (st_th s) !! tv) /\
  ((forall a, a ∈ vars -> a ∈ m_e_internalized (st_ctx s) /\
                          is_Some (m_expr2bool_var (st_ctx s) !! a)) ->
   host_tables (st_ctx s') = host_tables (st_ctx s)) /\
  (m_vars (st_th s'), m_fmls (st_th s'), m_weights (st_th s'), m_costs (st_th s'),
   m_cost_save (st_th s'), m_cost (st_th s'), m_min_cost (st_th s')) =
  (m_vars (st_th s), m_fmls (st_th s), m_weights (st_th s), m_costs (st_th s),
   m_cost_save (st_th s), m_cost (st_th s), m_min_cost (st_th s)) /\
  (m_trail_stack (st_ctx s'), m_scopes (st_ctx s'), m_th_axioms (st_ctx s')) =
  (m_trail_stack (st_ctx s), m_scopes (st_ctx s), m_th_axioms (st_ctx s)).

(** [undo] and [undo_trail_stack], read on the ledger alone. *)
Definition undo_ledger_entry (e : trail) (l : rational * list theory_var)
    : rational * list theory_var :=
  match e with
  | value_trail m_old_value => (m_old_value, l.2)
  | push_back_vector => (l.1, removelast l.2)
  end.

Fixpoint undo_ledger (tr : list trail) (old_size : nat)
    (l : rational * list theory_var) : rational * list theory_var :=
  match tr with
  | [] => l
  | e :: rest =>
      if old_size <? length tr
      then undo_ledger rest old_size (undo_ledger_entry e l)
      else l
  end.

(** Every open scope would restore the ledger saved for it. *)
Definition snapshots_ok (s : smt_state) (saved : list (rational * list theory_var)) : Prop :=
  Forall2 (fun lim l =>
             undo_ledger (m_trail_stack (st_ctx s)) lim (ledger_of (st_th s)) = l)
          (m_scopes (st_ctx s)) saved.

(** ** Vocabulary of the further properties *)

(** Sum of a sequence of rationals. *)
Definition Qsum (l : list rational) : rational := foldr Qplus 0%Q l.

(** The hard clause [assert_weighted] asserts for the relaxation constant
    [var] and the soft constraint [fml]. *)
Definition relaxed_clause (var : app) (fml : expr) : expr := e_or (e_const var) fml.

(** The bound is the weight of the saved set, or still the sum of all
    weights with nothing saved; and every saved id indexes a weight. *)
Definition saved_inv (t : theory_weighted_maxsat) : Prop :=
  ((sum_weights t (m_cost_save t) == m_min_cost t)%Q \/
   (m_cost_save t = [] /\ (m_min_cost t == Qsum (m_weights t))%Q)) /\
  Forall (fun v => v < length (m_weights t)) (m_cost_save t).

(** ** Concrete sessions *)

(** Three soft constraints with weights 3, 5 and 2. *)
Definition scenario_soft : list (expr * rational) :=
  [(e_user 0, 3%Q); (e_user 1, 5%Q); (e_user 2, 2%Q)].

(** Three soft constraints of weight 1. *)
Definition ties_soft : list (expr * rational) :=
  [(e_user 0, 1%Q); (e_user 1, 1%Q); (e_user 2, 1%Q)].

(** The third constraint is relaxed and accepted at a final check, the host
    backtracks, and relaxes the first. *)
Definition ties_events : list event :=
  [PushScope; Assign 2 true; FinalCheck; PopScope 1; Assign 0 true].

(** The state a session is in after the events [evs], under the stable
    sort (the start state if a callback fails). *)
Definition state_after (soft : list (expr * rational)) (evs : list event) : smt_state :=
  default (start_search empty_context soft)
          (run (H := stable_std_sort) evs (start_search empty_context soft)).

(** The state in which the ties session calls [block]: the second
    constraint has just been relaxed as well. *)
Definition ties_call : smt_state :=
  default (state_after ties_soft ties_events)
          (assign_update 1 (state_after ties_soft ties_events)).

(** The same session with the second constraint relaxed before the first. *)
Definition ties_events_rev : list event :=
  [PushScope; Assign 2 true; FinalCheck; PopScope 1; Assign 1 true].

Definition ties_call_rev : smt_state :=
  default (state_after ties_soft ties_events_rev)
          (assign_update 0 (state_after ties_soft ties_events_rev)).

(** Weights 5, -4 and 1: a weight the data model of the spec excludes. *)
Definition negative_soft : list (expr * rational) :=
  [(e_user 0, 5%Q); (e_user 1, (-4)%Q); (e_user 2, 1%Q)].


(** A search that relaxes nothing and reports [l_false]. *)
Definition refuting_search (s : smt_state) : lbool * smt_state :=
  (l_false, init_search_eh s).

(** A search that reaches the plugin with the callbacks [evs] and reports
    [l_false] (under the stable sort; the bound state if a callback fails). *)
Definition session_search (evs : list event) (s : smt_state) : lbool * smt_state :=
  (l_false,
   default (init_search_eh s) (run (H := stable_std_sort) evs (init_search_eh s))).

(** * Lemmas *)

(** ** Comparing rationals *)

Lemma Qlt_bool_iff (x y : Q) : Qlt_bool x y = true <-> (x < y)%Q.
Proof. unfold Qlt_bool, Qlt. apply Z.ltb_lt. Qed.

Lemma Qlt_bool_false (x y : Q) : Qlt_bool x y = false <-> (y <= x)%Q.
Proof. unfold Qlt_bool, Qle. rewrite Z.ltb_ge. reflexivity. Qed.

(** ** Arithmetic of the sums *)

Lemma sum_weights_app t l1 l2 :
  (sum_weights t (l1 ++ l2) == sum_weights t l1 + sum_weights t l2)%Q.
Proof.
  induction l1 as [|v l1 IH]; simpl; [lra|]. rewrite IH. lra.
Qed.

Lemma sum_weights_perm t l1 l2 :
  Permutation l1 l2 -> (sum_weights t l1 == sum_weights t l2)%Q.
Proof.
  induction 1; simpl; try lra.
Qed.

Lemma accumulate_sum t w ids :
  (accumulate t w ids == w + sum_weights t ids)%Q.
Proof.
  revert w. induction ids as [|v ids IH]; intros w; simpl; [lra|].
  pose proof (IH (w + weight_of t v)%Q) as IHv.
  lra.
Qed.

Lemma sum_weights_nonneg t ids :
  Forall (fun w => (0 <= w)%Q) (m_weights t) -> (0 <= sum_weights t ids)%Q.
Proof.
  intros Hw. induction ids as [|v ids IH]; simpl; [lra|].
  assert (0 <= weight_of t v)%Q.
  { unfold weight_of. destruct (m_weights t !! v) as [w|] eqn:E; simpl; [|lra].
    rewrite Forall_forall in Hw. apply Hw. eapply list_elem_of_lookup_2, E. }
  lra.
Qed.

Lemma greedy_prefix_is_prefix t ids w :
  greedy_prefix t ids w `prefix_of` ids.
Proof.
  revert w. induction ids as [|v ids IH]; intros w; simpl; [done|].
  destruct (Qlt_bool w (m_min_cost t)); [|apply prefix_nil].
  apply prefix_cons, IH.
Qed.

(** The loop stops because the bound is met or because nothing is left. *)
Lemma greedy_prefix_stop t ids w :
  (m_min_cost t <= accumulate t w (greedy_prefix t ids w))%Q \/
  greedy_prefix t ids w = ids.
Proof.
  revert w. induction ids as [|v ids IH]; intros w; simpl; [by right|].
  destruct (Qlt_bool w (m_min_cost t)) eqn:E.
  - simpl. destruct (IH (w + weight_of t v)%Q) as [H|H]; [by left|right; by f_equal].
  - left. simpl. by apply Qlt_bool_false.
Qed.

(** No shorter prefix meets the bound. *)
Lemma greedy_prefix_minimal t ids w p x :
  p ++ [x] `prefix_of` greedy_prefix t ids w ->
  (accumulate t w p < m_min_cost t)%Q.
Proof.
  revert w p. induction ids as [|v ids IH]; intros w p; simpl.
  - intros Hp. apply prefix_nil_inv in Hp. by destruct p.
  - destruct (Qlt_bool w (m_min_cost t)) eqn:E.
    + destruct p as [|y p]; simpl.
      * intros _. by apply Qlt_bool_iff.
      * intros Hp. pose proof (prefix_cons_inv_1 _ _ _ _ Hp) as ->.
        apply prefix_cons_inv_2 in Hp. by apply IH.
    + intros Hp. apply prefix_nil_inv in Hp. by destruct p.
Qed.

(** With weights that are not negative and a total below the bound, the
    loop goes over the whole sequence. *)
Lemma greedy_prefix_all t ids w :
  Forall (fun w => (0 <= w)%Q) (m_weights t) ->
  (w + sum_weights t ids < m_min_cost t)%Q ->
  greedy_prefix t ids w = ids.
Proof.
  intros Hw. revert w. induction ids as [|v ids IH]; intros w Hlt; simpl; [done|].
  simpl in Hlt. pose proof (sum_weights_nonneg t ids Hw).
  assert (0 <= weight_of t v)%Q.
  { pose proof (sum_weights_nonneg t [v] Hw) as Hv. simpl in Hv. lra. }
  assert (Qlt_bool w (m_min_cost t) = true) as -> by (apply Qlt_bool_iff; lra).
  f_equal. apply IH. lra.
Qed.

Lemma greedy_prefix_nil t ids w :
  greedy_prefix t ids w = [] <-> ids = [] \/ (m_min_cost t <= w)%Q.
Proof.
  destruct ids as [|v ids]; simpl; [naive_solver|].
  destruct (Qlt_bool w (m_min_cost t)) eqn:E.
  - apply Qlt_bool_iff in E. split; [done|]. intros [?|?]; [done|lra].
  - apply Qlt_bool_false in E. naive_solver.
Qed.

(** ** The loop of [block] against the greedy prefix *)

Lemma weight_of_lookup t v w : m_weights t !! v = Some w -> weight_of t v = w.
Proof. unfold weight_of. by intros ->. Qed.

Lemma relax_lit_lookup t v bv :
  m_var2bool t !! v = Some bv -> relax_lit t v = lit_neg (to_literal bv).
Proof. unfold relax_lit. by intros ->. Qed.

Lemma block_loop_inv t costs w lits w' lits' :
  block_loop t costs w lits = Some (w', lits') ->
  w' = accumulate t w (greedy_prefix t costs w) /\
  lits' = lits ++ map (relax_lit t) (greedy_prefix t costs w) /\
  ids_ok t (greedy_prefix t costs w).
Proof.
  revert w lits. induction costs as [|v costs IH]; intros w lits; simpl.
  - intros [= <- <-]. rewrite app_nil_r. repeat split. constructor.
  - destruct (Qlt_bool w (m_min_cost t)).
    + destruct (m_weights t !! v) as [wv|] eqn:Ew; simpl; [|done].
      destruct (m_var2bool t !! v) as [bv|] eqn:Eb; simpl; [|done].
      intros Hloop. apply IH in Hloop as (-> & -> & Hok).
      rewrite (weight_of_lookup _ _ _ Ew), (relax_lit_lookup _ _ _ Eb).
      rewrite <- app_assoc. repeat split.
      constructor; [|done]. rewrite Ew, Eb. eauto.
    + intros [= <- <-]. rewrite app_nil_r. repeat split. constructor.
Qed.

Lemma block_loop_total t costs w lits :
  ids_ok t (greedy_prefix t costs w) ->
  is_Some (block_loop t costs w lits).
Proof.
  revert w lits. induction costs as [|v costs IH]; intros w lits; simpl; [eauto|].
  destruct (Qlt_bool w (m_min_cost t)); [|eauto].
  intros Hok. apply Forall_cons in Hok as [[[wv Ew] [bv Eb]] Hok].
  rewrite Ew, Eb. simpl. rewrite (weight_of_lookup _ _ _ Ew) in Hok. by apply IH.
Qed.

Lemma ids_ok_prefix t p ids : p `prefix_of` ids -> ids_ok t ids -> ids_ok t p.
Proof. intros [k ->] H. by apply Forall_app in H as [? _]. Qed.

Lemma ids_ok_perm t l1 l2 : Permutation l1 l2 -> ids_ok t l1 -> ids_ok t l2.
Proof. intros Hp H. unfold ids_ok. by rewrite <- Hp. Qed.

Lemma ids_bound_ok t ids :
  ids_bound t ids -> Forall (fun v => v < length (m_weights t)) ids -> ids_ok t ids.
Proof.
  intros Hb Hl. unfold ids_ok, ids_bound in *.
  rewrite Forall_forall in Hb, Hl |- *. intros v Hv.
  destruct (Hb v Hv) as (bv & -> & _). split; [|eauto].
  by apply lookup_lt_is_Some_2, Hl.
Qed.

Lemma clause_weight_relax t ids :
  ids_bound t ids ->
  (clause_weight t (map (relax_lit t) ids) == sum_weights t ids)%Q.
Proof.
  induction 1 as [|v ids (bv & Hv & Hbv) _ IH]; [simpl; lra|].
  change (weight_of t (default 0%nat (m_bool2var t !! lit_var (relax_lit t v)))
          + clause_weight t (map (relax_lit t) ids)
          == weight_of t v + sum_weights t ids)%Q.
  rewrite (relax_lit_lookup _ _ _ Hv). simpl lit_var. rewrite Hbv. simpl default. lra.
Qed.

(** [compare_cost] is a strict weak ordering. *)
Lemma compare_cost_irrefl t x : compare_cost t x x = false.
Proof. apply Qlt_bool_false. lra. Qed.

Lemma compare_cost_trans t x y z :
  compare_cost t x y = true -> compare_cost t y z = true -> compare_cost t x z = true.
Proof. unfold compare_cost. rewrite !Qlt_bool_iff. lra. Qed.

Lemma compare_cost_negtrans t x y z :
  compare_cost t x y = false -> compare_cost t y z = false -> compare_cost t x z = false.
Proof. unfold compare_cost. rewrite !Qlt_bool_false. lra. Qed.

Lemma StronglySorted_mono {A : Type} (R1 R2 : A -> A -> Prop) (l : list A) :
  (forall x y, R1 x y -> R2 x y) -> StronglySorted R1 l -> StronglySorted R2 l.
Proof.
  intros HR. induction 1 as [|x l _ IH Hx]; constructor; [done|].
  eapply Forall_impl; [exact Hx|]. intros y. apply HR.
Qed.

Section Block.
Context `{!StdSort}.

Lemma sorted_costs_perm t : Permutation (sorted_costs t) (m_costs t).
Proof. apply std_sort_perm. Qed.

Lemma sorted_costs_sorted t :
  StronglySorted (fun v w => (weight_of t w <= weight_of t v)%Q) (sorted_costs t).
Proof.
  eapply StronglySorted_mono;
    [|apply std_sort_sorted;
      [apply compare_cost_irrefl|apply compare_cost_trans|apply compare_cost_negtrans]].
  intros v w Hvw. simpl in Hvw. by apply Qlt_bool_false in Hvw.
Qed.

Lemma block_inv s b s' :
  block s = Some (b, s') ->
  let t := st_th s in
  st_ctx s' = mk_th_axiom (map (relax_lit t) (block_prefix t)) (st_ctx s) /\
  b = negb (bool_decide (block_prefix t = [])) /\
  st_th s' =
    (if Qlt_bool (m_cost t) (m_min_cost t)
     then set_m_cost_save (m_costs t) (set_m_min_cost (accumulate t 0%Q (block_prefix t)) t)
     else t) /\
  ids_ok t (block_prefix t).
Proof.
  unfold block. intros Hb.
  destruct (block_loop _ _ _ _) as [[w lits]|] eqn:Hloop; simpl in Hb; [|done].
  apply block_loop_inv in Hloop as (-> & -> & Hok). simpl in *.
  injection Hb as <- <-. simpl. repeat split; try done.
  f_equal. apply bool_decide_ext. unfold block_prefix, sorted_costs.
  split; [intros ?%map_eq_nil; done|intros ->; done].
Qed.

Lemma block_total s :
  ids_ok (st_th s) (block_prefix (st_th s)) -> is_Some (block s).
Proof.
  intros Hok. unfold block. cbv zeta. fold (sorted_costs (st_th s)).
  destruct (block_loop_total _ _ 0%Q [] Hok) as [[w lits] ->]. simpl. eauto.
Qed.

Lemma block_prefix_nil_iff t :
  block_prefix t = [] <-> m_costs t = [] \/ (m_min_cost t <= 0)%Q.
Proof.
  unfold block_prefix. rewrite greedy_prefix_nil. split; intros [Hc|Hm]; auto; left.
  - apply Permutation_nil. rewrite <- Hc. apply sorted_costs_perm.
  - apply Permutation_nil. rewrite <- Hc. symmetry. apply sorted_costs_perm.
Qed.

Lemma block_total_ids s :
  ids_ok (st_th s) (m_costs (st_th s)) -> is_Some (block s).
Proof.
  intros Hok. apply block_total.
  eapply ids_ok_prefix; [apply greedy_prefix_is_prefix|].
  eapply ids_ok_perm; [symmetry; apply sorted_costs_perm|done].
Qed.

End Block.

(** ** The ledger under assignment and backtracking *)

Lemma trail_pair_ind (P : list trail -> Prop) :
  P [] -> (forall e, P [e]) ->
  (forall e1 e2 rest, P rest -> P (e1 :: e2 :: rest)) ->
  forall tr, P tr.
Proof.
  intros H0 H1 H2 tr.
  enough (P tr /\ forall e, P (e :: tr)) as [? _] by done.
  induction tr as [|e tr [IH1 IH2]]; split; auto.
Qed.

Lemma sum_weights_ext t t' ids :
  m_weights t = m_weights t' -> sum_weights t ids = sum_weights t' ids.
Proof.
  intros Hw. induction ids as [|v ids IH]; simpl; [done|].
  unfold weight_of. by rewrite Hw, IH.
Qed.

Lemma ledger_consistent_ext t t' cost costs tr :
  m_weights t = m_weights t' ->
  ledger_consistent t cost costs tr -> ledger_consistent t' cost costs tr.
Proof.
  intros Hw. revert cost costs.
  induction tr as [|e|e1 e2 rest IH] using trail_pair_ind; intros cost costs; simpl;
    rewrite (sum_weights_ext t t' costs Hw); [done|done|].
  destruct e1; [done|]. destruct e2; [|done].
  intros (? & ? & ?). auto.
Qed.

Lemma ledger_consistent_sum t cost costs tr :
  ledger_consistent t cost costs tr -> (cost == sum_weights t costs)%Q.
Proof. destruct tr; simpl; tauto. Qed.

Lemma same_static_weights t t' : same_static t t' -> m_weights t' = m_weights t.
Proof. by intros ->. Qed.

Lemma undo_trail_stack_ge tr lim t :
  length tr <= lim -> undo_trail_stack tr lim t = (tr, t).
Proof.
  destruct tr as [|e tr]; simpl; [done|]. intros Hle.
  destruct (lim <? S (length tr)) eqn:E; [|done].
  apply Nat.ltb_lt in E. lia.
Qed.

Lemma undo_trail_stack_pair tr lim t old :
  lim <= length tr ->
  undo_trail_stack (push_back_vector :: value_trail old :: tr) lim t =
  undo_trail_stack tr lim (set_m_cost old (set_m_costs (removelast (m_costs t)) t)).
Proof.
  intros Hle. cbn [undo_trail_stack length].
  assert ((lim <? S (S (length tr))) = true) as -> by (apply Nat.ltb_lt; lia).
  assert ((lim <? S (length tr)) = true) as -> by (apply Nat.ltb_lt; lia).
  done.
Qed.

Lemma removelast_prefix {A : Type} (l : list A) : removelast l `prefix_of` l.
Proof.
  destruct l as [|x l]; [done|].
  pose proof (@app_removelast_last _ (x :: l) x ltac:(done)) as E.
  exists [List.last (x :: l) x]. exact E.
Qed.

(** Undoing [k] entry pairs restores a consistent ledger. *)
Lemma undo_trail_stack_consistent k : forall tr lim t,
  length tr = lim + 2 * k ->
  ledger_consistent t (m_cost t) (m_costs t) tr ->
  exists tr' t',
    undo_trail_stack tr lim t = (tr', t') /\
    length tr' = lim /\
    ledger_consistent t' (m_cost t') (m_costs t') tr' /\
    m_costs t' `prefix_of` m_costs t /\
    same_static t t'.
Proof.
  induction k as [|k IH]; intros tr lim t Hlen Hcons.
  - exists tr, t. rewrite undo_trail_stack_ge by lia.
    repeat split; [lia|done|done|by destruct t].
  - destruct tr as [|e1 [|e2 rest]]; simpl in Hlen; try lia.
    simpl in Hcons. destruct Hcons as [Hsum Hrest].
    destruct e1; [done|]. destruct e2 as [old|]; [|done].
    destruct Hrest as [Hne Hrest].
    set (t1 := set_m_cost old (set_m_costs (removelast (m_costs t)) t)).
    destruct (IH rest lim t1) as (tr' & t' & Hundo & Hl & Hc & Hp & Hs).
    { lia. }
    { eapply ledger_consistent_ext; [|exact Hrest]. done. }
    exists tr', t'. rewrite undo_trail_stack_pair by lia.
    repeat split; try done.
    etrans; [exact Hp|]. apply removelast_prefix.
Qed.

Lemma scopes_ok_grow size scopes :
  scopes_ok size scopes -> scopes_ok (S (S size)) scopes.
Proof.
  destruct scopes as [|lim rest]; simpl; [done|].
  intros (Hle & [k Hk] & Hrest). repeat split; [lia| |done].
  exists (S k). lia.
Qed.

Lemma scopes_ok_lookup k : forall size scopes lim,
  scopes_ok size scopes -> scopes !! k = Some lim ->
  (exists j, size = lim + 2 * j) /\ scopes_ok lim (drop (S k) scopes).
Proof.
  induction k as [|k IH]; intros size scopes lim Hok Hk;
    destruct scopes as [|l rest]; simpl in *; try done.
  - injection Hk as ->. destruct Hok as (Hle & [j Hj] & Hrest).
    split; [|done]. exists j. lia.
  - destruct Hok as (Hle & [j Hj] & Hrest).
    destruct (IH l rest lim Hrest Hk) as [[j' Hj'] Hdrop].
    split; [|done]. exists (j + j'). lia.
Qed.

(** A goal about one binding follows from [bindings_inv]. *)
Ltac use_binding HB :=
  match goal with
  | H : _ !! _ = Some _ |- _ => pose proof (HB _ _ H) as [? ?]
  end.

Lemma search_inv_view s s' :
  ledger_view s = ledger_view s' -> search_inv s -> search_inv s'.
Proof.
  unfold ledger_view. intros [= Hw Hb2v Hv2b Hcs Hc Htr Hsc] (HB & [HI HL] & [Hled Hscopes]).
  unfold search_inv, bindings_inv, costs_inv, ids_bound, ledger_inv.
  rewrite <- Hw, <- Hb2v, <- Hv2b, <- Hcs, <- Hc, <- Htr, <- Hsc.
  repeat split; try done; try (by use_binding HB).
  eapply ledger_consistent_ext; [exact Hw|done].
Qed.

Lemma assign_update_view v s s1 :
  assign_update v s = Some s1 ->
  exists tv w,
    m_bool2var (st_th s) !! v = Some tv /\ m_weights (st_th s) !! tv = Some w /\
    st_ctx s1 = push_trail push_back_vector
                  (push_trail (value_trail (m_cost (st_th s))) (st_ctx s)) /\
    st_th s1 = set_m_costs (m_costs (st_th s) ++ [tv])
                 (set_m_cost (m_cost (st_th s) + w)%Q (st_th s)).
Proof.
  unfold assign_update. intros H.
  destruct (m_bool2var (st_th s) !! v) as [tv|] eqn:Etv; simpl in H; [|done].
  destruct (m_weights (st_th s) !! tv) as [w|] eqn:Ew; simpl in H; [|done].
  injection H as <-. exists tv, w. done.
Qed.

Lemma assign_update_inv v s s1 :
  search_inv s -> assign_update v s = Some s1 -> search_inv s1.
Proof.
  intros (HB & [HI HL] & [Hled Hscopes]) Hup.
  apply assign_update_view in Hup as (tv & w & Etv & Ew & Hc & Ht).
  destruct (HB v tv Etv) as [Hlt Hv2b].
  unfold search_inv, bindings_inv, costs_inv, ids_bound, ledger_inv.
  rewrite Hc, Ht. simpl. repeat split.
  - by pose proof (HB _ _ H) as [? ?].
  - by pose proof (HB _ _ H) as [? ?].
  - apply Forall_app. split; [done|]. constructor; [|done]. eauto.
  - apply Forall_app. split; [done|]. by repeat constructor.
  - pose proof (ledger_consistent_sum _ _ _ _ Hled) as Hsum.
    change (sum_weights _ ?l) with (sum_weights (st_th s) l).
    rewrite sum_weights_app. simpl. rewrite (weight_of_lookup _ _ _ Ew). lra.
  - by destruct (m_costs (st_th s)).
  - rewrite removelast_last.
    eapply ledger_consistent_ext; [|exact Hled]. done.
  - by apply scopes_ok_grow.
Qed.

Section Steps.
Context `{!StdSort}.

Lemma block_view s b s' : block s = Some (b, s') -> ledger_view s = ledger_view s'.
Proof.
  intros Hb. apply block_inv in Hb as (Hc & _ & Ht & _).
  unfold ledger_view. rewrite Hc, Ht.
  by destruct (Qlt_bool _ _).
Qed.

Lemma block_registry s b s' : block s = Some (b, s') -> registry (st_th s') = registry (st_th s).
Proof.
  intros Hb. apply block_inv in Hb as (_ & _ & -> & _).
  by destruct (Qlt_bool _ _).
Qed.

Lemma assign_eh_unfold v s :
  assign_eh v true s =
  s1 ← assign_update v s;
  if Qlt_bool (m_min_cost (st_th s1)) (m_cost (st_th s1))
  then '(_, s') ← block s1; Some s'
  else Some s1.
Proof.
  unfold assign_eh, assign_update.
  destruct (m_bool2var (st_th s) !! v) as [tv|]; simpl; [|done].
  by destruct (m_weights (st_th s) !! tv) as [w|].
Qed.

Lemma pop_scope_inv n s s' :
  search_inv s -> pop_scope n s = Some s' ->
  search_inv s' /\ same_static (st_th s) (st_th s') /\
  m_th_axioms (st_ctx s') = m_th_axioms (st_ctx s).
Proof.
  intros Hinv. destruct n as [|k]; simpl.
  { intros [= <-]. split; [done|split; [|done]].
    unfold same_static. by destruct (st_th s). }
  destruct (m_scopes (st_ctx s) !! k) as [lim|] eqn:Elim; simpl; [|done].
  destruct Hinv as (HB & [HI HL] & [Hled Hscopes]).
  destruct (scopes_ok_lookup _ _ _ _ Hscopes Elim) as [[j Hj] Hdrop].
  destruct (undo_trail_stack_consistent j _ lim (st_th s) Hj Hled)
    as (tr' & t' & -> & Hlen & Hcons & [rest Hpre] & Hst).
  intros [= <-]. simpl. split; [|done].
  pose proof (same_static_weights _ _ Hst) as Hw.
  assert (m_bool2var t' = m_bool2var (st_th s)) as Hb2v by (by rewrite Hst).
  assert (m_var2bool t' = m_var2bool (st_th s)) as Hv2b by (by rewrite Hst).
  unfold search_inv, bindings_inv, costs_inv, ids_bound, ledger_inv. simpl.
  rewrite Hw, Hb2v, Hv2b. rewrite Hpre in HI, HL.
  apply Forall_app in HI as [HI _]. apply Forall_app in HL as [HL _].
  repeat split; try done; try (by use_binding HB).
  by rewrite Hlen.
Qed.

Lemma step_inv s e s' : search_inv s -> step s e = Some s' -> search_inv s'.
Proof.
  intros Hinv. destruct e as [v [|]| |n|]; cbn [step].
  - rewrite assign_eh_unfold.
    destruct (assign_update v s) as [s1|] eqn:Hup; simpl; [|done].
    pose proof (assign_update_inv _ _ _ Hinv Hup) as Hinv1.
    destruct (Qlt_bool _ _); [|by intros [= <-]].
    destruct (block s1) as [[b s2]|] eqn:Hb; simpl; [|done].
    intros [= <-]. eapply search_inv_view; [eapply block_view, Hb|done].
  - by intros [= <-].
  - intros [= <-]. destruct Hinv as (HB & HC & [Hled Hscopes]).
    split; [exact HB|]. split; [exact HC|]. split; [exact Hled|].
    simpl. split; [lia|]. split; [exists 0; lia|done].
  - intros Hpop. by apply (pop_scope_inv n s s').
  - unfold final_check_eh.
    destruct (block s) as [[b s2]|] eqn:Hb; simpl; [|done].
    intros [= <-]. eapply search_inv_view; [eapply block_view, Hb|done].
Qed.

Lemma run_inv evs : forall s s',
  search_inv s -> run evs s = Some s' -> search_inv s'.
Proof.
  induction evs as [|e evs IH]; intros s s' Hinv; simpl; [by intros [= <-]|].
  destruct (step s e) as [s1|] eqn:Hstep; simpl; [|done].
  apply IH. by eapply step_inv.
Qed.

End Steps.

(** ** Registration *)

Lemma register_all_spec soft : forall s,
  let s' := register_all soft s in
  m_vars (st_th s') = m_vars (st_th s) ++ seq (m_fresh (st_ctx s)) (length soft) /\
  m_weights (st_th s') = m_weights (st_th s) ++ map snd soft /\
  m_fmls (st_th s') = m_fmls (st_th s) ++ map fst soft /\
  (m_costs (st_th s'), m_cost (st_th s'), m_cost_save (st_th s'),
   m_bool2var (st_th s'), m_var2bool (st_th s'), m_var2enode (st_th s')) =
  (m_costs (st_th s), m_cost (st_th s), m_cost_save (st_th s),
   m_bool2var (st_th s), m_var2bool (st_th s), m_var2enode (st_th s)) /\
  (m_trail_stack (st_ctx s'), m_scopes (st_ctx s'), m_th_axioms (st_ctx s'),
   host_tables (st_ctx s')) =
  (m_trail_stack (st_ctx s), m_scopes (st_ctx s), m_th_axioms (st_ctx s),
   host_tables (st_ctx s)) /\
  (Forall (fun fw => (0 <= fw.2)%Q) soft ->
   (m_min_cost (st_th s) <= m_min_cost (st_th s'))%Q).
Proof.
  induction soft as [|[f w] soft IH]; intros s; simpl.
  - rewrite !app_nil_r. repeat split. intros _. lra.
  - destruct (IH (assert_weighted f w s)) as (Hv & Hw & Hf & Hth & Hc & Hm).
    unfold register_all in *. simpl in *.
    rewrite Hv, Hw, Hf, Hth, Hc, <- !app_assoc. repeat split.
    intros Hnn. apply Forall_cons in Hnn as [Hw0 Hnn]. simpl in Hw0.
    specialize (Hm Hnn). lra.
Qed.

(** ** Binding at the start of a search *)

Lemma init_search_step_spec s var :
  let s' := init_search_step s var in
  let c := st_ctx s in
  let t := st_th s in
  let v := length (m_var2enode t) in
  let bv := default (m_num_bool_vars c) (m_expr2bool_var c !! var) in
  m_expr2bool_var (st_ctx s') = <[var := bv]> (m_expr2bool_var c) /\
  m_num_bool_vars (st_ctx s') =
    match m_expr2bool_var c !! var with
    | Some _ => m_num_bool_vars c
    | None => S (m_num_bool_vars c)
    end /\
  m_e_internalized (st_ctx s') = {[var]} ∪ m_e_internalized c /\
  m_bool2var (st_th s') = <[bv := v]> (m_bool2var t) /\
  m_var2bool (st_th s') = <[v := bv]> (m_var2bool t) /\
  m_var2enode (st_th s') = m_var2enode t ++ [var] /\
  (m_vars (st_th s'), m_fmls (st_th s'), m_weights (st_th s'), m_costs (st_th s'),
   m_cost_save (st_th s'), m_cost (st_th s'), m_min_cost (st_th s')) =
  (m_vars t, m_fmls t, m_weights t, m_costs t, m_cost_save t, m_cost t, m_min_cost t) /\
  (m_trail_stack (st_ctx s'), m_scopes (st_ctx s'), m_th_axioms (st_ctx s')) =
  (m_trail_stack c, m_scopes c, m_th_axioms c).
Proof.
  unfold init_search_step, e_internalized, b_internalized, get_bool_var, get_enode.
  destruct (bool_decide (var ∈ m_e_internalized (st_ctx s))) eqn:Ee; simpl.
  - apply bool_decide_eq_true in Ee.
    destruct (m_expr2bool_var (st_ctx s) !! var) as [bv|] eqn:Eb; simpl.
    + rewrite insert_id by done. repeat split.
      symmetry. apply subseteq_union_1_L. by apply singleton_subseteq_l.
    + repeat split.
      symmetry. apply subseteq_union_1_L. by apply singleton_subseteq_l.
  - destruct (m_expr2bool_var (st_ctx s) !! var) as [bv|] eqn:Eb; simpl.
    + rewrite insert_id by done. repeat split.
    + repeat split.
Qed.

Lemma init_search_step_wf s var :
  bool_vars_wf (st_ctx s) -> bool_vars_wf (st_ctx (init_search_step s var)).
Proof.
  intros [Hlt Hinj].
  destruct (init_search_step_spec s var) as (He & Hn & _). cbv zeta in He, Hn.
  unfold bool_vars_wf. rewrite He, Hn.
  destruct (m_expr2bool_var (st_ctx s) !! var) as [bv0|] eqn:E; simpl.
  - rewrite insert_id by done. done.
  - split.
    + intros a bv. rewrite lookup_insert. case_decide.
      * intros [= <-]. lia.
      * intros Ha. apply Hlt in Ha. lia.
    + intros a a' bv. rewrite !lookup_insert.
      repeat case_decide; subst; try done.
      * intros [= <-] Ha. apply Hlt in Ha. lia.
      * intros Ha [= <-]. apply Hlt in Ha. lia.
      * apply Hinj.
Qed.

Lemma init_search_fold vars : forall s,
  bool_vars_wf (st_ctx s) -> NoDup vars ->
  binding_result s vars (foldl init_search_step s vars).
Proof.
  induction vars as [|a vars IH]; intros s Hwf Hnd.
  - unfold binding_result. simpl.
    split; [done|]. split; [lia|]. split; [done|]. split; [done|].
    split; [intros i a Hi; by destruct i|]. split; [by left|].
    repeat (split; [done|]). done.
  - apply NoDup_cons in Hnd as [Hna Hnd].
    set (s1 := init_search_step s a).
    pose proof (init_search_step_wf s a Hwf) as Hwf1.
    destruct (init_search_step_spec s a) as (He & Hn & Hei & Hb2v & Hv2b & Hv2e & Hth & Hc).
    cbv zeta in He, Hn, Hei, Hb2v, Hv2b, Hv2e, Hth, Hc.
    fold s1 in He, Hn, Hei, Hb2v, Hv2b, Hv2e, Hth, Hc, Hwf1.
    destruct (IH s1 Hwf1 Hnd)
      as (W' & L' & Ext' & Sub' & Per' & Dom' & Pres' & V2b' & Host' & Fth' & Fc').
    change (foldl init_search_step s (a :: vars)) with (foldl init_search_step s1 vars).
    set (s' := foldl init_search_step s1 vars) in *.
    set (base := length (m_var2enode (st_th s))) in *.
    set (bva := default (m_num_bool_vars (st_ctx s)) (m_expr2bool_var (st_ctx s) !! a)) in *.
    assert (length (m_var2enode (st_th s1)) = S base) as Hbase1.
    { rewrite Hv2e, length_app. simpl. lia. }
    rewrite Hbase1 in *.
    assert (m_expr2bool_var (st_ctx s') !! a = Some bva) as Ha'.
    { apply Ext'. rewrite He. apply lookup_insert_eq. }
    assert (forall a' bv, m_expr2bool_var (st_ctx s) !! a' = Some bv ->
                          m_expr2bool_var (st_ctx s1) !! a' = Some bv) as Ext1.
    { intros a' bv Ha. rewrite He, lookup_insert. case_decide; [|done].
      subst a'. unfold bva. by rewrite Ha. }
    assert (forall a', a' ∈ vars -> m_expr2bool_var (st_ctx s') !! a' <> Some bva) as Hfresh.
    { intros a' Hin Heq. destruct W' as [_ Hinj].
      pose proof (Hinj a' a bva Heq Ha'). subst. done. }
    unfold binding_result. fold base. repeat split.
    + apply W'.
    + apply W'.
    + rewrite L'. simpl. lia.
    + intros a' bv Ha. by apply Ext', Ext1.
    + etrans; [|exact Sub']. rewrite Hei. apply union_subseteq_r.
    + destruct i as [|i]; simpl in H.
      * injection H as <-. apply Sub'. rewrite Hei. apply elem_of_union_l.
        by apply elem_of_singleton.
      * by apply (Per' i a0).
    + destruct i as [|i]; simpl in H.
      * injection H as <-. exists bva. split; [done|]. rewrite Nat.add_0_r. split.
        -- apply Pres'; [|done]. rewrite Hb2v. apply lookup_insert_eq.
        -- rewrite V2b' by lia. rewrite Hv2b. apply lookup_insert_eq.
      * destruct (Per' i a0 H) as (_ & bv & H1 & H2 & H3).
        exists bv. rewrite Nat.add_succ_r. done.
    + intros bv tv Hbv. destruct (Dom' bv tv Hbv) as [Hold|(i & a' & Hi & -> & Ha)].
      * rewrite Hb2v, lookup_insert in Hold. case_decide.
        -- injection Hold as <-. subst bv. right. exists 0, a.
           rewrite Nat.add_0_r. done.
        -- by left.
      * right. exists (S i), a'. rewrite Nat.add_succ_r. done.
    + intros bv tv Hbv Hno. apply Pres'.
      * rewrite Hb2v, lookup_insert_ne; [done|].
        intros <-. apply (Hno a); [apply elem_of_cons; by left|done].
      * intros a' Hin. apply Hno. apply elem_of_cons. by right.
    + intros tv Htv. rewrite V2b' by lia. rewrite Hv2b.
      apply lookup_insert_ne. lia.
    + intros Hall.
      assert (host_tables (st_ctx s1) = host_tables (st_ctx s)) as Hh1.
      { destruct (Hall a) as [Hin [bv Hbv]]; [apply elem_of_cons; by left|].
        unfold host_tables. rewrite He, Hn, Hei. unfold bva. rewrite Hbv. simpl.
        rewrite insert_id by done. f_equal. f_equal.
        apply subseteq_union_1_L. by apply singleton_subseteq_l. }
      rewrite <- Hh1. apply Host'. intros a' Hin.
      destruct (Hall a') as [H1 H2]; [apply elem_of_cons; by right|].
      injection Hh1 as -> -> _. done.
    + rewrite Fth'. exact Hth.
    + rewrite Fc'. exact Hc.
Qed.

Lemma start_search_spec c soft :
  ctx_wf c ->
  let s := start_search c soft in
  search_inv s /\
  m_weights (st_th s) = map snd soft /\
  m_fmls (st_th s) = map fst soft /\
  m_vars (st_th s) = seq (m_fresh c) (length soft) /\
  m_costs (st_th s) = [] /\ m_cost_save (st_th s) = [] /\
  m_th_axioms (st_ctx s) = m_th_axioms c /\
  (forall i, i < length soft -> exists bv,
     m_bool2var (st_th s) !! bv = Some i /\ m_var2bool (st_th s) !! i = Some bv) /\
  (Forall (fun fw => (0 <= fw.2)%Q) soft -> bound_inv (st_th s)).
Proof.
  intros (Htr & Hsc & Hwf). unfold start_search, init_search_eh.
  set (s0 := mk_state c alloc_theory).
  destruct (register_all_spec soft s0) as (Hv & Hw & Hf & Hth & Hc & Hm).
  cbv zeta in Hv, Hw, Hf, Hth, Hc, Hm. simpl in Hv, Hw, Hf, Hth, Hc, Hm.
  set (sr := register_all soft s0) in *.
  injection Hth as Hcs Hcost Hsave Hb2v Hv2b Hv2e.
  injection Hc as Htr' Hsc' Hax' Hei' He2b' Hnum'.
  assert (bool_vars_wf (st_ctx sr)) as Hwfr.
  { unfold bool_vars_wf. by rewrite He2b', Hnum'. }
  assert (NoDup (m_vars (st_th sr))) as Hnd by (rewrite Hv; apply NoDup_seq).
  destruct (init_search_fold _ sr Hwfr Hnd)
    as (W' & L' & Ext' & Sub' & Per' & Dom' & Pres' & V2b' & Host' & Fth' & Fc').
  cbv zeta in *. rewrite Hv2e in L', Per', Dom', V2b'. simpl in L', Per', Dom', V2b'.
  set (s := foldl init_search_step sr (m_vars (st_th sr))) in *.
  injection Fth' as Fv Ff Fw Fcs Fsave Fcost Fmin.
  injection Fc' as Ftr Fsc Fax.
  assert (forall i, i < length soft -> exists a, m_vars (st_th sr) !! i = Some a) as Hvars.
  { intros i Hi. apply lookup_lt_is_Some_2. rewrite Hv, length_seq. done. }
  assert (bindings_inv (st_th s)) as HB.
  { intros bv tv Hbv. destruct (Dom' bv tv Hbv) as [Hold|(i & a & Hi & -> & Ha)].
    - by rewrite Hb2v in Hold.
    - destruct (Per' i a Hi) as (_ & bv' & Ha' & _ & Hv2b').
      rewrite Ha in Ha'. injection Ha' as <-.
      split; [|done]. apply lookup_lt_Some in Hi.
      rewrite Fw, Hw, length_map. by rewrite Hv, length_seq in Hi. }
  assert (search_inv s) as Hinv.
  { split; [exact HB|]. split; [split; rewrite Fcs, Hcs; constructor|].
    split.
    - rewrite Fcost, Fcs, Ftr, Htr', Htr, Hcost, Hcs. simpl. split; [lra|done].
    - by rewrite Ftr, Fsc, Htr', Hsc', Htr, Hsc. }
  split; [exact Hinv|]. split; [by rewrite Fw|]. split; [by rewrite Ff|].
  split; [by rewrite Fv|]. split; [by rewrite Fcs|]. split; [by rewrite Fsave|].
  split; [by rewrite Fax|]. split.
  - intros i Hi. destruct (Hvars i Hi) as [a Ha].
    destruct (Per' i a Ha) as (_ & bv & _ & H1 & H2). eauto.
  - intros Hnn. split.
    + rewrite Fw, Hw. apply Forall_map.
      eapply Forall_impl; [exact Hnn|]. by intros [f w].
    + right. rewrite Fsave, Hsave, Fmin. split; [done|].
      specialize (Hm Hnn). lra.
Qed.

Lemma bound_inv_view t t' : bound_view t = bound_view t' -> bound_inv t -> bound_inv t'.
Proof.
  intros [= Hw Hs Hm] [Hnn HJ]. unfold bound_inv.
  rewrite <- Hw, <- Hs, <- Hm, <- (sum_weights_ext t t' _ Hw). done.
Qed.

Section Bound.
Context `{!StdSort}.

(** With a consistent ledger and weights that are not negative, a cost
    below the bound makes the loop of [block] take every asserted id. *)
Lemma block_prefix_all s :
  search_inv s -> bound_inv (st_th s) ->
  (m_cost (st_th s) < m_min_cost (st_th s))%Q ->
  block_prefix (st_th s) = sorted_costs (st_th s) /\
  (accumulate (st_th s) 0%Q (block_prefix (st_th s)) == m_cost (st_th s))%Q.
Proof.
  intros (_ & _ & [Hled _]) [Hnn _] Hlt.
  apply ledger_consistent_sum in Hled.
  pose proof (sum_weights_perm (st_th s) _ _ (sorted_costs_perm (st_th s))) as Hperm.
  assert (block_prefix (st_th s) = sorted_costs (st_th s)) as Hall.
  { apply greedy_prefix_all; [done|]. lra. }
  split; [done|]. rewrite Hall.
  pose proof (accumulate_sum (st_th s) 0%Q (sorted_costs (st_th s))). lra.
Qed.

Lemma block_bound s b s' :
  search_inv s -> bound_inv (st_th s) -> block s = Some (b, s') ->
  bound_inv (st_th s') /\ (m_min_cost (st_th s') <= m_min_cost (st_th s))%Q.
Proof.
  intros Hinv Hbnd Hb. pose proof Hb as Hb0.
  apply block_inv in Hb as (_ & _ & Ht & _). cbv zeta in Ht. rewrite Ht.
  destruct (Qlt_bool _ _) eqn:E; [|split; [done|lra]].
  apply Qlt_bool_iff in E.
  destruct (block_prefix_all s Hinv Hbnd E) as [Hall Hacc].
  destruct Hbnd as [Hnn _]. simpl. split; [|lra].
  split; [done|]. left. simpl.
  destruct Hinv as (_ & _ & [Hled _]). apply ledger_consistent_sum in Hled.
  change (sum_weights _ ?l) with (sum_weights (st_th s) l). lra.
Qed.

(** When [block] returns [false], the saved set weighs what the bound says. *)
Lemma block_done_bound s s' :
  search_inv s -> bound_inv (st_th s) -> block s = Some (false, s') ->
  (sum_weights (st_th s') (m_cost_save (st_th s')) == m_min_cost (st_th s'))%Q.
Proof.
  intros Hinv Hbnd Hb.
  pose proof (block_inv _ _ _ Hb) as (_ & Hfalse & Ht & _). cbv zeta in Hfalse, Ht.
  symmetry in Hfalse. apply negb_false_iff, bool_decide_eq_true in Hfalse.
  pose proof Hinv as (_ & _ & [Hled _]). apply ledger_consistent_sum in Hled.
  rewrite Ht. destruct (Qlt_bool _ _) eqn:E.
  - apply Qlt_bool_iff in E.
    destruct (block_prefix_all s Hinv Hbnd E) as [_ Hacc]. simpl.
    change (sum_weights _ ?l) with (sum_weights (st_th s) l). lra.
  - apply Qlt_bool_false in E. destruct Hbnd as [_ [HJ|[Hsave Hmin]]]; [done|].
    rewrite Hsave. simpl.
    apply block_prefix_nil_iff in Hfalse as [Hnil|Hle]; [|lra].
    rewrite Hnil in Hled. simpl in Hled. lra.
Qed.

Lemma step_bound s e s' :
  search_inv s -> bound_inv (st_th s) -> step s e = Some s' ->
  bound_inv (st_th s') /\ (m_min_cost (st_th s') <= m_min_cost (st_th s))%Q.
Proof.
  intros Hinv Hbnd. destruct e as [v [|]| |n|]; cbn [step].
  - rewrite assign_eh_unfold.
    destruct (assign_update v s) as [s1|] eqn:Hup; simpl; [|done].
    pose proof (assign_update_inv _ _ _ Hinv Hup) as Hinv1.
    apply assign_update_view in Hup as (tv & w & _ & _ & _ & Ht1).
    assert (bound_inv (st_th s1)) as Hbnd1.
    { eapply bound_inv_view; [|exact Hbnd]. by rewrite Ht1. }
    assert (m_min_cost (st_th s1) = m_min_cost (st_th s)) as Hmin1 by (by rewrite Ht1).
    destruct (Qlt_bool _ _).
    + destruct (block s1) as [[b s2]|] eqn:Hb; simpl; [|done].
      intros [= <-]. rewrite <- Hmin1. by eapply block_bound.
    + intros [= <-]. split; [done|]. rewrite Hmin1. lra.
  - intros [= <-]. split; [done|lra].
  - intros [= <-]. split; [done|]. simpl. lra.
  - intros Hpop. destruct (pop_scope_inv n s s' Hinv Hpop) as (_ & Hst & _).
    assert (bound_view (st_th s) = bound_view (st_th s')) as Hv by (by rewrite Hst).
    split; [by eapply bound_inv_view|].
    injection Hv as _ _ <-. lra.
  - unfold final_check_eh.
    destruct (block s) as [[b s2]|] eqn:Hb; simpl; [|done].
    intros [= <-]. by eapply block_bound.
Qed.

Lemma run_bound evs : forall s s',
  search_inv s -> bound_inv (st_th s) -> run evs s = Some s' ->
  bound_inv (st_th s') /\ (m_min_cost (st_th s') <= m_min_cost (st_th s))%Q.
Proof.
  induction evs as [|e evs IH]; intros s s' Hinv Hbnd; simpl.
  - intros [= <-]. split; [done|lra].
  - destruct (step s e) as [s1|] eqn:Hstep; simpl; [|done]. intros Hrun.
    destruct (step_bound _ _ _ Hinv Hbnd Hstep) as [Hbnd1 Hle1].
    destruct (IH s1 s' (step_inv _ _ _ Hinv Hstep) Hbnd1 Hrun) as [Hbnd' Hle'].
    split; [done|lra].
Qed.

Lemma session_inv c soft evs s :
  ctx_wf c -> run evs (start_search c soft) = Some s -> search_inv s.
Proof.
  intros Hwf. apply run_inv. by apply start_search_spec.
Qed.

Lemma session_bound c soft evs s :
  ctx_wf c -> Forall (fun fw => (0 <= fw.2)%Q) soft ->
  run evs (start_search c soft) = Some s -> bound_inv (st_th s).
Proof.
  intros Hwf Hnn Hrun.
  destruct (start_search_spec c soft Hwf) as (Hinv & _ & _ & _ & _ & _ & _ & _ & Hb).
  by destruct (run_bound evs _ _ Hinv (Hb Hnn) Hrun).
Qed.

Lemma calls_block_inv c soft s :
  ctx_wf c -> calls_block c soft s -> search_inv s.
Proof.
  intros Hwf [evs s' Hrun|evs s0 v s' Hrun Hup _].
  - by eapply session_inv.
  - eapply assign_update_inv; [|exact Hup]. by eapply session_inv.
Qed.

(** Inside a search no lookup of [block] or [assign_eh] fails. *)
Lemma block_total_search s : search_inv s -> is_Some (block s).
Proof.
  intros (_ & [HI HL] & _). by apply block_total_ids, ids_bound_ok.
Qed.

Lemma assign_eh_total_search v s :
  search_inv s -> is_Some (m_bool2var (st_th s) !! v) -> is_Some (assign_eh v true s).
Proof.
  intros Hinv [tv Etv]. pose proof Hinv as (HB & _).
  destruct (HB v tv Etv) as [Hlt _].
  destruct (lookup_lt_is_Some_2 _ _ Hlt) as [w Ew].
  rewrite assign_eh_unfold.
  destruct (assign_update v s) as [s1|] eqn:Hup.
  - simpl. destruct (Qlt_bool _ _); [|eauto].
    destruct (block_total_search s1 (assign_update_inv _ _ _ Hinv Hup)) as [[b s2] ->].
    simpl. eauto.
  - unfold assign_update in Hup. rewrite Etv in Hup. simpl in Hup.
    rewrite Ew in Hup. done.
Qed.

Lemma calls_block_bound c soft s :
  ctx_wf c -> Forall (fun fw => (0 <= fw.2)%Q) soft ->
  calls_block c soft s -> bound_inv (st_th s).
Proof.
  intros Hwf Hnn [evs s' Hrun|evs s0 v s' Hrun Hup _].
  - by eapply session_bound.
  - apply assign_update_view in Hup as (tv & w & _ & _ & _ & Ht1).
    eapply bound_inv_view; [|by eapply session_bound]. by rewrite Ht1.
Qed.

End Bound.

(** ** The walk of [get_assignment] *)

Lemma StronglySorted_le_lt (l : list nat) :
  StronglySorted (fun x y => (y <? x) = false) l -> NoDup l -> StronglySorted lt l.
Proof.
  induction 1 as [|x l _ IH Hx]; intros Hnd; constructor;
    apply NoDup_cons in Hnd as [Hnin Hnd]; [by apply IH|].
  rewrite Forall_forall in Hx |- *. intros y Hy.
  specialize (Hx y Hy). apply Nat.ltb_ge in Hx.
  assert (x <> y) by (intros ->; done). lia.
Qed.

Lemma get_assignment_loop_spec t n : forall i j result,
  StronglySorted lt (m_cost_save t) ->
  Forall (fun x => i <= x) (drop j (m_cost_save t)) ->
  Forall (fun x => x < i) (take j (m_cost_save t)) ->
  i + n <= length (m_fmls t) ->
  get_assignment_loop t n i j result =
  Some (result ++
        omap (fun i => if bool_decide (i ∈ m_cost_save t) then None else m_fmls t !! i)
             (seq i n)).
Proof.
  induction n as [|n IH]; intros i j result Hs Hd Ht Hlen; simpl.
  { by rewrite app_nil_r. }
  destruct (bool_decide (m_cost_save t !! j = Some i)) eqn:E.
  - apply bool_decide_eq_true in E.
    rewrite bool_decide_eq_true_2 by (by eapply list_elem_of_lookup_2).
    pose proof (take_drop_middle _ _ _ E) as Hmid.
    apply IH; [done| | |lia].
    + rewrite <- Hmid in Hs. apply StronglySorted_app in Hs as (_ & _ & Hs).
      apply StronglySorted_inv in Hs as [_ Hs].
      eapply Forall_impl; [exact Hs|]. simpl. lia.
    + rewrite (take_S_r _ _ _ E). apply Forall_app. split.
      * eapply Forall_impl; [exact Ht|]. simpl. lia.
      * repeat constructor.
  - apply bool_decide_eq_false in E.
    assert (Forall (fun x => S i <= x) (drop j (m_cost_save t))) as Hd'.
    { destruct (m_cost_save t !! j) as [x|] eqn:Ex.
      - pose proof (take_drop_middle _ _ _ Ex) as Hmid.
        rewrite (drop_S _ _ _ Ex) in Hd |- *.
        apply Forall_cons in Hd as [Hx Hd].
        assert (i < x) by (assert (x <> i) by congruence; lia).
        constructor; [lia|].
        rewrite <- Hmid in Hs. apply StronglySorted_app in Hs as (_ & _ & Hs).
        apply StronglySorted_inv in Hs as [_ Hs].
        eapply Forall_impl; [exact Hs|]. simpl. lia.
      - apply lookup_ge_None in Ex. rewrite drop_ge by done. constructor. }
    assert (i ∉ m_cost_save t) as Hnin.
    { rewrite <- (take_drop j (m_cost_save t)). intros [Hin|Hin]%elem_of_app.
      - rewrite Forall_forall in Ht. specialize (Ht i Hin). lia.
      - rewrite Forall_forall in Hd'. specialize (Hd' i Hin). lia. }
    rewrite bool_decide_eq_false_2 by done.
    destruct (lookup_lt_is_Some_2 (m_fmls t) i ltac:(lia)) as [f Hf].
    rewrite Hf. simpl. rewrite IH; [|done|done| |lia].
    + by rewrite <- app_assoc.
    + eapply Forall_impl; [exact Ht|]. simpl. lia.
Qed.

Lemma complement_fmls_perm t t' :
  m_vars t' = m_vars t -> m_fmls t' = m_fmls t ->
  Permutation (m_cost_save t') (m_cost_save t) ->
  complement_fmls t' = complement_fmls t.
Proof.
  intros Hv Hf Hp. unfold complement_fmls. rewrite Hv, Hf.
  apply list_omap_ext, Forall2_same_length_lookup. split; [done|].
  intros k i j Hi Hj. assert (i = j) as <- by congruence.
  erewrite bool_decide_ext; [done|]. by rewrite Hp.
Qed.

Section Extract.
Context `{!StdSort}.

Lemma get_assignment_spec t :
  NoDup (m_cost_save t) -> length (m_vars t) <= length (m_fmls t) ->
  get_assignment t =
  Some (complement_fmls t, set_m_cost_save (std_sort Nat.ltb (m_cost_save t)) t).
Proof.
  intros Hnd Hlen. unfold get_assignment.
  set (t' := set_m_cost_save (std_sort Nat.ltb (m_cost_save t)) t).
  assert (Permutation (m_cost_save t') (m_cost_save t)) as Hp by apply std_sort_perm.
  assert (StronglySorted lt (m_cost_save t')) as Hs.
  { apply StronglySorted_le_lt; [|by rewrite Hp].
    apply std_sort_sorted.
    - apply Nat.ltb_irrefl.
    - intros x y z. rewrite !Nat.ltb_lt. lia.
    - intros x y z. rewrite !Nat.ltb_ge. lia. }
  rewrite (get_assignment_loop_spec t' _ 0 0 [] Hs); simpl.
  - by rewrite <- (complement_fmls_perm t t' eq_refl eq_refl Hp).
  - rewrite drop_0. apply Forall_forall. intros; lia.
  - constructor.
  - done.
Qed.

End Extract.

(** ** The registry during a search *)

Section Registry.
Context `{!StdSort}.

Lemma step_registry s e s' :
  search_inv s -> step s e = Some s' -> registry (st_th s') = registry (st_th s).
Proof.
  intros Hinv. destruct e as [v [|]| |n|]; cbn [step].
  - rewrite assign_eh_unfold.
    destruct (assign_update v s) as [s1|] eqn:Hup; simpl; [|done].
    apply assign_update_view in Hup as (tv & w & _ & _ & _ & Ht1).
    assert (registry (st_th s1) = registry (st_th s)) as Hr1 by (by rewrite Ht1).
    destruct (Qlt_bool _ _); [|by intros [= <-]].
    destruct (block s1) as [[b s2]|] eqn:Hb; simpl; [|done].
    intros [= <-]. rewrite <- Hr1. by eapply block_registry.
  - by intros [= <-].
  - by intros [= <-].
  - intros Hpop. destruct (pop_scope_inv n s s' Hinv Hpop) as (_ & Hst & _).
    by rewrite Hst.
  - unfold final_check_eh.
    destruct (block s) as [[b s2]|] eqn:Hb; simpl; [|done].
    intros [= <-]. by eapply block_registry.
Qed.

Lemma run_registry evs : forall s s',
  search_inv s -> run evs s = Some s' -> registry (st_th s') = registry (st_th s).
Proof.
  induction evs as [|e evs IH]; intros s s' Hinv; simpl; [by intros [= <-]|].
  destruct (step s e) as [s1|] eqn:Hstep; simpl; [|done]. intros Hrun.
  rewrite (IH s1 s' (step_inv _ _ _ Hinv Hstep) Hrun).
  by eapply step_registry.
Qed.

End Registry.

(** ** No id twice *)

Section NoDup.
Context `{!StdSort}.

Lemma block_nodup s b s' :
  nodup_inv (st_th s) -> block s = Some (b, s') -> nodup_inv (st_th s').
Proof.
  intros [Hc Hs] Hb. apply block_inv in Hb as (_ & _ & -> & _).
  by destruct (Qlt_bool _ _).
Qed.

Lemma step_nodup s e s' :
  search_inv s -> nodup_inv (st_th s) -> assigns_fresh s e = true ->
  step s e = Some s' -> nodup_inv (st_th s').
Proof.
  intros Hinv [Hc Hs] Hfresh. destruct e as [v [|]| |n|]; cbn [step].
  - rewrite assign_eh_unfold.
    destruct (assign_update v s) as [s1|] eqn:Hup; simpl; [|done].
    apply assign_update_view in Hup as (tv & w & Etv & _ & _ & Ht1).
    simpl in Hfresh. rewrite Etv in Hfresh. apply bool_decide_eq_true in Hfresh.
    assert (nodup_inv (st_th s1)) as Hnd1.
    { rewrite Ht1. split; simpl; [|done].
      apply NoDup_app. split; [done|]. split; [|apply NoDup_singleton].
      intros x Hx ->%list_elem_of_singleton. done. }
    destruct (Qlt_bool _ _); [|by intros [= <-]].
    destruct (block s1) as [[b s2]|] eqn:Hb; simpl; [|done].
    intros [= <-]. by eapply block_nodup.
  - by intros [= <-].
  - by intros [= <-].
  - intros Hpop. destruct n as [|k]; [by injection Hpop as <-|].
    destruct (pop_scope_inv _ _ _ Hinv Hpop) as (_ & Hst & _).
    pose proof Hpop as Hpop0. simpl in Hpop0.
    destruct (m_scopes (st_ctx s) !! k) as [lim|] eqn:Elim; simpl in Hpop0; [|done].
    clear Hpop0.
    destruct Hinv as (_ & _ & [Hled Hscopes]).
    destruct (scopes_ok_lookup _ _ _ _ Hscopes Elim) as [[j Hj] _].
    destruct (undo_trail_stack_consistent j _ lim (st_th s) Hj Hled)
      as (tr' & t' & Hundo & _ & _ & [rest Hpre] & _).
    simpl in Hpop. rewrite Elim in Hpop. simpl in Hpop. rewrite Hundo in Hpop.
    injection Hpop as <-. simpl. split.
    + rewrite Hpre in Hc. by apply NoDup_app in Hc as [? _].
    + simpl in Hst. by rewrite Hst.
  - unfold final_check_eh.
    destruct (block s) as [[b s2]|] eqn:Hb; simpl; [|done].
    intros [= <-]. by eapply block_nodup.
Qed.

Lemma run_nodup evs : forall s s',
  search_inv s -> nodup_inv (st_th s) -> host_assigns_once evs s = true ->
  run evs s = Some s' -> nodup_inv (st_th s').
Proof.
  induction evs as [|e evs IH]; intros s s' Hinv Hnd; simpl; [by intros _ [= <-]|].
  intros [Hfresh Hrest]%andb_true_iff.
  destruct (step s e) as [s1|] eqn:Hstep; simpl; [|done].
  apply IH; [by eapply step_inv|by eapply step_nodup|done].
Qed.

End NoDup.

Lemma clause_weight_ext t t' c :
  m_weights t = m_weights t' -> m_bool2var t = m_bool2var t' ->
  clause_weight t c = clause_weight t' c.
Proof.
  intros Hw Hb. induction c as [|l c IH]; simpl; [done|].
  unfold weight_of. by rewrite Hw, Hb, IH.
Qed.

Lemma ids_bound_prefix t p ids : p `prefix_of` ids -> ids_bound t ids -> ids_bound t p.
Proof. intros [k ->] H. by apply Forall_app in H as [? _]. Qed.

Lemma ids_bound_perm t l1 l2 : Permutation l1 l2 -> ids_bound t l1 -> ids_bound t l2.
Proof. intros Hp H. unfold ids_bound. by rewrite <- Hp. Qed.

Lemma empty_context_wf : ctx_wf empty_context.
Proof.
  split; [done|]. split; [done|]. split.
  - intros a bv H. change ((∅ : gmap nat nat) !! a = Some bv) in H.
    by rewrite lookup_empty in H.
  - intros a a' bv H. change ((∅ : gmap nat nat) !! a = Some bv) in H.
    by rewrite lookup_empty in H.
Qed.

(** ** Backtracking restores the ledger of the scope *)

Lemma undo_trail_stack_ledger tr lim : forall t,
  ledger_of (undo_trail_stack tr lim t).2 = undo_ledger tr lim (ledger_of t).
Proof.
  induction tr as [|e tr IH]; intros t; [done|].
  cbn [undo_trail_stack undo_ledger].
  destruct (lim <? length (e :: tr)); [|done].
  rewrite IH. by destruct e.
Qed.

Lemma undo_trail_stack_trail tr lim : forall t,
  (undo_trail_stack tr lim t).1 = drop (length tr - lim) tr.
Proof.
  induction tr as [|e tr IH]; intros t; [done|].
  cbn [undo_trail_stack length].
  destruct (lim <? S (length tr)) eqn:E.
  - apply Nat.ltb_lt in E. rewrite IH.
    replace (S (length tr) - lim) with (S (length tr - lim)) by lia. done.
  - apply Nat.ltb_ge in E. replace (S (length tr) - lim) with 0 by lia. done.
Qed.

Lemma undo_ledger_ge tr lim l : length tr <= lim -> undo_ledger tr lim l = l.
Proof.
  destruct tr as [|e tr]; [done|]. cbn [undo_ledger length]. intros Hle.
  destruct (lim <? S (length tr)) eqn:E; [|done].
  apply Nat.ltb_lt in E. lia.
Qed.

Lemma undo_ledger_compose tr lim lim' : forall l,
  lim' <= lim ->
  undo_ledger (drop (length tr - lim) tr) lim' (undo_ledger tr lim l) =
  undo_ledger tr lim' l.
Proof.
  induction tr as [|e tr IH]; intros l Hle; [done|].
  cbn [undo_ledger length].
  destruct (lim <? S (length tr)) eqn:E.
  - apply Nat.ltb_lt in E.
    assert ((lim' <? S (length tr)) = true) as -> by (apply Nat.ltb_lt; lia).
    replace (S (length tr) - lim) with (S (length tr - lim)) by lia.
    by apply IH.
  - apply Nat.ltb_ge in E. replace (S (length tr) - lim) with 0 by lia. done.
Qed.

Lemma scopes_ok_le size scopes :
  scopes_ok size scopes -> Forall (fun lim => lim <= size) scopes.
Proof.
  revert size. induction scopes as [|lim rest IH]; intros size; simpl; [done|].
  intros (Hle & _ & Hrest). constructor; [done|].
  eapply Forall_impl; [by apply IH|]. simpl. lia.
Qed.

Lemma snapshots_ok_view s s' saved :
  ledger_view s = ledger_view s' -> snapshots_ok s saved -> snapshots_ok s' saved.
Proof.
  unfold ledger_view, snapshots_ok, ledger_of. intros [= _ _ _ Hcs Hc Htr Hsc].
  by rewrite Hcs, Hc, Htr, Hsc.
Qed.

Lemma assign_update_snapshots v s s1 saved :
  search_inv s -> assign_update v s = Some s1 ->
  snapshots_ok s saved -> snapshots_ok s1 saved.
Proof.
  intros (_ & _ & [_ Hscopes]) Hup Hsn.
  apply assign_update_view in Hup as (tv & w & _ & _ & Hc1 & Ht1).
  apply scopes_ok_le in Hscopes. unfold snapshots_ok in *.
  apply Forall2_same_length_lookup in Hsn as [Hlen Hsn].
  apply Forall2_same_length_lookup. rewrite Hc1, Ht1. simpl.
  split; [done|]. intros k lim l Hlim Hl.
  rewrite <- (Hsn k lim l Hlim Hl).
  rewrite Forall_forall in Hscopes.
  pose proof (Hscopes lim (list_elem_of_lookup_2 _ _ _ Hlim)) as Hle.
  assert ((lim <? S (S (length (m_trail_stack (st_ctx s))))) = true) as ->
    by (apply Nat.ltb_lt; lia).
  assert ((lim <? S (length (m_trail_stack (st_ctx s)))) = true) as ->
    by (apply Nat.ltb_lt; lia).
  unfold ledger_of. simpl. by rewrite removelast_last.
Qed.

Lemma pop_scope_ledger k s s' lim :
  m_scopes (st_ctx s) !! k = Some lim -> pop_scope (S k) s = Some s' ->
  ledger_of (st_th s') =
    undo_ledger (m_trail_stack (st_ctx s)) lim (ledger_of (st_th s)) /\
  m_trail_stack (st_ctx s') =
    drop (length (m_trail_stack (st_ctx s)) - lim) (m_trail_stack (st_ctx s)) /\
  m_scopes (st_ctx s') = drop (S k) (m_scopes (st_ctx s)).
Proof.
  intros Hlim. simpl. rewrite Hlim. simpl.
  pose proof (undo_trail_stack_ledger (m_trail_stack (st_ctx s)) lim (st_th s)) as Hl.
  pose proof (undo_trail_stack_trail (m_trail_stack (st_ctx s)) lim (st_th s)) as Ht.
  destruct (undo_trail_stack _ _ _) as [tr' t']. simpl in Hl, Ht.
  intros [= <-]. simpl. by rewrite Hl, Ht.
Qed.

Section SavedSteps.
Context `{!StdSort}.

Lemma step_snapshots s e s' saved :
  search_inv s -> snapshots_ok s saved -> step s e = Some s' ->
  snapshots_ok s' (saved_step e s saved).
Proof.
  intros Hinv Hsn. destruct e as [v [|]| |n|]; cbn [step saved_step].
  - rewrite assign_eh_unfold.
    destruct (assign_update v s) as [s1|] eqn:Hup; simpl; [|done].
    pose proof (assign_update_snapshots _ _ _ _ Hinv Hup Hsn) as Hsn1.
    destruct (Qlt_bool _ _); [|by intros [= <-]].
    destruct (block s1) as [[b s2]|] eqn:Hb; simpl; [|done].
    intros [= <-]. eapply snapshots_ok_view; [eapply block_view, Hb|done].
  - by intros [= <-].
  - intros [= <-]. unfold snapshots_ok. simpl. constructor; [|done].
    by apply undo_ledger_ge.
  - destruct n as [|k]; [by intros [= <-]|].
    intros Hpop. pose proof Hpop as Hpop0. simpl in Hpop0.
    destruct (m_scopes (st_ctx s) !! k) as [lim|] eqn:Elim; simpl in Hpop0; [|done].
    clear Hpop0.
    destruct (pop_scope_ledger _ _ _ _ Elim Hpop) as (Hl & Htr & Hsc).
    destruct Hinv as (_ & _ & [_ Hscopes]).
    destruct (scopes_ok_lookup _ _ _ _ Hscopes Elim) as [_ Hdrop].
    apply scopes_ok_le in Hdrop. rewrite Forall_forall in Hdrop.
    unfold snapshots_ok in *. rewrite Hl, Htr, Hsc.
    apply Forall2_same_length_lookup in Hsn as [Hlen Hsn].
    apply Forall2_same_length_lookup. split; [by rewrite !length_drop, Hlen|].
    intros i lim' l Hlim' Hl'.
    rewrite undo_ledger_compose
      by (apply Hdrop; eapply list_elem_of_lookup_2, Hlim').
    rewrite lookup_drop in Hlim'. rewrite lookup_drop in Hl'. by eapply Hsn.
  - unfold final_check_eh.
    destruct (block s) as [[b s2]|] eqn:Hb; simpl; [|done].
    intros [= <-]. eapply snapshots_ok_view; [eapply block_view, Hb|done].
Qed.

Lemma run_saved_spec evs : forall s saved s',
  search_inv s -> snapshots_ok s saved -> run evs s = Some s' ->
  exists saved', run_saved evs s saved = Some (s', saved') /\ snapshots_ok s' saved'.
Proof.
  induction evs as [|e evs IH]; intros s saved s' Hinv Hsn; simpl.
  - intros [= <-]. eauto.
  - destruct (step s e) as [s1|] eqn:Hstep; simpl; [|done]. intros Hrun.
    eapply IH; [by eapply step_inv|by eapply step_snapshots|done].
Qed.

Lemma pop_scope_restores k s s' saved :
  snapshots_ok s saved -> pop_scope (S k) s = Some s' ->
  saved !! k = Some (ledger_of (st_th s')).
Proof.
  intros Hsn Hpop. pose proof Hpop as Hpop0. simpl in Hpop0.
  destruct (m_scopes (st_ctx s) !! k) as [lim|] eqn:Elim; simpl in Hpop0; [|done].
  clear Hpop0.
  destruct (pop_scope_ledger _ _ _ _ Elim Hpop) as (Hl & _ & _).
  destruct (Forall2_lookup_l _ _ _ _ _ Hsn Elim) as (l & Hk & Heq).
  by rewrite Hk, Hl, Heq.
Qed.

End SavedSteps.

Lemma start_search_scopes c soft :
  ctx_wf c -> m_scopes (st_ctx (start_search c soft)) = [].
Proof.
  intros (Htr & Hsc & Hwf). unfold start_search, init_search_eh.
  set (s0 := mk_state c alloc_theory).
  destruct (register_all_spec soft s0) as (Hv & _ & _ & _ & Hc & _).
  cbv zeta in Hv, Hc. simpl in Hv, Hc.
  set (sr := register_all soft s0) in *.
  injection Hc as _ Hsc' _ _ He2b' Hnum'.
  assert (bool_vars_wf (st_ctx sr)) as Hwfr.
  { unfold bool_vars_wf. by rewrite He2b', Hnum'. }
  assert (NoDup (m_vars (st_th sr))) as Hnd by (rewrite Hv; apply NoDup_seq).
  destruct (init_search_fold _ sr Hwfr Hnd)
    as (_ & _ & _ & _ & _ & _ & _ & _ & _ & _ & Fc').
  injection Fc' as _ -> _. by rewrite Hsc'.
Qed.

Lemma assert_all_total soft weights : forall i s,
  i + length soft <= length weights -> is_Some (assert_all soft weights i s).
Proof.
  induction soft as [|fml soft IH]; intros i s Hlen; simpl; [eauto|].
  simpl in Hlen.
  destruct (lookup_lt_is_Some_2 weights i ltac:(lia)) as [w ->]. simpl.
  apply IH. lia.
Qed.

(** ** What registration adds up, and what is saved *)

Lemma Qsum_app l1 l2 : (Qsum (l1 ++ l2) == Qsum l1 + Qsum l2)%Q.
Proof. induction l1 as [|x l1 IH]; simpl; [lra|]. rewrite IH. lra. Qed.

Lemma Qsum_nonneg l : Forall (fun w => (0 <= w)%Q) l -> (0 <= Qsum l)%Q.
Proof. induction 1; simpl; lra. Qed.

Lemma register_all_snoc soft f w s :
  register_all (soft ++ [(f, w)]) s = assert_weighted f w (register_all soft s).
Proof. unfold register_all. by rewrite foldl_app. Qed.

Lemma register_all_min_cost soft : forall s,
  (m_min_cost (st_th (register_all soft s)) ==
   m_min_cost (st_th s) + Qsum (map snd soft))%Q.
Proof.
  induction soft as [|[f w] soft IH]; intros s; simpl; [lra|].
  unfold register_all in *. simpl. rewrite IH. simpl. lra.
Qed.

Lemma register_all_asserted soft : forall s,
  m_asserted (st_ctx (register_all soft s)) =
  reverse (zip_with relaxed_clause (seq (m_fresh (st_ctx s)) (length soft)) (map fst soft))
  ++ m_asserted (st_ctx s) /\
  m_fresh (st_ctx (register_all soft s)) = m_fresh (st_ctx s) + length soft.
Proof.
  induction soft as [|[f w] soft IH]; intros s; simpl.
  - split; [done|lia].
  - destruct (IH (assert_weighted f w s)) as [Ha Hf].
    unfold register_all in *. simpl in *. rewrite Ha, Hf. simpl.
    split; [|lia]. rewrite reverse_cons, <- app_assoc. done.
Qed.


Lemma init_search_fold_fields vars : forall s,
  let s' := foldl init_search_step s vars in
  (m_vars (st_th s'), m_fmls (st_th s'), m_weights (st_th s'), m_costs (st_th s'),
   m_cost_save (st_th s'), m_cost (st_th s'), m_min_cost (st_th s')) =
  (m_vars (st_th s), m_fmls (st_th s), m_weights (st_th s), m_costs (st_th s),
   m_cost_save (st_th s), m_cost (st_th s), m_min_cost (st_th s)).
Proof.
  induction vars as [|a vars IH]; intros s; simpl; [done|].
  cbv zeta in IH. rewrite IH.
  by destruct (init_search_step_spec s a) as (_ & _ & _ & _ & _ & _ & -> & _).
Qed.

Lemma start_search_min_cost c soft :
  (m_min_cost (st_th (start_search c soft)) == Qsum (map snd soft))%Q /\
  m_weights (st_th (start_search c soft)) = map snd soft /\
  m_cost_save (st_th (start_search c soft)) = [].
Proof.
  unfold start_search, init_search_eh.
  pose proof (init_search_fold_fields
                (m_vars (st_th (register_all soft (mk_state c alloc_theory))))
                (register_all soft (mk_state c alloc_theory))) as Hf.
  cbv zeta in Hf. injection Hf as _ _ -> _ -> _ ->.
  destruct (register_all_spec soft (mk_state c alloc_theory))
    as (_ & Hw & _ & Hth & _). cbv zeta in Hw, Hth. simpl in Hw, Hth.
  injection Hth as _ _ Hsave _ _ _.
  pose proof (register_all_min_cost soft (mk_state c alloc_theory)) as Hm. simpl in Hm.
  split; [lra|]. split; [by rewrite Hw|done].
Qed.

Lemma saved_inv_view t t' : bound_view t = bound_view t' -> saved_inv t -> saved_inv t'.
Proof.
  unfold bound_view, saved_inv. intros [= Hw Hs Hm].
  rewrite (sum_weights_ext t t') by done. by rewrite Hw, Hs, Hm.
Qed.

Section Saved.
Context `{!StdSort}.

Lemma block_saved s b s' :
  search_inv s -> bound_inv (st_th s) -> saved_inv (st_th s) ->
  block s = Some (b, s') -> saved_inv (st_th s').
Proof.
  intros Hinv Hbnd Hsv Hb.
  apply block_inv in Hb as (_ & _ & Ht & _). cbv zeta in Ht. rewrite Ht.
  destruct (Qlt_bool _ _) eqn:E; [|done].
  apply Qlt_bool_iff in E.
  destruct (block_prefix_all s Hinv Hbnd E) as [_ Hacc].
  destruct Hinv as (_ & [_ Hlt] & [Hled _]). apply ledger_consistent_sum in Hled.
  split; simpl; [|exact Hlt]. left.
  change (sum_weights _ ?l) with (sum_weights (st_th s) l). lra.
Qed.

(** Outside a final check no callback writes [m_min_cost] or [m_cost_save]. *)
Lemma step_bound_view s e s' :
  e <> FinalCheck -> step s e = Some s' -> bound_view (st_th s') = bound_view (st_th s).
Proof.
  intros Hne. destruct e as [v [|]| |n|]; cbn [step]; [| | | |done].
  - rewrite assign_eh_unfold.
    destruct (assign_update v s) as [s1|] eqn:Hup; simpl; [|done].
    apply assign_update_view in Hup as (tv & w & _ & _ & _ & Ht1).
    assert (bound_view (st_th s1) = bound_view (st_th s)) as Hv1 by (by rewrite Ht1).
    destruct (Qlt_bool _ _) eqn:E; [|by intros [= <-]].
    destruct (block s1) as [[b s2]|] eqn:Hb; simpl; [|done].
    intros [= <-]. rewrite <- Hv1.
    apply block_inv in Hb as (_ & _ & -> & _).
    apply Qlt_bool_iff in E.
    assert (Qlt_bool (m_cost (st_th s1)) (m_min_cost (st_th s1)) = false) as ->
      by (apply Qlt_bool_false; lra).
    done.
  - by intros [= <-].
  - by intros [= <-].
  - destruct n as [|k]; simpl; [by intros [= <-]|].
    destruct (m_scopes (st_ctx s) !! k) as [lim|]; simpl; [|done].
    destruct (undo_trail_stack _ _ _) as [tr t] eqn:Hu. intros [= <-]. simpl.
    assert (forall tr0 lim0 t0,
              bound_view (undo_trail_stack tr0 lim0 t0).2 = bound_view t0) as Hundo.
    { induction tr0 as [|e tr0 IH]; intros lim0 t0; simpl; [done|].
      destruct (lim0 <? S (length tr0)); [|done].
      rewrite IH. by destruct e. }
    specialize (Hundo (m_trail_stack (st_ctx s)) lim (st_th s)).
    by rewrite Hu in Hundo.
Qed.

Lemma step_saved s e s' :
  search_inv s -> bound_inv (st_th s) -> saved_inv (st_th s) ->
  step s e = Some s' -> saved_inv (st_th s').
Proof.
  intros Hinv Hbnd Hsv Hstep.
  assert (e = FinalCheck \/ e <> FinalCheck) as [->|Hne]
    by (destruct e; auto; right; discriminate).
  - cbn [step] in Hstep. unfold final_check_eh in Hstep.
    destruct (block s) as [[b s2]|] eqn:Hb; simpl in Hstep; [|done].
    injection Hstep as <-. by eapply block_saved.
  - eapply saved_inv_view; [|exact Hsv]. symmetry. by eapply step_bound_view.
Qed.

Lemma run_saved_inv evs : forall s s',
  search_inv s -> bound_inv (st_th s) -> saved_inv (st_th s) ->
  run evs s = Some s' -> saved_inv (st_th s').
Proof.
  induction evs as [|e evs IH]; intros s s' Hinv Hbnd Hsv; simpl.
  - by intros [= <-].
  - destruct (step s e) as [s1|] eqn:Hstep; simpl; [|done].
    apply IH.
    + by eapply step_inv.
    + by eapply step_bound.
    + by eapply step_saved.
Qed.

Lemma run_bound_view evs : forall s s',
  Forall (fun e => e <> FinalCheck) evs -> run evs s = Some s' ->
  bound_view (st_th s') = bound_view (st_th s).
Proof.
  induction evs as [|e evs IH]; intros s s' Hne; simpl.
  - by intros [= <-].
  - apply Forall_cons in Hne as [He Hne].
    destruct (step s e) as [s1|] eqn:Hstep; simpl; [|done]. intros Hrun.
    rewrite (IH _ _ Hne Hrun). by eapply step_bound_view.
Qed.

End Saved.

(** ** Extraction over the registered constraints *)

Lemma get_assignment_registered `{!StdSort} (soft : list (expr * rational))
    (t : theory_weighted_maxsat) :
  NoDup (m_cost_save t) -> m_fmls t = map fst soft ->
  length (m_vars t) = length soft ->
  get_assignment t =
    Some (complement_fmls t, set_m_cost_save (std_sort Nat.ltb (m_cost_save t)) t) /\
  complement_fmls t =
    omap (fun i => if bool_decide (i ∈ m_cost_save t) then None else fst <$> soft !! i)
         (seq 0 (length soft)).
Proof.
  intros Hnd Hfmls Hlen. split.
  - apply get_assignment_spec; [done|]. rewrite Hlen, Hfmls, length_map. done.
  - unfold complement_fmls. rewrite Hlen, Hfmls.
    apply list_omap_ext, Forall2_same_length_lookup. split; [done|].
    intros k i j Hi Hj. assert (i = j) as <- by congruence.
    destruct (bool_decide _); [done|]. apply list_lookup_fmap.
Qed.

(** * The claims *)

(** ** C1: the weight of a blocking clause *)

(** C1, as the code has it: wherever a search calls [block], the call
    returns, and the clause it hands to the host weighs at least
    [m_min_cost] as it stands when [block] returns, and at least the
    [m_min_cost] of the moment of submission whenever [m_cost] has reached
    that bound. *)
Theorem block_cut_sound `{!StdSort} (c : context) (soft : list (expr * rational))
    (s : smt_state) :
  ctx_wf c -> calls_block c soft s ->
  exists b s',
    block s = Some (b, s') /\
    m_th_axioms (st_ctx s') = last_axiom s' :: m_th_axioms (st_ctx s) /\
    (m_min_cost (st_th s') <= clause_weight (st_th s') (last_axiom s'))%Q /\
    ((m_min_cost (st_th s) <= m_cost (st_th s))%Q ->
     (m_min_cost (st_th s) <= clause_weight (st_th s) (last_axiom s'))%Q).
Proof.
  intros Hwf Hcall.
  pose proof (calls_block_inv _ _ _ Hwf Hcall) as Hinv.
  destruct (block_total_search s Hinv) as [[b s'] Hb].
  exists b, s'. split; [done|].
  destruct Hinv as (_ & [HI _] & [Hled _]).
  apply ledger_consistent_sum in Hled.
  pose proof (block_registry _ _ _ Hb) as [= _ _ Hw Hb2v _ _].
  apply block_inv in Hb as (Hc & _ & Ht & _). cbv zeta in Hc.
  set (t := st_th s) in *.
  assert (last_axiom s' = map (relax_lit t) (block_prefix t)) as Hlast.
  { unfold last_axiom. by rewrite Hc. }
  rewrite (clause_weight_ext (st_th s') t _ Hw Hb2v), Hlast.
  assert (ids_bound t (block_prefix t)) as Hbound.
  { eapply ids_bound_prefix; [apply greedy_prefix_is_prefix|].
    eapply ids_bound_perm; [symmetry; apply sorted_costs_perm|done]. }
  pose proof (clause_weight_relax t _ Hbound) as Hcw.
  pose proof (accumulate_sum t 0%Q (block_prefix t)) as Hacc.
  pose proof (sum_weights_perm t _ _ (sorted_costs_perm t)) as Hperm.
  assert ((m_min_cost t <= m_cost t)%Q ->
          (m_min_cost t <= sum_weights t (block_prefix t))%Q) as Hreached.
  { intros Hge. destruct (greedy_prefix_stop t (sorted_costs t) 0%Q) as [Hstop|Hall].
    - fold (block_prefix t) in Hstop. lra.
    - fold (block_prefix t) in Hall. rewrite Hall. lra. }
  split; [by rewrite Hc|]. split; [|intros Hge; specialize (Hreached Hge); lra].
  rewrite Ht. destruct (Qlt_bool (m_cost t) (m_min_cost t)) eqn:E; simpl.
  - lra.
  - apply Qlt_bool_false in E. specialize (Hreached E). lra.
Qed.

(** C1, witness: in the ties session [block] is called with cost 2 over
    the bound 1, and its clause weighs 1. *)
Lemma block_cut_sound_witness :
  exists s',
    block (H := stable_std_sort) ties_call = Some (true, s') /\
    (m_min_cost (st_th ties_call) <= clause_weight (st_th ties_call) (last_axiom s'))%Q.
Proof.
  assert (calls_block (H := stable_std_sort) empty_context ties_soft ties_call) as Hcall.
  { eapply (calls_block_assign _ _ ties_events (state_after ties_soft ties_events) 1);
      vm_compute; reflexivity. }
  destruct (block_cut_sound (H := stable_std_sort) empty_context ties_soft ties_call
              empty_context_wf Hcall) as (b & s' & E & _ & _ & Hle).
  assert (b = true) as ->.
  { vm_compute in E. by injection E as <- _. }
  exists s'. split; [exact E|]. apply Hle. vm_compute. discriminate.
Defined.

(** C1, as stated, fails: with the weights 3, 5, 2 and only the first
    constraint relaxed, the final check emits a clause of weight 3 while the
    bound is still 10. *)
Lemma block_cut_below_bound :
  let s := state_after scenario_soft [Assign 0 true] in
  calls_block (H := stable_std_sort) empty_context scenario_soft s /\
  exists s',
    block (H := stable_std_sort) s = Some (true, s') /\
    last_axiom s' = [lit_neg (to_literal 0)] /\
    (clause_weight (st_th s) (last_axiom s') == 3)%Q /\
    (m_min_cost (st_th s) == 10)%Q /\
    ~ (m_min_cost (st_th s) <= clause_weight (st_th s) (last_axiom s'))%Q.
Proof.
  intros s. split.
  - apply (calls_block_final _ _ [Assign 0 true]). vm_compute. reflexivity.
  - eexists. split; [vm_compute; reflexivity|].
    split; [vm_compute; reflexivity|]. split; [vm_compute; reflexivity|].
    split; [vm_compute; reflexivity|].
    intros Hle. vm_compute in Hle. by apply Hle.
Qed.

(** ** C2: the clause of [block] *)

(** C2, as the code has it: [block] sorts a copy of [m_costs] with
    [std::sort] under [compare_cost], which yields a permutation in which
    weights never increase and leaves the order among equal weights to the
    sorting routine; it then takes ids from the head, summing their weights,
    until the sum is at least [m_min_cost] or the sequence is used up (no
    shorter prefix meets the bound); and the clause it emits is exactly the
    negated relaxation literals of that prefix, in order; the call returns
    whenever the ids of the prefix have a weight and a boolean variable.  For
    a given sorting routine the clause is a function of the state. *)
Theorem block_clause_greedy_prefix `{!StdSort} (s : smt_state) :
  let t := st_th s in
  Permutation (sorted_costs t) (m_costs t) /\
  StronglySorted (fun v w => (weight_of t w <= weight_of t v)%Q) (sorted_costs t) /\
  block_prefix t `prefix_of` sorted_costs t /\
  ((m_min_cost t <= accumulate t 0%Q (block_prefix t))%Q \/
   block_prefix t = sorted_costs t) /\
  (forall p x, p ++ [x] `prefix_of` block_prefix t ->
               (accumulate t 0%Q p < m_min_cost t)%Q) /\
  (ids_ok t (block_prefix t) -> is_Some (block s)) /\
  (forall b s', block s = Some (b, s') ->
     ids_ok t (block_prefix t) /\
     m_th_axioms (st_ctx s') =
       map (fun v => lit_neg (to_literal (default 0 (m_var2bool t !! v)))) (block_prefix t)
       :: m_th_axioms (st_ctx s)).
Proof.
  intros t.
  split; [apply sorted_costs_perm|]. split; [apply sorted_costs_sorted|].
  split; [apply greedy_prefix_is_prefix|]. split; [apply greedy_prefix_stop|].
  split; [apply greedy_prefix_minimal|]. split; [apply block_total|].
  intros b s' Hb. apply block_inv in Hb as (Hc & _ & _ & Hok). cbv zeta in Hc.
  split; [done|]. by rewrite Hc.
Qed.

(** C2, witness: in the ties session the stable sort keeps the order 0, 1
    and the clause is the negated literal of the first constraint. *)
Lemma block_clause_greedy_prefix_witness :
  exists s',
    block (H := stable_std_sort) ties_call = Some (true, s') /\
    m_th_axioms (st_ctx s') =
      [lit_neg (to_literal 0)] :: m_th_axioms (st_ctx ties_call).
Proof.
  destruct (block (H := stable_std_sort) ties_call) as [[b s']|] eqn:E;
    [|vm_compute in E; discriminate].
  assert (b = true) as ->.
  { vm_compute in E. by injection E as <- _. }
  exists s'. split; [reflexivity|].
  destruct (block_clause_greedy_prefix (H := stable_std_sort) ties_call)
    as (_ & _ & _ & _ & _ & _ & Hclause).
  destruct (Hclause true s' E) as [_ ->]. vm_compute. reflexivity.
Defined.

(** C2, as stated, fails.  In the ties session a [std::sort] that meets
    the contract without being stable puts the second constraint first, and
    [block] emits the negated literal of the second constraint, where the
    stable, registration-ordered sort of the claim gives that of the first.
    And when the host relaxes the second constraint before the first, even
    the stable sort keeps that order and emits the literal of the second
    constraint, not the one registered first. *)
Lemma block_ties_depend_on_sort :
  (calls_block (H := unstable_std_sort) empty_context ties_soft ties_call /\
   exists s',
     block (H := unstable_std_sort) ties_call = Some (true, s') /\
     last_axiom s' = [lit_neg (to_literal 1)] /\
     spec_block_clause (st_th ties_call) = [lit_neg (to_literal 0)] /\
     last_axiom s' <> spec_block_clause (st_th ties_call)) /\
  (calls_block (H := stable_std_sort) empty_context ties_soft ties_call_rev /\
   exists s',
     block (H := stable_std_sort) ties_call_rev = Some (true, s') /\
     m_costs (st_th ties_call_rev) = [1; 0] /\
     last_axiom s' = [lit_neg (to_literal 1)] /\
     spec_block_clause (st_th ties_call_rev) = [lit_neg (to_literal 0)] /\
     last_axiom s' <> spec_block_clause (st_th ties_call_rev)).
Proof.
  split; split.
  - eapply (calls_block_assign _ _ ties_events (state_after ties_soft ties_events) 1);
      vm_compute; reflexivity.
  - eexists. split; [vm_compute; reflexivity|].
    split; [vm_compute; reflexivity|]. split; [vm_compute; reflexivity|].
    vm_compute. discriminate.
  - eapply (calls_block_assign _ _ ties_events_rev
              (state_after ties_soft ties_events_rev) 0);
      vm_compute; reflexivity.
  - eexists. split; [vm_compute; reflexivity|].
    split; [vm_compute; reflexivity|]. split; [vm_compute; reflexivity|].
    split; [vm_compute; reflexivity|].
    vm_compute. discriminate.
Qed.

(** ** C3: the ledger and the trail *)

(** C3: after any sequence of assignments, scope pushes, backtracks and
    final checks of a search, [m_cost] is the sum of the weights of the ids
    in [m_costs]; backtracking any number of open scopes from there returns,
    keeps it so, and gives back exactly the [m_cost] and [m_costs] found
    when the scope backtracked to was opened; and [assign_eh v true] pushes,
    before it changes the ledger, the two trail objects whose undoing gives
    back the [m_cost] and [m_costs] it found, and changes neither
    [m_min_cost] nor [m_cost_save]. *)
Theorem ledger_consistent_after_run `{!StdSort} (c : context)
    (soft : list (expr * rational)) (evs : list event) (s : smt_state) :
  ctx_wf c -> run evs (start_search c soft) = Some s ->
  (m_cost (st_th s) == sum_weights (st_th s) (m_costs (st_th s)))%Q /\
  (forall n s', pop_scope n s = Some s' ->
     (m_cost (st_th s') == sum_weights (st_th s') (m_costs (st_th s')))%Q /\
     m_costs (st_th s') `prefix_of` m_costs (st_th s)) /\
  (forall n, n <= length (m_scopes (st_ctx s)) -> is_Some (pop_scope n s)) /\
  (exists saved,
     run_saved evs (start_search c soft) [] = Some (s, saved) /\
     forall k s', pop_scope (S k) s = Some s' ->
       saved !! k = Some (m_cost (st_th s'), m_costs (st_th s'))) /\
  (forall v s', assign_eh v true s = Some s' ->
     m_trail_stack (st_ctx s') =
       push_back_vector :: value_trail (m_cost (st_th s)) :: m_trail_stack (st_ctx s) /\
     let t := undo (value_trail (m_cost (st_th s))) (undo push_back_vector (st_th s')) in
     m_cost t = m_cost (st_th s) /\ m_costs t = m_costs (st_th s) /\
     m_min_cost (st_th s') = m_min_cost (st_th s) /\
     m_cost_save (st_th s') = m_cost_save (st_th s)).
Proof.
  intros Hwf Hrun. pose proof (session_inv _ _ _ _ Hwf Hrun) as Hinv.
  split; [|split; [|split; [|split]]].
  - destruct Hinv as (_ & _ & [Hled _]). by apply ledger_consistent_sum in Hled.
  - intros n s' Hpop. destruct n as [|k]; simpl in Hpop.
    { injection Hpop as <-. split; [|done].
      destruct Hinv as (_ & _ & [Hled _]). by apply ledger_consistent_sum in Hled. }
    destruct (m_scopes (st_ctx s) !! k) as [lim|] eqn:Elim; simpl in Hpop; [|done].
    destruct Hinv as (_ & _ & [Hled Hscopes]).
    destruct (scopes_ok_lookup _ _ _ _ Hscopes Elim) as [[j Hj] _].
    destruct (undo_trail_stack_consistent j _ lim (st_th s) Hj Hled)
      as (tr' & t' & Hundo & _ & Hcons & Hpre & _).
    rewrite Hundo in Hpop. injection Hpop as <-. simpl.
    split; [|done]. by apply ledger_consistent_sum in Hcons.
  - intros [|k] Hle; simpl; [eauto|].
    destruct (lookup_lt_is_Some_2 (m_scopes (st_ctx s)) k ltac:(lia)) as [lim ->].
    simpl. destruct (undo_trail_stack _ _ _). eauto.
  - destruct (start_search_spec c soft Hwf) as (Hinv0 & _).
    assert (snapshots_ok (start_search c soft) []) as Hsn0.
    { unfold snapshots_ok. rewrite (start_search_scopes c soft Hwf). constructor. }
    destruct (run_saved_spec evs _ [] s Hinv0 Hsn0 Hrun) as (saved & Hsaved & Hsn).
    exists saved. split; [done|]. intros k s' Hpop.
    by apply (pop_scope_restores k s s' saved Hsn Hpop).
  - intros v s' Hs'. rewrite assign_eh_unfold in Hs'.
    destruct (assign_update v s) as [s1|] eqn:Hup; simpl in Hs'; [|done].
    apply assign_update_view in Hup as (tv & w & _ & _ & Hc1 & Ht1).
    assert (ledger_view s1 = ledger_view s' /\
            bound_view (st_th s1) = bound_view (st_th s'))
      as [[= _ _ _ Hcs _ Htr _] [= _ Hsave Hmin]].
    { destruct (Qlt_bool _ _) eqn:E.
      - destruct (block s1) as [[b s2]|] eqn:Hb; simpl in Hs'; [|done].
        injection Hs' as <-. split; [by eapply block_view|].
        apply block_inv in Hb as (_ & _ & -> & _).
        apply Qlt_bool_iff in E.
        destruct (Qlt_bool (m_cost _) _) eqn:E'; [|done].
        apply Qlt_bool_iff in E'. lra.
      - by injection Hs' as <-. }
    rewrite <- Htr, Hc1. split; [done|]. simpl. split; [done|].
    rewrite <- Hcs, <- Hmin, <- Hsave, Ht1. simpl. split; [|done].
    apply removelast_last.
Qed.

(** C3, witness: the ties session, where the third constraint was relaxed
    and backtracked before the first was relaxed. *)
Lemma ledger_consistent_after_run_witness :
  let s := state_after ties_soft ties_events in
  (m_cost (st_th s) == sum_weights (st_th s) (m_costs (st_th s)))%Q /\
  m_costs (st_th s) = [0].
Proof.
  intros s. split; [|vm_compute; reflexivity].
  refine (proj1 (ledger_consistent_after_run (H := stable_std_sort)
            empty_context ties_soft ties_events s empty_context_wf _)).
  vm_compute. reflexivity.
Defined.

(** ** C4: the bound never rises *)

(** C4: in a search over soft constraints whose weights are not negative,
    [m_min_cost] never rises along the events of the search; each call of
    [block] returns and leaves it unchanged or lowers it; when
    [m_cost < m_min_cost] the call sets [m_min_cost] to the weight
    accumulated over the prefix and [m_cost_save] to the current [m_costs],
    and otherwise it changes neither. *)
Theorem min_cost_nonincreasing `{!StdSort} (c : context) (soft : list (expr * rational))
    (evs evs' : list event) (s s' sb : smt_state) :
  ctx_wf c -> Forall (fun fw => (0 <= fw.2)%Q) soft ->
  run evs (start_search c soft) = Some s -> run evs' s = Some s' ->
  calls_block c soft sb ->
  (m_min_cost (st_th s') <= m_min_cost (st_th s))%Q /\
  exists b sb',
    block sb = Some (b, sb') /\
    (m_min_cost (st_th sb') <= m_min_cost (st_th sb))%Q /\
    ((m_cost (st_th sb) < m_min_cost (st_th sb))%Q ->
     m_min_cost (st_th sb') = accumulate (st_th sb) 0%Q (block_prefix (st_th sb)) /\
     m_cost_save (st_th sb') = m_costs (st_th sb)) /\
    (~ (m_cost (st_th sb) < m_min_cost (st_th sb))%Q ->
     m_min_cost (st_th sb') = m_min_cost (st_th sb) /\
     m_cost_save (st_th sb') = m_cost_save (st_th sb)).
Proof.
  intros Hwf Hnn Hrun Hrun' Hcall. split.
  { pose proof (session_inv _ _ _ _ Hwf Hrun) as Hinv.
    pose proof (session_bound _ _ _ _ Hwf Hnn Hrun) as Hbnd.
    by destruct (run_bound _ _ _ Hinv Hbnd Hrun'). }
  pose proof (calls_block_inv _ _ _ Hwf Hcall) as Hinv.
  pose proof (calls_block_bound _ _ _ Hwf Hnn Hcall) as Hbnd.
  destruct (block_total_search sb Hinv) as [[b sb'] Hb].
  exists b, sb'. split; [done|]. split.
  - by destruct (block_bound _ _ _ Hinv Hbnd Hb).
  - apply block_inv in Hb as (_ & _ & Ht & _). cbv zeta in Ht. rewrite Ht.
    destruct (Qlt_bool _ _) eqn:E.
    + apply Qlt_bool_iff in E. split; [done|]. intros Hn. by destruct Hn.
    + apply Qlt_bool_false in E. split; [intros Hlt; lra|done].
Qed.

(** C4, witness: with the weights 3, 5, 2 the bound starts at 10, and the
    final check with only the first constraint relaxed lowers it to 3. *)
Lemma min_cost_nonincreasing_witness :
  let s := state_after scenario_soft [Assign 0 true] in
  exists s',
    block (H := stable_std_sort) s = Some (true, s') /\
    (m_min_cost (st_th s') <= m_min_cost (st_th s))%Q /\
    m_cost_save (st_th s') = m_costs (st_th s).
Proof.
  intros s.
  assert (Forall (fun fw : expr * Q => (0 <= fw.2)%Q) scenario_soft) as Hnn.
  { repeat constructor; vm_compute; discriminate. }
  assert (run (H := stable_std_sort) [Assign 0 true]
            (start_search empty_context scenario_soft) = Some s) as Hrun.
  { vm_compute. reflexivity. }
  destruct (min_cost_nonincreasing (H := stable_std_sort) empty_context scenario_soft
              [Assign 0 true] [] s s s empty_context_wf Hnn Hrun eq_refl
              (calls_block_final _ _ _ _ Hrun)) as (_ & b & s' & E & Hle & Hlt & _).
  assert (b = true) as ->.
  { vm_compute in E. by injection E as <- _. }
  exists s'. split; [exact E|]. split; [exact Hle|].
  apply Hlt. vm_compute. reflexivity.
Defined.

(** The hypothesis on the weights cannot be dropped: with the weights 5,
    -4 and 1 (a weight below zero is outside the data model of the spec, but
    [assert_weighted] takes any rational) the bound starts at 2, and the
    final check with the first two constraints relaxed, at cost 1, stops
    after the first id and sets the bound to 5. *)
Remark min_cost_rises_with_negative_weight :
  let s := state_after negative_soft [Assign 0 true; Assign 1 true] in
  exists s',
    block (H := stable_std_sort) s = Some (true, s') /\
    (m_min_cost (st_th s) == 2)%Q /\ (m_cost (st_th s) == 1)%Q /\
    (m_min_cost (st_th s') == 5)%Q.
Proof.
  intros s. eexists. split; [vm_compute; reflexivity|].
  repeat split; vm_compute; reflexivity.
Qed.

(** ** C5: what [get_assignment] returns *)

(** C5: at every point of a search over soft constraints with weights
    that are not negative, in which the host assigns no relaxation literal
    twice on a branch, [get_assignment] returns exactly the formulas of the
    registered soft constraints whose index is not in [m_cost_save], in
    ascending order of index, whatever the saved set holds by then;
    [m_cost_save] holds indices of registered constraints, none twice; its
    weights sum to [m_min_cost] from the first final check that saves on
    (before that it is empty and [m_min_cost] is the sum of all weights);
    and when a final check answers [FC_DONE], all of this holds of the state
    it leaves, where the weights of the ids in [m_cost_save] sum to
    [m_min_cost]. *)
Theorem extraction_correct `{!StdSort} (c : context) (soft : list (expr * rational))
    (evs : list event) (s : smt_state) :
  ctx_wf c -> Forall (fun fw => (0 <= fw.2)%Q) soft ->
  host_assigns_once evs (start_search c soft) = true ->
  run evs (start_search c soft) = Some s ->
  (get_assignment (st_th s) =
     Some (complement_fmls (st_th s),
           set_m_cost_save (std_sort Nat.ltb (m_cost_save (st_th s))) (st_th s)) /\
   complement_fmls (st_th s) =
     omap (fun i => if bool_decide (i ∈ m_cost_save (st_th s)) then None
                    else fst <$> soft !! i)
          (seq 0 (length soft))) /\
  NoDup (m_cost_save (st_th s)) /\
  Forall (fun v => v < length soft) (m_cost_save (st_th s)) /\
  ((sum_weights (st_th s) (m_cost_save (st_th s)) == m_min_cost (st_th s))%Q \/
   (m_cost_save (st_th s) = [] /\ (m_min_cost (st_th s) == Qsum (map snd soft))%Q)) /\
  (forall s', final_check_eh s = Some (FC_DONE, s') ->
     get_assignment (st_th s') =
       Some (complement_fmls (st_th s'),
             set_m_cost_save (std_sort Nat.ltb (m_cost_save (st_th s'))) (st_th s')) /\
     complement_fmls (st_th s') =
       omap (fun i => if bool_decide (i ∈ m_cost_save (st_th s')) then None
                      else fst <$> soft !! i)
            (seq 0 (length soft)) /\
     (sum_weights (st_th s') (m_cost_save (st_th s')) == m_min_cost (st_th s'))%Q).
Proof.
  intros Hwf Hnn Honce Hrun.
  pose proof (session_inv _ _ _ _ Hwf Hrun) as Hinv.
  pose proof (session_bound _ _ _ _ Hwf Hnn Hrun) as Hbnd.
  destruct (start_search_spec c soft Hwf)
    as (Hinv0 & Hw0 & Hf0 & Hv0 & Hcs0 & Hsave0 & _ & _ & Hbnd0).
  specialize (Hbnd0 Hnn).
  pose proof (run_registry _ _ _ Hinv0 Hrun) as [= Hv Hf Hw _ _ _].
  assert (nodup_inv (st_th (start_search c soft))) as Hnd0.
  { unfold nodup_inv. rewrite Hcs0, Hsave0. split; constructor. }
  pose proof (run_nodup _ _ _ Hinv0 Hnd0 Honce Hrun) as Hnds.
  destruct (start_search_min_cost c soft) as (Hmin0 & _ & _).
  assert (saved_inv (st_th (start_search c soft))) as Hsv0.
  { split; [right|]; rewrite Hsave0; [|constructor]. split; [done|]. by rewrite Hw0. }
  pose proof (run_saved_inv _ _ _ Hinv0 Hbnd0 Hsv0 Hrun) as [Hsv Hids].
  rewrite Hw, Hw0 in Hsv, Hids. rewrite length_map in Hids.
  assert (m_fmls (st_th s) = map fst soft) as Hfmls by congruence.
  assert (length (m_vars (st_th s)) = length soft) as Hlen.
  { rewrite Hv, Hv0. apply length_seq. }
  split; [by apply get_assignment_registered; [apply Hnds|..]|].
  split; [apply Hnds|]. split; [exact Hids|]. split; [exact Hsv|].
  intros s' Hfc. unfold final_check_eh in Hfc.
  destruct (block s) as [[b s2]|] eqn:Hb; simpl in Hfc; [|done].
  destruct b; [done|]. injection Hfc as ->.
  pose proof (block_nodup _ _ _ Hnds Hb) as [_ Hnd].
  pose proof (block_registry _ _ _ Hb) as [= Hv' Hf' _ _ _ _].
  destruct (get_assignment_registered soft (st_th s') Hnd) as [Hget Hcompl];
    [congruence|congruence|].
  split; [exact Hget|]. split; [exact Hcompl|].
  apply (block_done_bound s s' Hinv Hbnd Hb).
Qed.

(** C5, witness: with the weights 3, 5, 2, after the first constraint was
    relaxed and a final check saved it, the bound is 3, the saved set is
    the first id, and the second and third formulas are returned. *)
Lemma extraction_correct_witness :
  let s := state_after scenario_soft [Assign 0 true; FinalCheck] in
  m_cost_save (st_th s) = [0] /\
  (0 < m_min_cost (st_th s))%Q /\
  (exists t', get_assignment (H := stable_std_sort) (st_th s) =
                Some ([e_user 1; e_user 2], t')) /\
  (sum_weights (st_th s) (m_cost_save (st_th s)) == m_min_cost (st_th s))%Q.
Proof.
  intros s.
  assert (Forall (fun fw : expr * Q => (0 <= fw.2)%Q) scenario_soft) as Hnn.
  { repeat constructor; vm_compute; discriminate. }
  assert (run (H := stable_std_sort) [Assign 0 true; FinalCheck]
            (start_search empty_context scenario_soft) = Some s) as Hrun
    by (vm_compute; reflexivity).
  assert (host_assigns_once (H := stable_std_sort) [Assign 0 true; FinalCheck]
            (start_search empty_context scenario_soft) = true) as Honce
    by (vm_compute; reflexivity).
  assert (m_cost_save (st_th s) = [0]) as Hsave by (vm_compute; reflexivity).
  destruct (extraction_correct (H := stable_std_sort) empty_context scenario_soft
              [Assign 0 true; FinalCheck] s empty_context_wf Hnn Honce Hrun)
    as ([Hget Hcompl] & _ & _ & Hsum & _).
  split; [exact Hsave|]. split; [vm_compute; reflexivity|]. split.
  - eexists. rewrite Hget, Hcompl, Hsave. reflexivity.
  - destruct Hsum as [Hsum|[Hnil _]]; [exact Hsum|]. rewrite Hsave in Hnil. discriminate.
Defined.

(** ** C6: what [reset_eh] leaves behind *)

(** C6, at the failing input: after the three soft constraints were
    registered and bound, [reset_eh] empties [m_vars], [m_weights],
    [m_costs], [m_cost_save], [m_cost] and [m_min_cost], and leaves [m_fmls],
    [m_bool2var] and [m_var2bool] as they were; a constraint registered
    afterwards is then extracted as the stale first formula. *)
Theorem reset_eh_leaves_formulas_and_bindings :
  let t := st_th (start_search empty_context scenario_soft) in
  let t' := reset_eh t in
  (m_vars t' = [] /\ m_weights t' = [] /\ m_costs t' = [] /\ m_cost_save t' = [] /\
   m_cost t' = 0%Q /\ m_min_cost t' = 0%Q) /\
  m_fmls t' = [e_user 0; e_user 1; e_user 2] /\
  m_bool2var t' = m_bool2var t /\ m_bool2var t' !! 0 = Some 0 /\
  m_var2bool t' = m_var2bool t /\ m_var2bool t' !! 0 = Some 0 /\
  let s2 := init_search_eh (assert_weighted (e_user 7) 1%Q (mk_state empty_context t')) in
  m_vars (st_th s2) = [0] /\
  fst <$> get_assignment (H := stable_std_sort) (st_th s2) = Some [e_user 0].
Proof.
  intros t t'. split; [by repeat split|].
  split; [vm_compute; reflexivity|]. split; [reflexivity|].
  split; [vm_compute; reflexivity|]. split; [reflexivity|].
  split; [vm_compute; reflexivity|].
  intros s2. split; vm_compute; reflexivity.
Qed.

(** ** C7: when the clause of [block] is empty *)

(** C7, as the code has it: [block] hands exactly one clause to the host;
    that clause is empty exactly when [m_costs] is empty or [m_min_cost] is
    zero or negative; [block] returns [true] exactly when the clause is not
    empty; and in the empty case [block] returns normally, with [false]. *)
Theorem block_empty_clause_iff `{!StdSort} (s : smt_state) :
  (forall b s', block s = Some (b, s') ->
     m_th_axioms (st_ctx s') = last_axiom s' :: m_th_axioms (st_ctx s) /\
     (last_axiom s' = [] <->
      m_costs (st_th s) = [] \/ (m_min_cost (st_th s) <= 0)%Q) /\
     (b = true <-> last_axiom s' <> [])) /\
  (m_costs (st_th s) = [] \/ (m_min_cost (st_th s) <= 0)%Q ->
   exists s', block s = Some (false, s') /\ last_axiom s' = []).
Proof.
  pose proof (block_prefix_nil_iff (st_th s)) as Hnil.
  split.
  - intros b s' Hb. apply block_inv in Hb as (Hc & -> & _ & _). cbv zeta in Hc.
    unfold last_axiom. rewrite Hc. simpl. split; [done|]. split.
    + rewrite <- Hnil. split; [apply map_eq_nil|by intros ->].
    + rewrite negb_true_iff, bool_decide_eq_false.
      split; intros Hne Heq; apply Hne; [by apply map_eq_nil in Heq|by rewrite Heq].
  - intros Hempty. apply Hnil in Hempty.
    destruct (block_total s) as [[b s'] Hb].
    { rewrite Hempty. constructor. }
    pose proof Hb as Hb'. apply block_inv in Hb' as (Hc & -> & _ & _). cbv zeta in Hc.
    exists s'. rewrite Hb, Hempty. split; [done|].
    unfold last_axiom. by rewrite Hc, Hempty.
Qed.

(** C7, witness: with the weights 3, 5, 2 and the first constraint relaxed,
    a final check blocks with a clause that is not empty. *)
Lemma block_empty_clause_iff_witness :
  let s := state_after scenario_soft [Assign 0 true] in
  exists s',
    block (H := stable_std_sort) s = Some (true, s') /\
    last_axiom s' <> [].
Proof.
  intros s. eexists. split; [vm_compute; reflexivity|].
  eapply (proj1 (block_empty_clause_iff (H := stable_std_sort) s));
    [vm_compute; reflexivity|reflexivity].
Defined.

(** C7, as stated, fails: before anything is relaxed the bound is 10, and
    the clause of [block] is empty. *)
Lemma block_empty_clause_positive_bound :
  let s := start_search empty_context scenario_soft in
  exists s',
    block (H := stable_std_sort) s = Some (false, s') /\
    m_th_axioms (st_ctx s') = [[]] /\
    (0 < m_min_cost (st_th s))%Q.
Proof.
  eexists. split; [vm_compute; reflexivity|]. split; [reflexivity|].
  vm_compute. reflexivity.
Qed.

(** ** C8: what [assign_eh] does *)

(** C8: [assign_eh v false] changes nothing at all; [assign_eh v true]
    adds the weight of the theory variable of [v] to [m_cost], appends that
    variable to [m_costs], and calls [block] (which hands one clause to the
    host) exactly when the new [m_cost] exceeds [m_min_cost]; inside a search
    it returns for every bound boolean variable. *)
Theorem assign_eh_spec `{!StdSort} (v : bool_var) (s : smt_state) :
  assign_eh v false s = Some s /\
  (forall s', assign_eh v true s = Some s' ->
    exists tv w s1,
      m_bool2var (st_th s) !! v = Some tv /\
      m_weights (st_th s) !! tv = Some w /\
      assign_update v s = Some s1 /\
      m_cost (st_th s1) = (m_cost (st_th s) + w)%Q /\
      m_costs (st_th s1) = m_costs (st_th s) ++ [tv] /\
      m_cost (st_th s') = (m_cost (st_th s) + w)%Q /\
      m_costs (st_th s') = m_costs (st_th s) ++ [tv] /\
      ((m_min_cost (st_th s) < m_cost (st_th s) + w)%Q ->
       exists b, block s1 = Some (b, s') /\
                 length (m_th_axioms (st_ctx s')) = S (length (m_th_axioms (st_ctx s)))) /\
      (~ (m_min_cost (st_th s) < m_cost (st_th s) + w)%Q ->
       s' = s1 /\ m_th_axioms (st_ctx s') = m_th_axioms (st_ctx s))) /\
  (forall c soft evs,
     ctx_wf c -> run evs (start_search c soft) = Some s ->
     is_Some (m_bool2var (st_th s) !! v) -> is_Some (assign_eh v true s)).
Proof.
  split; [done|]. split.
  2: { intros c soft evs Hwf Hrun Hv.
       apply assign_eh_total_search; [|done]. by eapply session_inv. }
  intros s'. rewrite assign_eh_unfold.
  destruct (assign_update v s) as [s1|] eqn:Hup; simpl; [|done].
  destruct (assign_update_view _ _ _ Hup) as (tv & w & Etv & Ew & Hc1 & Ht1).
  intros Hs'. exists tv, w, s1.
  assert (m_cost (st_th s1) = (m_cost (st_th s) + w)%Q) as Hcost1 by (by rewrite Ht1).
  assert (m_costs (st_th s1) = m_costs (st_th s) ++ [tv]) as Hcosts1 by (by rewrite Ht1).
  assert (m_min_cost (st_th s1) = m_min_cost (st_th s)) as Hmin1 by (by rewrite Ht1).
  assert (m_th_axioms (st_ctx s1) = m_th_axioms (st_ctx s)) as Hax1 by (by rewrite Hc1).
  rewrite Hmin1, Hcost1 in Hs'.
  do 5 (split; [done|]).
  destruct (Qlt_bool _ _) eqn:E.
  - apply Qlt_bool_iff in E.
    destruct (block s1) as [[b s2]|] eqn:Hb; simpl in Hs'; [|done].
    injection Hs' as <-.
    pose proof (block_view _ _ _ Hb) as [= _ _ _ Hcs Hc _ _].
    pose proof (block_inv _ _ _ Hb) as (Hcx & _).
    rewrite <- Hc, <- Hcs. do 2 (split; [done|]). split; [|done].
    intros _. exists b. split; [done|]. rewrite Hcx. simpl. by rewrite Hax1.
  - apply Qlt_bool_false in E. injection Hs' as <-.
    do 2 (split; [done|]). split; [|done]. intros Hlt. lra.
Qed.

(** C8, witness: in the ties session, relaxing the second constraint on
    top of the first adds its weight 1 and appends its theory variable. *)
Lemma assign_eh_spec_witness :
  let s := state_after ties_soft ties_events in
  exists s',
    assign_eh (H := stable_std_sort) 1 true s = Some s' /\
    m_costs (st_th s') = m_costs (st_th s) ++ [1] /\
    m_cost (st_th s') = (m_cost (st_th s) + 1)%Q.
Proof.
  intros s.
  destruct (assign_eh (H := stable_std_sort) 1 true s) as [s'|] eqn:E;
    [|vm_compute in E; discriminate].
  exists s'. split; [reflexivity|].
  destruct (proj1 (proj2 (assign_eh_spec (H := stable_std_sort) 1 s)) s' E)
    as (tv & w & s1 & Etv & Ew & _ & _ & _ & Hcost & Hcosts & _).
  vm_compute in Etv. injection Etv as <-.
  vm_compute in Ew. injection Ew as <-.
  split; [exact Hcosts|exact Hcost].
Defined.

(** ** C9: binding twice *)




(** ** C10: the entry point *)

(** C10: [weighted_maxsat] registers the soft constraints, runs the
    search, and overwrites [soft_constraints] with what [get_assignment]
    extracts; an [l_false] of the search becomes [l_true] when that subset is
    not empty, every other result is returned as it is, so [l_false] is
    returned only with an empty subset.  It returns whenever every soft
    constraint has a weight and [get_assignment] returns. *)
Theorem weighted_maxsat_spec `{!StdSort}
    (check_sat_core : smt_state -> lbool * smt_state)
    (c : context) (th : option theory_weighted_maxsat)
    (soft_constraints : list expr) (weights : list rational) :
  (forall r soft' s',
     weighted_maxsat check_sat_core c th soft_constraints weights = Some (r, soft', s') ->
     exists s1 wth',
       assert_all soft_constraints weights 0
         (mk_state c (default alloc_theory th)) = Some s1 /\
       get_assignment (st_th (check_sat_core s1).2) = Some (soft', wth') /\
       s' = mk_state (st_ctx (check_sat_core s1).2) wth' /\
       ((check_sat_core s1).1 = l_false -> soft' <> [] -> r = l_true) /\
       ((check_sat_core s1).1 = l_false -> soft' = [] -> r = l_false) /\
       ((check_sat_core s1).1 <> l_false -> r = (check_sat_core s1).1) /\
       (r = l_false -> soft' = [] /\ (check_sat_core s1).1 = l_false)) /\
  (length soft_constraints <= length weights ->
   exists s1,
     assert_all soft_constraints weights 0
       (mk_state c (default alloc_theory th)) = Some s1 /\
     (is_Some (get_assignment (st_th (check_sat_core s1).2)) ->
      is_Some (weighted_maxsat check_sat_core c th soft_constraints weights))).
Proof.
  assert (forall X (f : theory_weighted_maxsat -> X),
            f (match th with Some t => t | None => alloc_theory end) =
            f (default alloc_theory th)) as Hth by (by destruct th).
  split.
  - intros r soft' s' Hw. unfold weighted_maxsat in Hw. rewrite Hth in Hw.
    destruct (assert_all _ _ _ _) as [s1|] eqn:Hs1; simpl in Hw; [|done].
    destruct (check_sat_core s1) as [result s2] eqn:Hcheck. simpl in *.
    destruct (get_assignment (st_th s2)) as [[soft2 wth']|] eqn:Hget;
      simpl in Hw; [|done].
    injection Hw as <- <- <-. exists s1, wth'. rewrite Hcheck. simpl.
    do 3 (split; [done|]).
    destruct soft2, result; repeat split; try done.
  - intros Hlen.
    destruct (assert_all_total soft_constraints weights 0
                (mk_state c (default alloc_theory th)) Hlen) as [s1 Hs1].
    exists s1. split; [done|]. intros [[soft' wth'] Hget].
    unfold weighted_maxsat. rewrite Hth, Hs1. simpl.
    destruct (check_sat_core s1) as [result s2]. simpl in *.
    rewrite Hget. simpl. eauto.
Qed.

(** C10, witness: with a search that reports [l_false] and violates
    nothing, all soft constraints are returned and the result is [l_true]. *)
Lemma weighted_maxsat_spec_witness :
  exists s',
    weighted_maxsat (H := stable_std_sort) refuting_search empty_context None
      [e_user 0; e_user 1] [3%Q; 5%Q] = Some (l_true, [e_user 0; e_user 1], s').
Proof.
  destruct (weighted_maxsat (H := stable_std_sort) refuting_search empty_context None
              [e_user 0; e_user 1] [3%Q; 5%Q]) as [[[r soft'] s']|] eqn:E;
    [|vm_compute in E; discriminate].
  exists s'.
  destruct (proj1 (weighted_maxsat_spec (H := stable_std_sort) _ _ _ _ _) _ _ _ E)
    as (s1 & wth' & Hs1 & Hget & _ & Ht & _).
  vm_compute in Hs1. injection Hs1 as <-.
  vm_compute in Hget. injection Hget as <- _.
  rewrite Ht; [reflexivity|reflexivity|discriminate].
Defined.

(** * Further properties *)

(** ** Registration *)

(** X1: [assert_weighted] appends.  Registering soft constraints on any
    plugin state adds, in order, one new relaxation constant to [m_vars],
    the weight to [m_weights] and the formula to [m_fmls], asserts the hard
    clause [var \/ fml] of each, and adds the weights to [m_min_cost]; the
    ledger, the saved set and the bindings are left alone, and the relaxation
    constants stay distinct as long as the earlier ones were made by the same
    host. *)
Theorem register_all_appends (soft : list (expr * rational)) (s : smt_state) :
  let s' := register_all soft s in
  let new_vars := seq (m_fresh (st_ctx s)) (length soft) in
  m_vars (st_th s') = m_vars (st_th s) ++ new_vars /\
  m_weights (st_th s') = m_weights (st_th s) ++ map snd soft /\
  m_fmls (st_th s') = m_fmls (st_th s) ++ map fst soft /\
  (m_min_cost (st_th s') == m_min_cost (st_th s) + Qsum (map snd soft))%Q /\
  m_asserted (st_ctx s') =
    reverse (zip_with relaxed_clause new_vars (map fst soft)) ++ m_asserted (st_ctx s) /\
  m_fresh (st_ctx s') = m_fresh (st_ctx s) + length soft /\
  (m_costs (st_th s'), m_cost (st_th s'), m_cost_save (st_th s'),
   m_bool2var (st_th s'), m_var2bool (st_th s')) =
  (m_costs (st_th s), m_cost (st_th s), m_cost_save (st_th s),
   m_bool2var (st_th s), m_var2bool (st_th s)) /\
  (NoDup (m_vars (st_th s)) ->
   Forall (fun var => var < m_fresh (st_ctx s)) (m_vars (st_th s)) ->
   NoDup (m_vars (st_th s')) /\
   Forall (fun var => var < m_fresh (st_ctx s')) (m_vars (st_th s'))).
Proof.
  intros s' new_vars. subst s' new_vars.
  destruct (register_all_spec soft s) as (Hv & Hw & Hf & Hth & _).
  cbv zeta in Hv, Hw, Hf, Hth.
  destruct (register_all_asserted soft s) as [Ha Hfr].
  pose proof (register_all_min_cost soft s) as Hm.
  injection Hth as Hcs Hcost Hsave Hb2v Hv2b _.
  split; [done|]. split; [done|]. split; [done|]. split; [done|].
  split; [done|]. split; [done|]. split; [by rewrite Hcs, Hcost, Hsave, Hb2v, Hv2b|].
  intros Hnd Hlt. rewrite Hv, Hfr. split.
  - apply NoDup_app. split; [done|]. split; [|apply NoDup_seq].
    intros var Hin Hnew. rewrite Forall_forall in Hlt. specialize (Hlt var Hin).
    apply elem_of_seq in Hnew. lia.
  - apply Forall_app. split.
    + eapply Forall_impl; [exact Hlt|]. simpl. lia.
    + apply Forall_forall. intros var Hnew. apply elem_of_seq in Hnew. lia.
Qed.

(** ** The comparator *)

(** X2: [compare_cost] is a strict weak ordering, as [std::sort] requires
    of its comparator: irreflexive, asymmetric, transitive, and with a
    transitive incomparability; this holds for all theory variables, also for
    those without a weight. *)
Theorem compare_cost_strict_weak (t : theory_weighted_maxsat) :
  (forall v, compare_cost t v v = false) /\
  (forall v w, compare_cost t v w = true -> compare_cost t w v = false) /\
  (forall u v w, compare_cost t u v = true -> compare_cost t v w = true ->
                 compare_cost t u w = true) /\
  (forall u v w, compare_cost t u v = false -> compare_cost t v u = false ->
                 compare_cost t v w = false -> compare_cost t w v = false ->
                 compare_cost t u w = false /\ compare_cost t w u = false).
Proof.
  unfold compare_cost. split; [|split; [|split]].
  - intros v. apply Qlt_bool_false. lra.
  - intros v w. rewrite Qlt_bool_iff, Qlt_bool_false. lra.
  - intros u v w. rewrite !Qlt_bool_iff. lra.
  - intros u v w. rewrite !Qlt_bool_false. lra.
Qed.

(** ** The clause of [block] is a shortest one *)

Lemma sum_take_sorted t a l : forall k,
  Forall (fun x => (weight_of t x <= weight_of t a)%Q) l ->
  S k <= length l ->
  (sum_weights t (take (S k) l) <= weight_of t a + sum_weights t (take k l))%Q.
Proof.
  induction l as [|x l IH]; intros k Hl Hk; simpl in Hk; [lia|].
  apply Forall_cons in Hl as [Hx Hl].
  destruct k as [|k].
  - simpl. lra.
  - change (take (S (S k)) (x :: l)) with (x :: take (S k) l).
    change (take (S k) (x :: l)) with (x :: take k l).
    simpl. pose proof (IH k Hl ltac:(lia)). lra.
Qed.

Lemma sum_submseteq_sorted t l :
  StronglySorted (fun v w => (weight_of t w <= weight_of t v)%Q) l ->
  forall q, q ⊆+ l ->
  (sum_weights t q <= sum_weights t (take (length q) l))%Q.
Proof.
  induction 1 as [|a l Hs IH Ha]; intros q Hq.
  - apply submseteq_nil_r in Hq as ->. simpl. lra.
  - apply submseteq_cons_r in Hq as [Hq|(q' & Hp & Hq')].
    + destruct q as [|y q]; [simpl; lra|].
      pose proof (IH _ Hq) as Hle. pose proof (submseteq_length _ _ Hq) as Hlen.
      simpl length in *.
      pose proof (sum_take_sorted t a l (length q) Ha Hlen) as Hstep.
      change (take (S (length q)) (a :: l)) with (a :: take (length q) l).
      simpl in *. lra.
    + pose proof (sum_weights_perm t _ _ Hp) as Hsum.
      rewrite (Permutation_length Hp). simpl.
      pose proof (IH _ Hq'). simpl in Hsum. lra.
Qed.

(** X3: the clause [block] emits is a shortest cut over the asserted ids:
    its ids are the heaviest (no id left out weighs more than one taken),
    and no selection of asserted ids whose weights sum to [m_min_cost] or
    more has fewer ids than the clause has literals. *)
Theorem block_clause_shortest `{!StdSort} (s : smt_state) (b : bool) (s' : smt_state) :
  block s = Some (b, s') ->
  let t := st_th s in
  exists ids rest,
    last_axiom s' = map (relax_lit t) ids /\
    Permutation (ids ++ rest) (m_costs t) /\
    (forall v w, v ∈ ids -> w ∈ rest -> (weight_of t w <= weight_of t v)%Q) /\
    (forall q, q ⊆+ m_costs t -> (m_min_cost t <= sum_weights t q)%Q ->
               length (last_axiom s') <= length q).
Proof.
  intros Hb t. apply block_inv in Hb as (Hc & _ & _ & _). fold t in Hc.
  destruct (greedy_prefix_is_prefix t (sorted_costs t) 0%Q) as [rest Hrest].
  fold (block_prefix t) in Hrest.
  pose proof (sorted_costs_sorted t) as Hs.
  pose proof (sorted_costs_perm t) as Hp.
  exists (block_prefix t), rest.
  assert (last_axiom s' = map (relax_lit t) (block_prefix t)) as Hlast
    by (unfold last_axiom; rewrite Hc; done).
  split; [done|]. split; [by rewrite <- Hrest|]. split.
  - intros v w Hv Hw. rewrite Hrest in Hs.
    by apply (StronglySorted_app_1_elem_of _ _ _ _ _ Hs Hv Hw).
  - intros q Hq Hsum. rewrite Hlast, length_map.
    destruct (decide (length (block_prefix t) <= length q)) as [|Hlt]; [done|].
    exfalso. apply Nat.nle_gt in Hlt.
    destruct (lookup_lt_is_Some_2 _ _ Hlt) as [x Hx].
    assert (take (length q) (block_prefix t) ++ [x] `prefix_of` block_prefix t) as Hpre.
    { exists (drop (S (length q)) (block_prefix t)).
      rewrite <- app_assoc. simpl. rewrite <- (drop_S _ _ _ Hx).
      by rewrite take_drop. }
    apply greedy_prefix_minimal in Hpre.
    pose proof (accumulate_sum t 0%Q (take (length q) (block_prefix t))) as Hacc.
    assert (take (length q) (block_prefix t) = take (length q) (sorted_costs t)) as Htake.
    { rewrite Hrest. rewrite take_app_le by lia. done. }
    assert (q ⊆+ sorted_costs t) as Hq' by (by rewrite Hp).
    pose proof (sum_submseteq_sorted t _ Hs q Hq') as Hmax.
    rewrite Htake in Hpre, Hacc. lra.
Qed.

(** X3, witness: the ties session, where cost 2 stands over the bound 1
    and the clause has one literal. *)
Lemma block_clause_shortest_witness :
  exists s',
    block (H := stable_std_sort) ties_call = Some (true, s') /\
    length (last_axiom s') <= length [1].
Proof.
  destruct (block (H := stable_std_sort) ties_call) as [[b s']|] eqn:E;
    [|vm_compute in E; discriminate].
  destruct (block_clause_shortest (H := stable_std_sort) ties_call b s' E)
    as (ids & rest & _ & _ & _ & Hshort).
  assert (b = true) as ->.
  { vm_compute in E. by injection E as <- _. }
  exists s'. split; [reflexivity|]. apply Hshort.
  - vm_compute. apply submseteq_cons, submseteq_skip, submseteq_nil_l.
  - vm_compute. discriminate.
Defined.

(** ** The literals of the clause *)

(** X4: inside a search every literal of the clause [block] emits is
    the negation of a boolean variable that is bound to an asserted id (an
    element of [m_costs]); the clause has at most as many literals as there
    are asserted ids, and no literal twice when no id is asserted twice. *)
Theorem block_clause_literals `{!StdSort} (s : smt_state) (b : bool) (s' : smt_state) :
  search_inv s -> block s = Some (b, s') ->
  Forall (fun l => lit_sign l = true /\
                   exists tv, m_bool2var (st_th s) !! lit_var l = Some tv /\
                              tv ∈ m_costs (st_th s))
         (last_axiom s') /\
  length (last_axiom s') <= length (m_costs (st_th s)) /\
  (NoDup (m_costs (st_th s)) -> NoDup (last_axiom s')).
Proof.
  intros (HB & [Hbound Hlt] & _) Hb.
  apply block_inv in Hb as (Hc & _ & _ & _). cbv zeta in Hc.
  set (t := st_th s) in *.
  assert (last_axiom s' = map (relax_lit t) (block_prefix t)) as ->
    by (unfold last_axiom; rewrite Hc; done).
  destruct (greedy_prefix_is_prefix t (sorted_costs t) 0%Q) as [rest Hrest].
  fold (block_prefix t) in Hrest.
  pose proof (sorted_costs_perm t) as Hp. rewrite Hrest in Hp.
  assert (ids_bound t (block_prefix t ++ rest)) as Hb'
    by (eapply ids_bound_perm; [symmetry; exact Hp|exact Hbound]).
  apply Forall_app in Hb' as [Hpre _].
  split; [|split].
  - apply Forall_forall. intros l Hl.
    apply list_elem_of_fmap in Hl as (v & -> & Hv).
    rewrite Forall_forall in Hpre. destruct (Hpre v Hv) as (bv & Hvb & Hbv).
    rewrite (relax_lit_lookup _ _ _ Hvb). simpl.
    split; [done|]. exists v. split; [done|].
    rewrite <- Hp. apply elem_of_app. by left.
  - rewrite length_map, <- (Permutation_length Hp), length_app. lia.
  - intros Hnd. rewrite <- Hp in Hnd. apply NoDup_app in Hnd as (Hnd & _ & _).
    apply NoDup_fmap_2_strong; [|exact Hnd].
    intros v w Hv Hw Heq.
    rewrite Forall_forall in Hpre.
    destruct (Hpre v Hv) as (bv & Hvb & Hbv). destruct (Hpre w Hw) as (bw & Hwb & Hbw).
    rewrite (relax_lit_lookup _ _ _ Hvb), (relax_lit_lookup _ _ _ Hwb) in Heq.
    injection Heq as ->. congruence.
Qed.

(** X4, witness: the ties session. *)
Lemma block_clause_literals_witness :
  exists s',
    block (H := stable_std_sort) ties_call = Some (true, s') /\
    length (last_axiom s') <= length (m_costs (st_th ties_call)) /\
    NoDup (last_axiom s').
Proof.
  destruct (block (H := stable_std_sort) ties_call) as [[b s']|] eqn:E;
    [|vm_compute in E; discriminate].
  assert (search_inv ties_call) as Hinv.
  { apply (calls_block_inv (H := stable_std_sort) empty_context ties_soft);
      [apply empty_context_wf|].
    eapply (calls_block_assign _ _ ties_events (state_after ties_soft ties_events) 1);
      vm_compute; reflexivity. }
  destruct (block_clause_literals (H := stable_std_sort) ties_call b s' Hinv E)
    as (_ & Hlen & Hnd).
  assert (b = true) as ->.
  { vm_compute in E. by injection E as <- _. }
  exists s'. split; [reflexivity|]. split; [exact Hlen|]. apply Hnd.
  assert (m_costs (st_th ties_call) = [0; 1]) as -> by (vm_compute; reflexivity).
  apply (bool_decide_unpack _). vm_compute. reflexivity.
Defined.

(** ** The final check *)

(** X5: at every point of a search over soft constraints whose weights are
    not negative, [final_check_eh] returns, and never with [FC_GIVEUP]; it
    answers [FC_CONTINUE] exactly when some id is asserted and the bound is
    positive; when it answers [FC_DONE] the bound it leaves is zero, and so
    is the weight of the saved set; it hands one clause to the host and
    leaves the ledger, the bindings and the trail as they are. *)
Theorem final_check_eh_status `{!StdSort} (c : context) (soft : list (expr * rational))
    (evs : list event) (s : smt_state) :
  ctx_wf c -> Forall (fun fw => (0 <= fw.2)%Q) soft ->
  run evs (start_search c soft) = Some s ->
  exists st s',
    final_check_eh s = Some (st, s') /\
    st <> FC_GIVEUP /\
    (st = FC_CONTINUE <-> m_costs (st_th s) <> [] /\ (0 < m_min_cost (st_th s))%Q) /\
    (st = FC_DONE ->
     (m_min_cost (st_th s') == 0)%Q /\
     (sum_weights (st_th s') (m_cost_save (st_th s')) == 0)%Q) /\
    ledger_view s' = ledger_view s /\
    length (m_th_axioms (st_ctx s')) = S (length (m_th_axioms (st_ctx s))).
Proof.
  intros Hwf Hnn Hrun.
  pose proof (session_inv _ _ _ _ Hwf Hrun) as Hinv.
  pose proof (session_bound _ _ _ _ Hwf Hnn Hrun) as Hbnd.
  destruct (block_total_search s Hinv) as [[b s'] Hb].
  pose proof (block_inv _ _ _ Hb) as (Hc & Hbv & Ht & _). cbv zeta in Hc, Hbv, Ht.
  assert (b = false <-> m_costs (st_th s) = [] \/ (m_min_cost (st_th s) <= 0)%Q) as Hfalse.
  { rewrite <- block_prefix_nil_iff, Hbv, negb_false_iff, bool_decide_eq_true. done. }
  unfold final_check_eh. rewrite Hb. simpl.
  exists (if b then FC_CONTINUE else FC_DONE), s'.
  split; [done|]. split; [by destruct b|]. split; [|split; [|split]].
  - destruct b.
    + split; [intros _|done].
      destruct (m_costs (st_th s)) as [|v l] eqn:Hcs.
      * assert (true = false) by (apply Hfalse; by left). done.
      * split; [done|].
        destruct (Qlt_le_dec 0 (m_min_cost (st_th s))) as [|Hle]; [done|].
        assert (true = false) by (apply Hfalse; by right). done.
    + split; [done|]. intros [Hne Hpos].
      destruct (proj1 Hfalse eq_refl) as [Hnil|Hle]; [done|lra].
  - intros Hdone. destruct b; [done|].
    pose proof (block_done_bound _ _ Hinv Hbnd Hb) as Hsum.
    enough (m_min_cost (st_th s') == 0)%Q by (split; [done|lra]).
    assert (0 <= m_min_cost (st_th s))%Q as Hmin.
    { destruct Hbnd as [Hw [Hs|[_ Hs]]]; [|done].
      pose proof (sum_weights_nonneg (st_th s) (m_cost_save (st_th s)) Hw). lra. }
    pose proof Hinv as (_ & _ & [Hled _]). apply ledger_consistent_sum in Hled.
    pose proof (sum_weights_nonneg (st_th s) (m_costs (st_th s)) (proj1 Hbnd)) as Hcost.
    rewrite Ht. destruct (Qlt_bool _ _) eqn:E.
    + apply Qlt_bool_iff in E. simpl.
      destruct (proj1 Hfalse eq_refl) as [Hnil|Hle]; [|lra].
      assert (block_prefix (st_th s) = []) as -> by (apply block_prefix_nil_iff; by left).
      simpl. lra.
    + apply Qlt_bool_false in E.
      destruct (proj1 Hfalse eq_refl) as [Hnil|Hle]; [|lra].
      rewrite Hnil in Hled. simpl in Hled. lra.
  - symmetry. by eapply block_view.
  - by rewrite Hc.
Qed.

(** X5, witness: with the weights 3, 5, 2 and the first constraint
    relaxed, the final check answers [FC_CONTINUE]. *)
Lemma final_check_eh_status_witness :
  let s := state_after scenario_soft [Assign 0 true] in
  exists s',
    final_check_eh (H := stable_std_sort) s = Some (FC_CONTINUE, s') /\
    length (m_th_axioms (st_ctx s')) = S (length (m_th_axioms (st_ctx s))).
Proof.
  intros s.
  assert (Forall (fun fw : expr * Q => (0 <= fw.2)%Q) scenario_soft) as Hnn.
  { repeat constructor; vm_compute; discriminate. }
  assert (run (H := stable_std_sort) [Assign 0 true]
            (start_search empty_context scenario_soft) = Some s) as Hrun
    by (vm_compute; reflexivity).
  destruct (final_check_eh_status (H := stable_std_sort) empty_context scenario_soft
              [Assign 0 true] s empty_context_wf Hnn Hrun)
    as (st & s' & E & _ & Hcont & _ & _ & Hlen).
  assert (st = FC_CONTINUE) as ->.
  { apply Hcont. split; [vm_compute; discriminate|vm_compute; reflexivity]. }
  exists s'. split; [exact E|exact Hlen].
Defined.

(** X6: a final check repeated at once changes no field of the plugin (the
    host alone gets another clause), in a search over soft constraints whose
    weights are not negative; and after [FC_DONE] it answers [FC_DONE]
    again. *)
Theorem final_check_eh_repeat `{!StdSort} (c : context) (soft : list (expr * rational))
    (evs : list event) (s s' : smt_state) (st : final_check_status) :
  ctx_wf c -> Forall (fun fw => (0 <= fw.2)%Q) soft ->
  run evs (start_search c soft) = Some s ->
  final_check_eh s = Some (st, s') ->
  exists st2 s2,
    final_check_eh s' = Some (st2, s2) /\
    st_th s2 = st_th s' /\
    (st = FC_DONE -> st2 = FC_DONE).
Proof.
  intros Hwf Hnn Hrun Hfc.
  pose proof (session_inv _ _ _ _ Hwf Hrun) as Hinv.
  pose proof (session_bound _ _ _ _ Hwf Hnn Hrun) as Hbnd.
  unfold final_check_eh in Hfc.
  destruct (block s) as [[b s1]|] eqn:Hb; simpl in Hfc; [|done].
  injection Hfc as <- <-.
  assert (search_inv s1) as Hinv1.
  { eapply search_inv_view; [|exact Hinv]. by eapply block_view. }
  destruct (block_bound _ _ _ Hinv Hbnd Hb) as [Hbnd1 Hle].
  destruct (block_total_search s1 Hinv1) as [[b2 s2] Hb2].
  unfold final_check_eh. rewrite Hb2. simpl.
  exists (if b2 then FC_CONTINUE else FC_DONE), s2. split; [done|].
  pose proof (block_inv _ _ _ Hb) as (_ & Hbv & Ht & _). cbv zeta in Hbv, Ht.
  pose proof (block_inv _ _ _ Hb2) as (_ & Hbv2 & Ht2 & _). cbv zeta in Hbv2, Ht2.
  split.
  - rewrite Ht2.
    enough (Qlt_bool (m_cost (st_th s1)) (m_min_cost (st_th s1)) = false) as -> by done.
    apply Qlt_bool_false. rewrite Ht.
    destruct (Qlt_bool _ _) eqn:E.
    + apply Qlt_bool_iff in E.
      destruct (block_prefix_all s Hinv Hbnd E) as [_ Hacc]. simpl. lra.
    + by apply Qlt_bool_false in E.
  - destruct b; [done|]. intros _.
    symmetry in Hbv. apply negb_false_iff, bool_decide_eq_true in Hbv.
    enough (b2 = false) as -> by done.
    rewrite Hbv2. apply negb_false_iff, bool_decide_eq_true.
    apply block_prefix_nil_iff.
    apply block_prefix_nil_iff in Hbv as [Hnil|Hmin]; [left|right; lra].
    apply block_view in Hb. unfold ledger_view in Hb. injection Hb as _ _ _ <- _ _ _.
    done.
Qed.

(** X6, witness: the final check of the scenario with the first constraint
    relaxed, run twice. *)
Lemma final_check_eh_repeat_witness :
  let s := state_after scenario_soft [Assign 0 true] in
  exists st s' st2 s2,
    final_check_eh (H := stable_std_sort) s = Some (st, s') /\
    final_check_eh (H := stable_std_sort) s' = Some (st2, s2) /\
    st_th s2 = st_th s'.
Proof.
  intros s.
  assert (Forall (fun fw : expr * Q => (0 <= fw.2)%Q) scenario_soft) as Hnn.
  { repeat constructor; vm_compute; discriminate. }
  assert (run (H := stable_std_sort) [Assign 0 true]
            (start_search empty_context scenario_soft) = Some s) as Hrun
    by (vm_compute; reflexivity).
  destruct (final_check_eh (H := stable_std_sort) s) as [[st s']|] eqn:E;
    [|vm_compute in E; discriminate].
  destruct (final_check_eh_repeat (H := stable_std_sort) empty_context scenario_soft
              [Assign 0 true] s s' st empty_context_wf Hnn Hrun E)
    as (st2 & s2 & E2 & Hth & _).
  exists st, s', st2, s2. split; [reflexivity|]. split; [exact E2|exact Hth].
Defined.

(** X7: a final check that finds the cost below the bound, in a search
    over soft constraints whose weights are not negative: the clause it
    emits negates the relaxation literal of every asserted id (it blocks
    exactly the current selection), the bound becomes the current cost,
    [m_cost_save] becomes the current [m_costs], and the answer is
    [FC_DONE] only when nothing is asserted. *)
Theorem final_check_improves `{!StdSort} (c : context) (soft : list (expr * rational))
    (evs : list event) (s : smt_state) :
  ctx_wf c -> Forall (fun fw => (0 <= fw.2)%Q) soft ->
  run evs (start_search c soft) = Some s ->
  (m_cost (st_th s) < m_min_cost (st_th s))%Q ->
  exists st s',
    final_check_eh s = Some (st, s') /\
    Permutation (last_axiom s') (map (relax_lit (st_th s)) (m_costs (st_th s))) /\
    (m_min_cost (st_th s') == m_cost (st_th s))%Q /\
    m_cost_save (st_th s') = m_costs (st_th s) /\
    (st = FC_DONE <-> m_costs (st_th s) = []).
Proof.
  intros Hwf Hnn Hrun Hlt.
  pose proof (session_inv _ _ _ _ Hwf Hrun) as Hinv.
  pose proof (session_bound _ _ _ _ Hwf Hnn Hrun) as Hbnd.
  destruct (block_total_search s Hinv) as [[b s'] Hb].
  pose proof (block_inv _ _ _ Hb) as (Hc & Hbv & Ht & _). cbv zeta in Hc, Hbv, Ht.
  destruct (block_prefix_all s Hinv Hbnd Hlt) as [Hall Hacc].
  assert (Qlt_bool (m_cost (st_th s)) (m_min_cost (st_th s)) = true) as E
    by (by apply Qlt_bool_iff).
  rewrite E in Ht.
  unfold final_check_eh. rewrite Hb. simpl.
  exists (if b then FC_CONTINUE else FC_DONE), s'.
  split; [done|]. split; [|split; [|split]].
  - unfold last_axiom. rewrite Hc. simpl. rewrite Hall.
    apply Permutation_map, sorted_costs_perm.
  - rewrite Ht. simpl. lra.
  - by rewrite Ht.
  - assert (b = false <-> m_costs (st_th s) = []) as Hfalse.
    { rewrite Hbv, negb_false_iff, bool_decide_eq_true, block_prefix_nil_iff.
      split; [|by left]. intros [Hnil|Hle]; [done|].
      pose proof (sum_weights_nonneg (st_th s) (m_costs (st_th s)) (proj1 Hbnd)).
      destruct Hinv as (_ & _ & [Hled _]). apply ledger_consistent_sum in Hled. lra. }
    destruct b.
    + split; [done|]. intros Hnil. by apply Hfalse in Hnil.
    + split; [intros _; by apply Hfalse|done].
Qed.

(** X7, witness: with the weights 3, 5, 2 and the first constraint relaxed
    the cost 3 is below the bound 10. *)
Lemma final_check_improves_witness :
  let s := state_after scenario_soft [Assign 0 true] in
  exists st s',
    final_check_eh (H := stable_std_sort) s = Some (st, s') /\
    (m_min_cost (st_th s') == m_cost (st_th s))%Q /\
    m_cost_save (st_th s') = m_costs (st_th s).
Proof.
  intros s.
  assert (Forall (fun fw : expr * Q => (0 <= fw.2)%Q) scenario_soft) as Hnn.
  { repeat constructor; vm_compute; discriminate. }
  assert (run (H := stable_std_sort) [Assign 0 true]
            (start_search empty_context scenario_soft) = Some s) as Hrun
    by (vm_compute; reflexivity).
  assert (m_cost (st_th s) < m_min_cost (st_th s))%Q as Hlt
    by (vm_compute; reflexivity).
  destruct (final_check_improves (H := stable_std_sort) empty_context scenario_soft
              [Assign 0 true] s empty_context_wf Hnn Hrun Hlt)
    as (st & s' & E & _ & Hmin & Hsave & _).
  exists st, s'. split; [exact E|]. split; [exact Hmin|exact Hsave].
Defined.

(** X8: along a search over soft constraints whose weights are not
    negative, [m_min_cost] stays between zero and the sum of all weights;
    as long as nothing has been saved it is that sum, and from then on it is
    the weight of the saved set [m_cost_save], whose ids are all indices of
    registered constraints. *)
Theorem bound_saved_invariant `{!StdSort} (c : context) (soft : list (expr * rational))
    (evs : list event) (s : smt_state) :
  ctx_wf c -> Forall (fun fw => (0 <= fw.2)%Q) soft ->
  run evs (start_search c soft) = Some s ->
  (0 <= m_min_cost (st_th s))%Q /\
  (m_min_cost (st_th s) <= Qsum (map snd soft))%Q /\
  ((sum_weights (st_th s) (m_cost_save (st_th s)) == m_min_cost (st_th s))%Q \/
   (m_cost_save (st_th s) = [] /\ (m_min_cost (st_th s) == Qsum (map snd soft))%Q)) /\
  Forall (fun v => v < length soft) (m_cost_save (st_th s)).
Proof.
  intros Hwf Hnn Hrun.
  destruct (start_search_spec c soft Hwf) as (Hinv0 & _ & _ & _ & _ & _ & _ & _ & Hbnd0).
  specialize (Hbnd0 Hnn).
  destruct (start_search_min_cost c soft) as (Hmin0 & Hw0 & Hsave0).
  assert (saved_inv (st_th (start_search c soft))) as Hsv0.
  { split; [right|]; rewrite Hsave0; [|constructor]. split; [done|]. by rewrite Hw0. }
  destruct (run_bound _ _ _ Hinv0 Hbnd0 Hrun) as [Hbnd Hle].
  pose proof (run_saved_inv _ _ _ Hinv0 Hbnd0 Hsv0 Hrun) as [Hsv Hids].
  pose proof (run_registry _ _ _ Hinv0 Hrun) as Hreg.
  unfold registry in Hreg. injection Hreg as _ _ Hw _ _ _.
  rewrite Hw, Hw0 in Hsv, Hids. rewrite length_map in Hids.
  split; [|split; [lra|split; [exact Hsv|exact Hids]]].
  destruct Hbnd as [Hwnn [Hs|[_ Hs]]]; [|done].
  pose proof (sum_weights_nonneg (st_th s) (m_cost_save (st_th s)) Hwnn). lra.
Qed.

(** X8, witness: the scenario after its first constraint was relaxed and
    accepted at a final check. *)
Lemma bound_saved_invariant_witness :
  let s := state_after scenario_soft [Assign 0 true; FinalCheck] in
  (m_min_cost (st_th s) <= Qsum (map snd scenario_soft))%Q /\
  Forall (fun v => v < length scenario_soft) (m_cost_save (st_th s)).
Proof.
  intros s.
  assert (Forall (fun fw : expr * Q => (0 <= fw.2)%Q) scenario_soft) as Hnn.
  { repeat constructor; vm_compute; discriminate. }
  assert (run (H := stable_std_sort) [Assign 0 true; FinalCheck]
            (start_search empty_context scenario_soft) = Some s) as Hrun
    by (vm_compute; reflexivity).
  destruct (bound_saved_invariant (H := stable_std_sort) empty_context scenario_soft
              [Assign 0 true; FinalCheck] s empty_context_wf Hnn Hrun)
    as (_ & Hle & _ & Hids).
  split; [exact Hle|exact Hids].
Defined.

(** X9: [m_min_cost] and [m_cost_save] are written at final checks only:
    over any sequence of assignments, scope pushes and backtracks, from any
    state, both stay as they are (when [assign_eh] calls [block], the cost
    is over the bound and [block] saves nothing). *)
Theorem bound_written_at_final_check_only `{!StdSort} (evs : list event)
    (s s' : smt_state) :
  Forall (fun e => e <> FinalCheck) evs -> run evs s = Some s' ->
  m_min_cost (st_th s') = m_min_cost (st_th s) /\
  m_cost_save (st_th s') = m_cost_save (st_th s).
Proof.
  intros Hne Hrun. pose proof (run_bound_view _ _ _ Hne Hrun) as Hv.
  unfold bound_view in Hv. by injection Hv as _ -> ->.
Qed.

(** X9, witness: in the ties session the final check has lowered the
    bound to 1; relaxing the second constraint on top of the first raises
    the cost to 2, [assign_eh] calls [block] (the host gets one more
    clause), and the bound and the saved set stay as they are. *)
Lemma bound_written_at_final_check_only_witness :
  let s := state_after ties_soft ties_events in
  exists s',
    run (H := stable_std_sort) [Assign 1 true] s = Some s' /\
    length (m_th_axioms (st_ctx s')) = S (length (m_th_axioms (st_ctx s))) /\
    m_min_cost (st_th s') = m_min_cost (st_th s) /\
    m_cost_save (st_th s') = m_cost_save (st_th s).
Proof.
  intros s.
  destruct (run (H := stable_std_sort) [Assign 1 true] s) as [s'|] eqn:E;
    [|vm_compute in E; discriminate].
  assert (Forall (fun e => e <> FinalCheck) [Assign 1 true]) as Hne
    by (repeat constructor; discriminate).
  destruct (bound_written_at_final_check_only (H := stable_std_sort) _ s s' Hne E)
    as [Hmin Hsave].
  exists s'. split; [reflexivity|]. split; [|split; [exact Hmin|exact Hsave]].
  vm_compute in E. injection E as <-. vm_compute. reflexivity.
Defined.

(** ** The running cost *)

Lemma sum_weights_seq_from (ws : list rational) : forall pre t,
  m_weights t = pre ++ ws ->
  (sum_weights t (seq (length pre) (length ws)) == Qsum ws)%Q.
Proof.
  induction ws as [|x ws IH]; intros pre t Hw; simpl; [lra|].
  assert (weight_of t (length pre) = x) as ->.
  { unfold weight_of. rewrite Hw, lookup_app_r by lia.
    by rewrite Nat.sub_diag. }
  specialize (IH (pre ++ [x]) t). rewrite length_app in IH. simpl in IH.
  rewrite Nat.add_1_r in IH. rewrite IH; [lra|]. by rewrite <- app_assoc.
Qed.

Lemma sum_weights_seq t :
  (sum_weights t (seq 0 (length (m_weights t))) == Qsum (m_weights t))%Q.
Proof. by apply (sum_weights_seq_from (m_weights t) [] t). Qed.

Lemma sum_weights_submseteq t q l :
  Forall (fun w => (0 <= w)%Q) (m_weights t) -> q ⊆+ l ->
  (sum_weights t q <= sum_weights t l)%Q.
Proof.
  intros Hnn Hq. apply submseteq_Permutation in Hq as [k Hk].
  pose proof (sum_weights_perm t _ _ Hk) as Hsum.
  pose proof (sum_weights_app t q k) as Happ.
  pose proof (sum_weights_nonneg t k Hnn). lra.
Qed.

(** X10: in a search over soft constraints whose weights are not negative,
    in which the host assigns no relaxation literal twice on a branch,
    [m_cost] stays between zero and the sum of all weights, and [m_costs]
    never holds more ids than there are soft constraints. *)
Theorem cost_within_total `{!StdSort} (c : context) (soft : list (expr * rational))
    (evs : list event) (s : smt_state) :
  ctx_wf c -> Forall (fun fw => (0 <= fw.2)%Q) soft ->
  host_assigns_once evs (start_search c soft) = true ->
  run evs (start_search c soft) = Some s ->
  (0 <= m_cost (st_th s))%Q /\
  (m_cost (st_th s) <= Qsum (map snd soft))%Q /\
  length (m_costs (st_th s)) <= length soft.
Proof.
  intros Hwf Hnn Honce Hrun.
  destruct (start_search_spec c soft Hwf)
    as (Hinv0 & Hw0 & _ & _ & Hcs0 & Hsave0 & _ & _ & _).
  assert (nodup_inv (st_th (start_search c soft))) as Hnd0.
  { split; [rewrite Hcs0|rewrite Hsave0]; constructor. }
  pose proof (run_nodup _ _ _ Hinv0 Hnd0 Honce Hrun) as [Hnd _].
  pose proof (session_inv _ _ _ _ Hwf Hrun) as Hinv.
  pose proof (session_bound _ _ _ _ Hwf Hnn Hrun) as [Hwnn _].
  pose proof (run_registry _ _ _ Hinv0 Hrun) as Hreg.
  unfold registry in Hreg. injection Hreg as _ _ Hw _ _ _.
  destruct Hinv as (_ & [_ Hlt] & [Hled _]). apply ledger_consistent_sum in Hled.
  assert (m_costs (st_th s) ⊆+ seq 0 (length (m_weights (st_th s)))) as Hsub.
  { apply NoDup_submseteq; [exact Hnd|].
    intros v Hv. rewrite Forall_forall in Hlt. apply elem_of_seq.
    specialize (Hlt v Hv). lia. }
  pose proof (sum_weights_submseteq _ _ _ Hwnn Hsub) as Hle.
  pose proof (sum_weights_seq (st_th s)) as Hall.
  pose proof (sum_weights_nonneg (st_th s) (m_costs (st_th s)) Hwnn) as H0.
  assert (m_weights (st_th s) = map snd soft) as Hws by (by rewrite Hw, Hw0).
  rewrite <- Hws. split; [lra|]. split; [lra|].
  apply submseteq_length in Hsub. by rewrite length_seq, Hws, length_map in Hsub.
Qed.

(** X10, witness: the ties session. *)
Lemma cost_within_total_witness :
  let s := state_after ties_soft ties_events in
  (m_cost (st_th s) <= Qsum (map snd ties_soft))%Q /\
  length (m_costs (st_th s)) <= length ties_soft.
Proof.
  intros s.
  assert (Forall (fun fw : expr * Q => (0 <= fw.2)%Q) ties_soft) as Hnn.
  { repeat constructor; vm_compute; discriminate. }
  assert (run (H := stable_std_sort) ties_events
            (start_search empty_context ties_soft) = Some s) as Hrun
    by (vm_compute; reflexivity).
  assert (host_assigns_once (H := stable_std_sort) ties_events
            (start_search empty_context ties_soft) = true) as Honce
    by (vm_compute; reflexivity).
  destruct (cost_within_total (H := stable_std_sort) empty_context ties_soft
              ties_events s empty_context_wf Hnn Honce Hrun) as (_ & Hle & Hlen).
  split; [exact Hle|exact Hlen].
Defined.

(** ** [get_assignment] on any plugin state *)

Lemma ltb_sorted_unique (l1 l2 : list nat) :
  StronglySorted (fun x y => (y <? x) = false) l1 ->
  StronglySorted (fun x y => (y <? x) = false) l2 ->
  Permutation l1 l2 -> l1 = l2.
Proof.
  apply StronglySorted_unique_strong.
  intros x y _ _. rewrite !Nat.ltb_ge. lia.
Qed.

Lemma std_sort_ltb_sorted `{!StdSort} (l : list nat) :
  StronglySorted (fun x y => (y <? x) = false) (std_sort Nat.ltb l).
Proof.
  apply std_sort_sorted.
  - apply Nat.ltb_irrefl.
  - intros x y z. rewrite !Nat.ltb_lt. lia.
  - intros x y z. rewrite !Nat.ltb_ge. lia.
Qed.

Lemma std_sort_ltb_any (S1 S2 : StdSort) (l : list nat) :
  std_sort (StdSort := S1) Nat.ltb l = std_sort (StdSort := S2) Nat.ltb l.
Proof.
  apply ltb_sorted_unique; try apply std_sort_ltb_sorted.
  etransitivity; [apply std_sort_perm|]. symmetry. apply std_sort_perm.
Qed.

Lemma std_sort_ltb_fixed `{!StdSort} (l : list nat) :
  std_sort Nat.ltb (std_sort Nat.ltb l) = std_sort Nat.ltb l.
Proof.
  apply ltb_sorted_unique; try apply std_sort_ltb_sorted. apply std_sort_perm.
Qed.

(** X11: the ids of [m_cost_save] are numbers, so every [std::sort] that
    meets the contract orders them alike: [get_assignment] returns the same
    formulas and leaves the same plugin state whatever the sorting routine
    (unlike [block], whose clause depends on it). *)
Theorem get_assignment_any_sort (S1 S2 : StdSort) (t : theory_weighted_maxsat) :
  get_assignment (H := S1) t = get_assignment (H := S2) t.
Proof. unfold get_assignment. by rewrite (std_sort_ltb_any S1 S2). Qed.

(** X12: [get_assignment] changes [m_cost_save] alone, into its ascending
    rearrangement, and calling it again returns the same formulas and
    changes nothing any more. *)
Theorem get_assignment_idempotent `{!StdSort} (t t' : theory_weighted_maxsat)
    (result : list expr) :
  get_assignment t = Some (result, t') ->
  get_assignment t' = Some (result, t') /\
  t' = set_m_cost_save (m_cost_save t') t /\
  Permutation (m_cost_save t') (m_cost_save t) /\
  StronglySorted le (m_cost_save t').
Proof.
  unfold get_assignment. cbv zeta.
  set (t1 := set_m_cost_save (std_sort Nat.ltb (m_cost_save t)) t).
  destruct (get_assignment_loop t1 _ 0 0 []) as [r|] eqn:Hloop; simpl; [|done].
  intros [= <- <-].
  assert (set_m_cost_save (std_sort Nat.ltb (m_cost_save t1)) t1 = t1) as ->.
  { subst t1. simpl. by rewrite std_sort_ltb_fixed. }
  rewrite Hloop. simpl. split; [done|]. split; [done|]. split.
  - apply std_sort_perm.
  - eapply StronglySorted_mono; [|apply std_sort_ltb_sorted].
    intros x y. simpl. rewrite Nat.ltb_ge. done.
Qed.

(** X12, witness: the scenario after a final check saved the first id. *)
Lemma get_assignment_idempotent_witness :
  let t := st_th (state_after scenario_soft [Assign 0 true; FinalCheck]) in
  exists t',
    get_assignment (H := stable_std_sort) t = Some ([e_user 1; e_user 2], t') /\
    get_assignment (H := stable_std_sort) t' = Some ([e_user 1; e_user 2], t').
Proof.
  intros t.
  destruct (get_assignment (H := stable_std_sort) t) as [[r t']|] eqn:E;
    [|vm_compute in E; discriminate].
  destruct (get_assignment_idempotent (H := stable_std_sort) t t' r E) as (E2 & _).
  assert (r = [e_user 1; e_user 2]) as ->.
  { vm_compute in E. by injection E as <- _. }
  exists t'. split; [reflexivity|exact E2].
Defined.

Lemma get_assignment_loop_shape t n : forall i j result r,
  j <= length (m_cost_save t) ->
  get_assignment_loop t n i j result = Some r ->
  exists ext,
    r = result ++ ext /\
    ext `sublist_of` take n (drop i (m_fmls t)) /\
    omap (fun i => if bool_decide (i ∈ m_cost_save t) then None else m_fmls t !! i)
         (seq i n) `sublist_of` ext /\
    n + j <= length ext + length (m_cost_save t).
Proof.
  induction n as [|n IH]; intros i j result r Hj; simpl.
  { intros [= <-]. exists []. rewrite app_nil_r. repeat split; [constructor..|lia]. }
  destruct (bool_decide (m_cost_save t !! j = Some i)) eqn:E.
  - apply bool_decide_eq_true in E. intros Hloop.
    pose proof (lookup_lt_Some _ _ _ E) as Hlt.
    destruct (IH _ _ _ _ Hlt Hloop) as (ext & -> & Hsub & Hcompl & Hlen).
    exists ext. split; [done|]. split; [|split; [|lia]].
    + destruct (m_fmls t !! i) as [f|] eqn:Hf.
      * rewrite (drop_S _ _ _ Hf). simpl. by apply sublist_cons.
      * apply lookup_ge_None in Hf.
        rewrite drop_ge in Hsub by lia. rewrite take_nil in Hsub.
        apply sublist_nil_r in Hsub as ->. apply sublist_nil_l.
    + rewrite bool_decide_eq_true_2 by (by eapply list_elem_of_lookup_2). done.
  - destruct (m_fmls t !! i) as [f|] eqn:Hf; simpl; [|done]. intros Hloop.
    destruct (IH _ _ _ _ Hj Hloop) as (ext & -> & Hsub & Hcompl & Hlen).
    exists (f :: ext). rewrite <- app_assoc. split; [done|].
    rewrite (drop_S _ _ _ Hf). simpl. split; [by apply sublist_skip|].
    split; [|lia].
    destruct (bool_decide (i ∈ m_cost_save t)); [by apply sublist_cons|].
    by apply sublist_skip.
Qed.

Lemma get_assignment_loop_total t n : forall i j result,
  i + n <= length (m_fmls t) -> is_Some (get_assignment_loop t n i j result).
Proof.
  induction n as [|n IH]; intros i j result Hlen; simpl; [eauto|].
  destruct (bool_decide _); [apply IH; lia|].
  assert (is_Some (m_fmls t !! i)) as [f ->] by (apply lookup_lt_is_Some_2; lia).
  simpl. apply IH. lia.
Qed.

(** X13: on any plugin state, with [m_cost_save] holding whatever ids, also
    twice: [get_assignment] returns as soon as [m_fmls] is at least as long
    as [m_vars]; what it returns is a subsequence of the first
    [m_vars.size()] formulas, in order, that contains every formula whose
    index is not in [m_cost_save], and it leaves out at most as many
    formulas as [m_cost_save] has entries. *)
Theorem get_assignment_shape `{!StdSort} (t : theory_weighted_maxsat) :
  (length (m_vars t) <= length (m_fmls t) -> is_Some (get_assignment t)) /\
  forall result t', get_assignment t = Some (result, t') ->
    result `sublist_of` take (length (m_vars t)) (m_fmls t) /\
    complement_fmls t `sublist_of` result /\
    length (m_vars t) <= length result + length (m_cost_save t).
Proof.
  unfold get_assignment. cbv zeta.
  set (t1 := set_m_cost_save (std_sort Nat.ltb (m_cost_save t)) t).
  assert (Permutation (m_cost_save t1) (m_cost_save t)) as Hp by apply std_sort_perm.
  split.
  - intros Hlen.
    destruct (get_assignment_loop_total t1 (length (m_vars t1)) 0 0 []) as [r ->];
      [done|]. simpl. eauto.
  - intros result t'.
    destruct (get_assignment_loop t1 _ 0 0 []) as [r|] eqn:Hloop; simpl; [|done].
    intros [= <- <-].
    apply get_assignment_loop_shape in Hloop as (ext & -> & Hsub & Hcompl & Hlen);
      [|lia].
    change (complement_fmls t1 `sublist_of` ext) in Hcompl.
    rewrite (complement_fmls_perm t t1 eq_refl eq_refl Hp) in Hcompl.
    rewrite (Permutation_length Hp) in Hlen.
    rewrite drop_0 in Hsub. simpl in *. split; [done|]. split; [done|lia].
Qed.

(** X13, witness: the scenario after a final check saved the first id. *)
Lemma get_assignment_shape_witness :
  let t := st_th (state_after scenario_soft [Assign 0 true; FinalCheck]) in
  exists result t',
    get_assignment (H := stable_std_sort) t = Some (result, t') /\
    length (m_vars t) <= length result + length (m_cost_save t).
Proof.
  intros t.
  destruct (get_assignment_shape (H := stable_std_sort) t) as [Htotal Hshape].
  destruct Htotal as [[result t'] E]; [vm_compute; lia|].
  destruct (Hshape result t' E) as (_ & _ & Hlen).
  exists result, t'. split; [exact E|exact Hlen].
Defined.

(** ** The first binding *)

Lemma init_search_step_owner s var :
  let s' := init_search_step s var in
  let c := st_ctx s in
  let bv := default (m_num_bool_vars c) (m_expr2bool_var c !! var) in
  m_var_theory (st_ctx s') = {[bv]} ∪ m_var_theory c /\
  m_th_var (st_ctx s') = <[var := length (m_var2enode (st_th s))]> (m_th_var c) /\
  m_asserted (st_ctx s') = m_asserted c /\
  m_fresh (st_ctx s') = m_fresh c.
Proof.
  unfold init_search_step, e_internalized, b_internalized, get_bool_var, get_enode.
  destruct (bool_decide (var ∈ m_e_internalized (st_ctx s))); simpl;
    destruct (m_expr2bool_var (st_ctx s) !! var) as [bv|]; simpl; done.
Qed.

Lemma init_search_fold_owner vars : forall s,
  NoDup vars ->
  let s' := foldl init_search_step s vars in
  let base := length (m_var2enode (st_th s)) in
  m_var_theory (st_ctx s) ⊆ m_var_theory (st_ctx s') /\
  (forall a, a ∉ vars -> m_th_var (st_ctx s') !! a = m_th_var (st_ctx s) !! a) /\
  (forall i a, vars !! i = Some a -> m_th_var (st_ctx s') !! a = Some (base + i)) /\
  (forall tv bv, m_var2bool (st_th s') !! tv = Some bv ->
     (m_var2bool (st_th s) !! tv = Some bv \/ base <= tv < base + length vars) /\
     (m_var2bool (st_th s) !! tv = Some bv \/ bv ∈ m_var_theory (st_ctx s'))) /\
  m_asserted (st_ctx s') = m_asserted (st_ctx s) /\
  m_fresh (st_ctx s') = m_fresh (st_ctx s).
Proof.
  induction vars as [|a vars IH]; intros s Hnd; simpl.
  { split; [done|]. split; [done|]. split; [by intros []|]. split; [|done].
    intros tv bv Htv. split; by left. }
  apply NoDup_cons in Hnd as [Hnin Hnd].
  destruct (IH (init_search_step s a) Hnd) as (Hsub & Hout & Hin & Hv2b & Has & Hfr).
  cbv zeta in Hsub, Hout, Hin, Hv2b.
  destruct (init_search_step_owner s a) as (Hvt & Htv & Has1 & Hfr1).
  destruct (init_search_step_spec s a) as (_ & _ & _ & _ & Hv2b1 & Hv2e & _).
  cbv zeta in Hvt, Htv, Has1, Hfr1, Hv2b1, Hv2e.
  rewrite Hv2e, length_app in Hin, Hv2b. simpl in Hin, Hv2b.
  set (s' := foldl init_search_step (init_search_step s a) vars) in *.
  split; [|split; [|split; [|split; [|split]]]].
  - etransitivity; [|exact Hsub]. rewrite Hvt. apply union_subseteq_r.
  - intros b Hb. apply not_elem_of_cons in Hb as [Hne Hb].
    rewrite (Hout b Hb), Htv. by rewrite lookup_insert_ne.
  - intros [|i] b; simpl.
    + intros [= <-]. rewrite (Hout a Hnin), Htv, lookup_insert_eq. f_equal. lia.
    + intros Hi. rewrite (Hin i b Hi). f_equal. lia.
  - intros tv bv Htvbv. destruct (Hv2b tv bv Htvbv) as [Hrange Howner].
    rewrite Hv2b1 in Hrange, Howner. split.
    + destruct Hrange as [Hold|Hr]; [|right; lia].
      rewrite lookup_insert in Hold. case_decide; [subst tv; right; lia|by left].
    + destruct Howner as [Hold|Ho]; [|by right].
      rewrite lookup_insert in Hold. case_decide; [|by left].
      injection Hold as <-. right. apply Hsub. rewrite Hvt.
      apply elem_of_union_l, elem_of_singleton. done.
  - etransitivity; [exact Has|exact Has1].
  - etransitivity; [exact Hfr|exact Hfr1].
Qed.

(** X14: the first [init_search_eh] after registration on a new plugin
    binds constraint [i] to theory variable [i]: its relaxation constant has
    an enode with theory variable [i] attached and a boolean variable that
    the plugin owns; [m_bool2var] and [m_var2bool] are inverse to each
    other, and [m_var2bool] has exactly the keys [0 .. n-1]. *)
Theorem init_search_eh_binds (c : context) (soft : list (expr * rational)) :
  bool_vars_wf c ->
  let s := start_search c soft in
  (forall i, i < length soft ->
     m_vars (st_th s) !! i = Some (m_fresh c + i) /\
     (m_fresh c + i) ∈ m_e_internalized (st_ctx s) /\
     m_th_var (st_ctx s) !! (m_fresh c + i) = Some i /\
     exists bv,
       m_expr2bool_var (st_ctx s) !! (m_fresh c + i) = Some bv /\
       bv ∈ m_var_theory (st_ctx s) /\
       m_bool2var (st_th s) !! bv = Some i /\
       m_var2bool (st_th s) !! i = Some bv) /\
  (forall bv tv, m_bool2var (st_th s) !! bv = Some tv <->
                 m_var2bool (st_th s) !! tv = Some bv) /\
  (forall tv, is_Some (m_var2bool (st_th s) !! tv) <-> tv < length soft).
Proof.
  intros Hwf. unfold start_search, init_search_eh.
  set (s0 := mk_state c alloc_theory).
  destruct (register_all_spec soft s0) as (Hv & _ & _ & Hth & Hc & _).
  cbv zeta in Hv, Hth, Hc. simpl in Hv, Hth, Hc.
  set (sr := register_all soft s0) in *.
  injection Hth as _ _ _ Hb2v Hv2b Hv2e.
  injection Hc as _ _ _ Hei' He2b' Hnum'.
  assert (bool_vars_wf (st_ctx sr)) as Hwfr.
  { unfold bool_vars_wf. by rewrite He2b', Hnum'. }
  assert (NoDup (m_vars (st_th sr))) as Hnd by (rewrite Hv; apply NoDup_seq).
  destruct (init_search_fold _ sr Hwfr Hnd)
    as (_ & _ & _ & _ & Per' & Dom' & _ & _ & _ & Fth' & _).
  destruct (init_search_fold_owner _ sr Hnd) as (_ & _ & Hin & Hdom & _).
  cbv zeta in *. rewrite Hv2e in Per', Dom', Hin, Hdom. simpl in Per', Dom', Hin, Hdom.
  set (s := foldl init_search_step sr (m_vars (st_th sr))) in *.
  injection Fth' as Fv _ _ _ _ _ _.
  assert (forall i, i < length soft -> m_vars (st_th sr) !! i = Some (m_fresh c + i))
    as Hvars.
  { intros i Hi. rewrite Hv. by apply lookup_seq_lt. }
  assert (forall tv bv, m_var2bool (st_th s) !! tv = Some bv ->
            tv < length soft /\ bv ∈ m_var_theory (st_ctx s)) as Hkeys.
  { intros tv bv Htv. destruct (Hdom tv bv Htv) as [Hr Ho].
    rewrite Hv2b in Hr, Ho. rewrite Hv, length_seq in Hr.
    split; [destruct Hr as [Hr|Hr]; [done|lia]|by destruct Ho]. }
  split; [|split].
  - intros i Hi. specialize (Hvars i Hi).
    destruct (Per' i _ Hvars) as (Hint & bv & He & H1 & H2).
    split; [by rewrite Fv|]. split; [done|]. split; [by apply Hin|].
    exists bv. split; [done|]. split; [by apply (Hkeys i bv)|done].
  - intros bv tv. split.
    + intros Hbv. destruct (Dom' bv tv Hbv) as [Hold|(i & a & Hi & -> & Ha)].
      * by rewrite Hb2v in Hold.
      * destruct (Per' i a Hi) as (_ & bv' & Ha' & _ & H2). congruence.
    + intros Htv. destruct (Hkeys tv bv Htv) as [Hlt _].
      destruct (Per' tv _ (Hvars tv Hlt)) as (_ & bv' & _ & H1 & H2). congruence.
  - intros tv. split.
    + intros [bv Hbv]. by destruct (Hkeys tv bv Hbv).
    + intros Hlt. destruct (Per' tv _ (Hvars tv Hlt)) as (_ & bv' & _ & _ & H2). eauto.
Qed.

(** X14, witness: the three constraints of the scenario in the empty host. *)
Lemma init_search_eh_binds_witness :
  let s := start_search empty_context scenario_soft in
  (forall bv tv, m_bool2var (st_th s) !! bv = Some tv <->
                 m_var2bool (st_th s) !! tv = Some bv) /\
  (forall tv, is_Some (m_var2bool (st_th s) !! tv) <-> tv < 3).
Proof.
  intros s.
  destruct (init_search_eh_binds empty_context scenario_soft
              (proj2 (proj2 empty_context_wf))) as (_ & Hinv & Hkeys).
  split; [exact Hinv|exact Hkeys].
Defined.

(** ** The registration loop of the entry point *)

Lemma assert_all_register soft weights : forall i s,
  i + length soft <= length weights ->
  assert_all soft weights i s = Some (register_all (zip soft (drop i weights)) s).
Proof.
  induction soft as [|f soft IH]; intros i s Hlen; simpl; [done|].
  simpl in Hlen.
  assert (is_Some (weights !! i)) as [w Hw] by (apply lookup_lt_is_Some_2; lia).
  rewrite Hw. simpl. rewrite IH by lia.
  rewrite (drop_S _ _ _ Hw). done.
Qed.

Lemma assert_all_short soft weights : forall i s,
  i <= length weights < i + length soft -> assert_all soft weights i s = None.
Proof.
  induction soft as [|f soft IH]; intros i s Hlen; simpl in *; [lia|].
  destruct (weights !! i) as [w|] eqn:Hw; simpl; [|done].
  apply lookup_lt_Some in Hw. apply IH. lia.
Qed.

(** X15: the loop of [weighted_maxsat] registers [soft_constraints[i]]
    with [weights[i]], in order, and ignores weights beyond the last soft
    constraint; when there are fewer weights than soft constraints it reads
    [weights] out of range and has no result. *)
Theorem assert_all_zip (soft : list expr) (weights : list rational) (s : smt_state) :
  assert_all soft weights 0 s =
  if decide (length soft <= length weights)
  then Some (register_all (zip soft weights) s)
  else None.
Proof.
  case_decide.
  - by rewrite assert_all_register, drop_0.
  - apply assert_all_short. lia.
Qed.

(** ** The entry point over a whole session *)

Lemma omap_lookup_none {A : Type} (l : list A) n : forall i,
  length l <= i -> omap (fun i => l !! i) (seq i n) = [].
Proof.
  induction n as [|n IH]; intros i Hi; simpl; [done|].
  rewrite lookup_ge_None_2 by done. apply IH. lia.
Qed.

Lemma omap_lookup_seq {A : Type} (l : list A) : forall pre n,
  omap (fun i => (pre ++ l) !! i) (seq (length pre) n) = take n l.
Proof.
  induction l as [|x l IH]; intros pre n.
  - rewrite take_nil. apply omap_lookup_none. by rewrite app_nil_r.
  - destruct n as [|n]; simpl; [done|].
    rewrite lookup_app_r, Nat.sub_diag by lia. simpl. f_equal.
    specialize (IH (pre ++ [x]) n).
    rewrite length_app, Nat.add_1_r, <- app_assoc in IH. exact IH.
Qed.

Lemma complement_fmls_none t :
  m_cost_save t = [] -> complement_fmls t = take (length (m_vars t)) (m_fmls t).
Proof.
  intros Hs. unfold complement_fmls. rewrite Hs.
  apply (omap_lookup_seq (m_fmls t) [] _).
Qed.

Lemma start_search_registry c soft weights :
  ctx_wf c -> length soft <= length weights ->
  search_inv (start_search c (zip soft weights)) /\
  m_fmls (st_th (start_search c (zip soft weights))) = soft /\
  length (m_vars (st_th (start_search c (zip soft weights)))) = length soft /\
  m_costs (st_th (start_search c (zip soft weights))) = [] /\
  m_cost_save (st_th (start_search c (zip soft weights))) = [].
Proof.
  intros Hwf Hlen.
  destruct (start_search_spec c (zip soft weights) Hwf)
    as (Hinv & _ & Hf & Hv & Hcs & Hsave & _).
  split; [done|]. split; [by rewrite Hf, fst_zip|].
  split; [|done]. rewrite Hv, length_seq, length_zip. lia.
Qed.

(** X16: [weighted_maxsat] on a host without the plugin, with at least as
    many weights as soft constraints: when the search of [check_sat_core]
    is a session of callbacks in which no relaxation literal is assigned
    twice on a branch, the call returns exactly the soft constraints whose
    index is not in the [m_cost_save] the session ends with, in their order,
    with the status [l_false] turned into [l_true] when any is returned. *)
Theorem weighted_maxsat_session `{!StdSort}
    (check_sat_core : smt_state -> lbool * smt_state) (c : context)
    (soft : list expr) (weights : list rational) (evs : list event)
    (r : lbool) (s2 : smt_state) :
  ctx_wf c -> length soft <= length weights ->
  check_sat_core (register_all (zip soft weights) (mk_state c alloc_theory)) = (r, s2) ->
  run evs (start_search c (zip soft weights)) = Some s2 ->
  host_assigns_once evs (start_search c (zip soft weights)) = true ->
  let kept :=
    omap (fun i => if bool_decide (i ∈ m_cost_save (st_th s2)) then None else soft !! i)
         (seq 0 (length soft)) in
  exists t',
    weighted_maxsat check_sat_core c None soft weights =
    Some (match kept, r with _ :: _, l_false => l_true | _, _ => r end,
          kept, mk_state (st_ctx s2) t').
Proof.
  intros Hwf Hlen Hcs Hrun Honce kept.
  destruct (start_search_registry c soft weights Hwf Hlen)
    as (Hinv0 & Hf0 & Hv0 & Hcs0 & Hsave0).
  assert (nodup_inv (st_th (start_search c (zip soft weights)))) as Hnd0.
  { split; [rewrite Hcs0|rewrite Hsave0]; constructor. }
  pose proof (run_nodup _ _ _ Hinv0 Hnd0 Honce Hrun) as [_ Hnd].
  pose proof (run_registry _ _ _ Hinv0 Hrun) as Hreg.
  unfold registry in Hreg. injection Hreg as Hv Hf _ _ _ _.
  assert (length (m_vars (st_th s2)) = length soft) as Hlv by (by rewrite Hv).
  assert (m_fmls (st_th s2) = soft) as Hfm by (by rewrite Hf).
  assert (complement_fmls (st_th s2) = kept) as Hk.
  { unfold complement_fmls, kept. by rewrite Hlv, Hfm. }
  unfold weighted_maxsat.
  rewrite assert_all_register, drop_0 by (simpl; lia). simpl.
  rewrite Hcs.
  rewrite get_assignment_spec by (try done; rewrite Hlv, Hfm; done).
  simpl. rewrite Hk. eauto.
Qed.

(** X17: when the search of [check_sat_core] ends without a final check
    (only assignments, scope pushes and backtracks reached the plugin),
    nothing was saved, and [weighted_maxsat] returns every soft constraint;
    an [l_false] of the search then comes back as [l_true] unless there is
    no soft constraint at all. *)
Theorem weighted_maxsat_without_final_check `{!StdSort}
    (check_sat_core : smt_state -> lbool * smt_state) (c : context)
    (soft : list expr) (weights : list rational) (evs : list event)
    (r : lbool) (s2 : smt_state) :
  ctx_wf c -> length soft <= length weights ->
  check_sat_core (register_all (zip soft weights) (mk_state c alloc_theory)) = (r, s2) ->
  run evs (start_search c (zip soft weights)) = Some s2 ->
  Forall (fun e => e <> FinalCheck) evs ->
  m_cost_save (st_th s2) = [] /\
  exists t',
    weighted_maxsat check_sat_core c None soft weights =
    Some (match soft, r with _ :: _, l_false => l_true | _, _ => r end,
          soft, mk_state (st_ctx s2) t').
Proof.
  intros Hwf Hlen Hcs Hrun Hne.
  destruct (start_search_registry c soft weights Hwf Hlen)
    as (Hinv0 & Hf0 & Hv0 & _ & Hsave0).
  pose proof (run_bound_view _ _ _ Hne Hrun) as Hbv.
  unfold bound_view in Hbv. injection Hbv as _ Hsave _. rewrite Hsave0 in Hsave.
  pose proof (run_registry _ _ _ Hinv0 Hrun) as Hreg.
  unfold registry in Hreg. injection Hreg as Hv Hf _ _ _ _.
  assert (length (m_vars (st_th s2)) = length soft) as Hlv by (by rewrite Hv).
  assert (m_fmls (st_th s2) = soft) as Hfm by (by rewrite Hf).
  assert (complement_fmls (st_th s2) = soft) as Hk.
  { rewrite complement_fmls_none by done. rewrite Hlv, Hfm. apply firstn_all. }
  split; [done|].
  unfold weighted_maxsat.
  rewrite assert_all_register, drop_0 by (simpl; lia). simpl.
  rewrite Hcs.
  rewrite get_assignment_spec
    by (try (rewrite Hlv, Hfm; done); rewrite Hsave; constructor).
  simpl. rewrite Hk. eauto.
Qed.

(** X16, witness: the weights 3, 5, 2, a search that relaxes the first
    constraint and accepts that at a final check. *)
Lemma weighted_maxsat_session_witness :
  exists s',
    weighted_maxsat (H := stable_std_sort) (session_search [Assign 0 true; FinalCheck])
      empty_context None [e_user 0; e_user 1; e_user 2] [3%Q; 5%Q; 2%Q] =
    Some (l_true, [e_user 1; e_user 2], s').
Proof.
  set (soft := [e_user 0; e_user 1; e_user 2]).
  set (weights := [3%Q; 5%Q; 2%Q]).
  set (evs := [Assign 0 true; FinalCheck]).
  set (s2 := state_after (zip soft weights) evs).
  assert (session_search evs (register_all (zip soft weights)
            (mk_state empty_context alloc_theory)) = (l_false, s2)) as Hcs
    by (vm_compute; reflexivity).
  assert (run (H := stable_std_sort) evs (start_search empty_context (zip soft weights))
          = Some s2) as Hrun by (vm_compute; reflexivity).
  assert (host_assigns_once (H := stable_std_sort) evs
            (start_search empty_context (zip soft weights)) = true) as Honce
    by (vm_compute; reflexivity).
  assert (length soft <= length weights) as Hlen by (simpl; lia).
  destruct (weighted_maxsat_session (H := stable_std_sort) (session_search evs)
              empty_context soft weights evs l_false s2
              empty_context_wf Hlen Hcs Hrun Honce) as [t' E].
  exists (mk_state (st_ctx s2) t'). rewrite E.
  assert (m_cost_save (st_th s2) = [0]) as -> by (vm_compute; reflexivity).
  reflexivity.
Defined.

(** X17, witness: a search that relaxes the first constraint and refutes
    without a final check. *)
Lemma weighted_maxsat_without_final_check_witness :
  exists s',
    weighted_maxsat (H := stable_std_sort) (session_search [Assign 0 true])
      empty_context None [e_user 0; e_user 1] [3%Q; 5%Q] =
    Some (l_true, [e_user 0; e_user 1], s').
Proof.
  set (soft := [e_user 0; e_user 1]).
  set (weights := [3%Q; 5%Q]).
  set (evs := [Assign 0 true]).
  set (s2 := state_after (zip soft weights) evs).
  assert (length soft <= length weights) as Hlen by (simpl; lia).
  assert (session_search evs (register_all (zip soft weights)
            (mk_state empty_context alloc_theory)) = (l_false, s2)) as Hcs
    by (vm_compute; reflexivity).
  assert (run (H := stable_std_sort) evs (start_search empty_context (zip soft weights))
          = Some s2) as Hrun by (vm_compute; reflexivity).
  assert (Forall (fun e => e <> FinalCheck) evs) as Hne
    by (repeat constructor; discriminate).
  destruct (weighted_maxsat_without_final_check (H := stable_std_sort)
              (session_search evs) empty_context soft weights evs l_false s2
              empty_context_wf Hlen Hcs Hrun Hne) as [_ [t' E]].
  exists (mk_state (st_ctx s2) t'). exact E.
Defined.

(** ** A stale registry *)

(** X18: whatever the plugin held, after [reset_eh] and the registration
    of new soft constraints [m_vars] and [m_weights] belong to the new
    constraints alone while [m_fmls] still begins with the old formulas and
    both maps keep their old bindings; with [n] new constraints
    [get_assignment] then returns the first [n] entries of the old formulas
    followed by the new ones. *)
Theorem reset_eh_then_register `{!StdSort} (t : theory_weighted_maxsat) (c : context)
    (soft : list (expr * rational)) :
  let t' := st_th (register_all soft (mk_state c (reset_eh t))) in
  m_vars t' = seq (m_fresh c) (length soft) /\
  m_weights t' = map snd soft /\
  m_fmls t' = m_fmls t ++ map fst soft /\
  (m_min_cost t' == Qsum (map snd soft))%Q /\
  m_bool2var t' = m_bool2var t /\ m_var2bool t' = m_var2bool t /\
  fst <$> get_assignment t' = Some (take (length soft) (m_fmls t ++ map fst soft)).
Proof.
  intros t'. subst t'.
  destruct (register_all_spec soft (mk_state c (reset_eh t)))
    as (Hv & Hw & Hf & Hth & _). cbv zeta in Hv, Hw, Hf, Hth. simpl in Hv, Hw, Hf, Hth.
  pose proof (register_all_min_cost soft (mk_state c (reset_eh t))) as Hm. simpl in Hm.
  injection Hth as _ _ Hsave Hb2v Hv2b _.
  set (t' := st_th (register_all soft (mk_state c (reset_eh t)))) in *.
  split; [done|]. split; [done|]. split; [done|]. split; [lra|].
  split; [done|]. split; [done|].
  rewrite get_assignment_spec.
  - simpl. rewrite complement_fmls_none by done.
    by rewrite Hv, Hf, length_seq.
  - rewrite Hsave. constructor.
  - rewrite Hv, Hf, length_seq, length_app, length_map. lia.
Qed.
